(** * Travel Marks (phdwight/traveller2): the itinerary core of [App.tsx]

    A shallow embedding of the component's pure helpers and event
    handlers, and the properties of its specification checked on them.

    Numbers.  A TypeScript [number] is idealised as a real number: the
    arithmetic of the source ([+], [*], [/], [Math.sin], [Math.min], ...)
    is read over [R], without rounding and without [NaN].  Every property
    below is a property of the formulas under that reading. *)

From Stdlib Require Import Reals Lra Lia Bool Arith ZArith String Ascii List.
From Stdlib Require Floats.
Import ListNotations.

Open Scope R_scope.

(* ================================================================== *)
(** * Part I.  The embedding                                           *)
(* ================================================================== *)

(** ** JavaScript's [Math] on reals *)

Module JsMath.

(** [Math.atan2(y, x)]: the angle of the point [(x, y)], in (-PI, PI]. *)
Definition atan2 (y x : R) : R :=
  if Rlt_dec 0 x then atan (y / x)
  else if Rlt_dec x 0 then
         (if Rle_dec 0 y then atan (y / x) + PI else atan (y / x) - PI)
  else if Rlt_dec 0 y then PI / 2
  else if Rlt_dec y 0 then - (PI / 2)
  else 0.

(** [Math.min(a, b)] *)
Definition min (a b : R) : R := if Rle_dec a b then a else b.

(** [Math.pow(x, n)] for a natural exponent *)
Definition pow (x : R) (n : nat) : R := x ^ n.

(** [x < y] as the condition of a JavaScript [if] *)
Definition ltb (x y : R) : bool := if Rlt_dec x y then true else false.

End JsMath.

(** A coordinate is the two-element array [[lon, lat]] of the geocoder:
    [c[0]] is [fst c], [c[1]] is [snd c]. *)
Definition Coordinate : Type := (R * R)%type.

Definition origin : Coordinate := (0, 0).

(** Two coordinates used in the examples (the scenario of the
    specification: Paris and Tokyo). *)
Definition paris : Coordinate := (235 / 100, 4885 / 100).
Definition tokyo : Coordinate := (13969 / 100, 3568 / 100).

(** [l[k] = f(l[k])] on an array that has an index [k]; nothing
    otherwise. *)
Fixpoint update_nth {A : Type} (k : nat) (f : A -> A) (l : list A)
    {struct l} : list A :=
  match l, k with
  | [], _ => []
  | x :: l', O => f x :: l'
  | x :: l', S k' => x :: update_nth k' f l'
  end.

(** ** Distance and travel-time estimate ([calculateDistance], the tail
       of [fetchCoords]) *)

Module Estimator.

Definition calculateDistance (coord1 coord2 : Coordinate) : R :=
  let R := 6371 in
  let dLat := (snd coord2 - snd coord1) * PI / 180 in
  let dLon := (fst coord2 - fst coord1) * PI / 180 in
  let a := sin (dLat / 2) * sin (dLat / 2) +
           cos (snd coord1 * PI / 180) * cos (snd coord2 * PI / 180) *
           sin (dLon / 2) * sin (dLon / 2) in
  let c := 2 * JsMath.atan2 (sqrt a) (sqrt (1 - a)) in
  R * c.

(** The body of
    [for (let i = 0; i < results.length - 1; i++) totalDist += ...]:
    [steps] is the number of iterations still to run from index [i]. *)
Fixpoint distance_loop (results : list Coordinate) (i steps : nat)
    (totalDist : R) : R :=
  match steps with
  | O => totalDist
  | S steps' =>
      distance_loop results (S i) steps'
        (totalDist +
         calculateDistance (nth i results origin) (nth (S i) results origin))
  end.

(** What [fetchCoords] hands to [setTotalDistance] and [setEstimatedTime]
    once [results] is known. *)
Definition estimate (results : list Coordinate) : R * R :=
  if (1 <? length results)%nat then
    let totalDist :=
      distance_loop results 0 (length results - 1) 0 in
    (totalDist, totalDist / 60)
  else (0, 0).

Definition totalDistance (results : list Coordinate) : R :=
  fst (estimate results).

Definition estimatedTime (results : list Coordinate) : R :=
  snd (estimate results).

(** Following the specification's words, the haversine formula in its
    usual form: the great-circle distance, on a sphere of the given
    radius, between two points given in degrees. *)
Definition radians (degrees : R) : R := degrees * PI / 180.

Definition hav (x : R) : R := sin (x / 2) * sin (x / 2).

Definition haversine (radius : R) (c1 c2 : Coordinate) : R :=
  2 * radius *
  asin (sqrt (hav (radians (snd c2) - radians (snd c1)) +
              cos (radians (snd c1)) * cos (radians (snd c2)) *
              hav (radians (fst c2) - radians (fst c1)))).

(** A latitude is between -90 and 90 degrees. *)
Definition valid_latitude (c : Coordinate) : Prop := -90 <= snd c <= 90.

(** The sum written in the specification:
    [Σ f i] for [i] from [0] to [m - 1]. *)
Fixpoint sigma (f : nat -> R) (m : nat) : R :=
  match m with
  | O => 0
  | S m' => sigma f m' + f m'
  end.

End Estimator.

(** ** The easing curve of [animateSegment] *)

Module Easing.

Definition easeInOutCubic (x : R) : R :=
  if Rlt_dec x (1 / 2) then 4 * x * x * x
  else 1 - JsMath.pow (-2 * x + 2) 3 / 2.

End Easing.

(** ** Geocoding of the place list (the head of [fetchCoords]) *)

Module Resolver.

(** One entry of [data.features] in a geocoding response. *)
Record Feature : Type := mkFeature {
  place_name : string;
  center : Coordinate;
  id : string
}.

(** What [await fetch(...)] followed by [await res.json()] yields:
    a body, whose [features] field may be missing, or a rejection
    ([fetchCoords] has no [try]: a rejection ends the call before
    [setCoords]). *)
Inductive FetchResult : Type :=
| Body (features : option (list Feature))
| Rejected.

(** The geocoding service as the client sees it: the answer to a
    request for a place, given the requests already made. *)
Definition Service : Type := list string -> string -> FetchResult.

(** [if (data.features && data.features[0]) results.push(...center)] *)
Definition push_center (features : option (list Feature))
    (results : list Coordinate) : list Coordinate :=
  match features with
  | Some (f :: _) => results ++ [center f]
  | _ => results
  end.

(** [for (const place of places) { ... }], one request at a time;
    [log] is the list of requests made so far.  The second component is
    the array handed to [setCoords], if that line is reached. *)
Fixpoint resolve_loop (svc : Service) (places : list string)
    (log : list string) (results : list Coordinate)
    : list string * option (list Coordinate) :=
  match places with
  | [] => (log, Some results)
  | place :: rest =>
      match svc log place with
      | Rejected => (log ++ [place], None)
      | Body features =>
          resolve_loop svc rest (log ++ [place]) (push_center features results)
      end
  end.

Definition fetchCoords (svc : Service) (places : list string)
    : list string * option (list Coordinate) :=
  resolve_loop svc places [] [].

(** The single best match for one place: the centre of the first
    feature, when there is one. *)
Definition resolveOne (svc : Service) (log : list string) (place : string)
    : option Coordinate :=
  match svc log place with
  | Body (Some (f :: _)) => Some (center f)
  | _ => None
  end.

(** The coordinates of the entries that resolve, in input order: entry
    [i] is asked after entries [0 .. i-1]. *)
Definition resolved (svc : Service) (log : list string)
    (places : list string) : list Coordinate :=
  flat_map
    (fun i => match resolveOne svc (log ++ firstn i places)
                               (nth i places EmptyString) with
              | Some c => [c]
              | None => []
              end)
    (seq 0 (length places)).

(** No request of the pass is rejected. *)
Fixpoint all_fulfilled (svc : Service) (log : list string)
    (places : list string) : bool :=
  match places with
  | [] => true
  | place :: rest =>
      match svc log place with
      | Rejected => false
      | Body _ => all_fulfilled svc (log ++ [place]) rest
      end
  end.

(** A service that knows Paris and Tokyo and nothing else. *)
Definition atlas : Service := fun _ place =>
  if String.eqb place "Paris" then
    Body (Some [mkFeature "Paris, France" paris "place.1"])
  else if String.eqb place "Tokyo" then
    Body (Some [mkFeature "Tokyo, Japan" tokyo "place.2"])
  else Body (Some []).

(** The same service, with the network down while the second request
    of a pass is made. *)
Definition atlas_dropout : Service := fun log place =>
  if (length log =? 1)%nat then Rejected else atlas log place.

End Resolver.

(** ** Autocomplete: the suggestions effect, [handleAddPlace],
       [handleSuggestionClick] and the keyboard cursor *)

Module Autocomplete.

Definition Suggestion : Type := Resolver.Feature.

(** A string used as a condition: the empty string is falsy. *)
Definition truthy (s : string) : bool := negb (String.eqb s EmptyString).

(** [String.prototype.trim], on the white space of ASCII (tab, line
    feed, vertical tab, form feed, carriage return, space).  A [string]
    is a sequence of one-byte characters: the white space beyond ASCII
    that [trim] also strips (U+00A0, U+2028, U+FEFF, ...) is not told
    apart from other text. *)
Definition is_space (c : ascii) : bool :=
  let n := nat_of_ascii c in
  ((9 <=? n) && (n <=? 13) || (n =? 32))%nat.

Fixpoint trim_start (s : string) : string :=
  match s with
  | EmptyString => EmptyString
  | String c s' => if is_space c then trim_start s' else s
  end.

Fixpoint trim_end (s : string) : string :=
  match s with
  | EmptyString => EmptyString
  | String c s' =>
      match trim_end s' with
      | EmptyString => if is_space c then EmptyString else String c EmptyString
      | r => String c r
      end
  end.

Definition trim (s : string) : string := trim_end (trim_start s).

(** The timer of one run of the effect ([setTimeout(fetchSuggestions, 300)]). *)
Inductive Timer : Type := Pending | Fired | Cleared.

(** The closure of one run of the suggestions effect that got past its
    two guards: the text it asks for, its [ignore] flag, its timer, and
    whether its [fetch] is under way. *)
Record Query : Type := mkQuery {
  q_input : string;
  ignore : bool;
  timer : Timer;
  inflight : bool
}.

Record State : Type := mkState {
  places : list string;
  input : string;
  suggestions : list Suggestion;
  highlightedIdx : Z;
  queries : list Query;        (* closures of the effect, oldest first *)
  cleanup : option nat         (* the closure whose cleanup React holds *)
}.

Definition initial : State := mkState [] EmptyString [] (-1) [] None.

Definition setPlaces (v : list string) (st : State) : State :=
  mkState v (input st) (suggestions st) (highlightedIdx st)
          (queries st) (cleanup st).
Definition set_input (v : string) (st : State) : State :=
  mkState (places st) v (suggestions st) (highlightedIdx st)
          (queries st) (cleanup st).
Definition setSuggestions (v : list Suggestion) (st : State) : State :=
  mkState (places st) (input st) v (highlightedIdx st)
          (queries st) (cleanup st).
Definition setHighlightedIdx (v : Z) (st : State) : State :=
  mkState (places st) (input st) (suggestions st) v
          (queries st) (cleanup st).
Definition set_queries (v : list Query) (st : State) : State :=
  mkState (places st) (input st) (suggestions st) (highlightedIdx st)
          v (cleanup st).
Definition set_cleanup (v : option nat) (st : State) : State :=
  mkState (places st) (input st) (suggestions st) (highlightedIdx st)
          (queries st) v.

(** [() => { ignore = true; clearTimeout(timeoutId); }] *)
Definition cancel (q : Query) : Query :=
  mkQuery (q_input q) true
          (match timer q with Pending => Cleared | t => t end)
          (inflight q).

Definition run_cleanup (st : State) : State :=
  match cleanup st with
  | None => st
  | Some k => set_cleanup None (set_queries (update_nth k cancel (queries st)) st)
  end.

Section WithToken.

(** [mapboxgl.accessToken], fixed when the module is loaded. *)
Variable accessToken : string.

(** The body of the effect on [[input]]. *)
Definition suggestions_effect (st : State) : State :=
  if negb (truthy (trim (input st))) then setSuggestions [] st
  else if negb (truthy accessToken) then setSuggestions [] st
  else
    set_cleanup (Some (length (queries st)))
      (set_queries (queries st ++ [mkQuery (input st) false Pending false]) st).

(** [setInput(v)] and the commit that follows: when the text changes,
    React runs the cleanup of the previous run, then the effect. *)
Definition setInput (v : string) (st : State) : State :=
  if String.eqb v (input st) then st
  else suggestions_effect (run_cleanup (set_input v st)).

(** How the request of a closure settles. *)
Inductive Response : Type :=
| Ok (features : option (list Suggestion))   (* res.ok, then res.json() *)
| Failed.                                    (* rejection or !res.ok *)

(** The continuation of [fetchSuggestions] after its awaits. *)
Definition settle (r : Response) (q : Query) (st : State) : State :=
  match r with
  | Ok features =>
      if negb (ignore q)
      then setSuggestions (match features with Some fs => fs | None => [] end) st
      else st
  | Failed =>
      if negb (ignore q) then setSuggestions [] st else st
  end.

Definition handleSuggestionClick (place : string) (st : State) : State :=
  setInput EmptyString (setSuggestions [] (setPlaces (places st ++ [place]) st)).

Definition handleAddPlace (st : State) : State :=
  let trimmedInput := trim (input st) in
  if negb (truthy trimmedInput) then st
  else
    match find (fun s => String.eqb (Resolver.place_name s) trimmedInput)
               (suggestions st) with
    | Some match_ =>
        setInput EmptyString
          (setSuggestions []
             (setPlaces (places st ++ [Resolver.place_name match_]) st))
    | None =>
        if negb (truthy accessToken) || (length (suggestions st) =? 0)%nat
        then
          setInput EmptyString
            (setSuggestions [] (setPlaces (places st ++ [trimmedInput]) st))
        else st
    end.

Inductive Key : Type := ArrowDown | ArrowUp | Enter | OtherKey.

(** [onKeyDown] of the text field. *)
Definition onKeyDown (key : Key) (st : State) : State :=
  if (0 <? length (suggestions st))%nat then
    match key with
    | ArrowDown =>
        setHighlightedIdx
          (Z.min (highlightedIdx st + 1)
                 (Z.of_nat (length (suggestions st)) - 1)) st
    | ArrowUp => setHighlightedIdx (Z.max (highlightedIdx st - 1) 0) st
    | Enter =>
        let idxToUse :=
          if (highlightedIdx st =? -1)%Z then 0%Z else highlightedIdx st in
        if ((0 <=? idxToUse) &&
            (idxToUse <? Z.of_nat (length (suggestions st))))%Z
        then
          match nth_error (suggestions st) (Z.to_nat idxToUse) with
          | Some s => handleSuggestionClick (Resolver.place_name s) st
          | None => st
          end
        else st
    | OtherKey => st
    end
  else st.

(** What can happen to the component. *)
Inductive Event : Type :=
| Change (value : string)           (* onChange of the text field *)
| TimerFires (k : nat)              (* the 300 ms timer of closure k *)
| Arrives (k : nat) (r : Response)  (* the request of closure k settles *)
| ClickAdd
| ClickSuggestion (idx : nat)
| MouseEnter (idx : nat)
| Press (key : Key).

Definition step (st : State) (e : Event) : State :=
  match e with
  | Change value => setHighlightedIdx (-1) (setInput value st)
  | TimerFires k =>
      match nth_error (queries st) k with
      | Some q =>
          match timer q with
          | Pending =>
              set_queries
                (update_nth k (fun q => mkQuery (q_input q) (ignore q) Fired true)
                            (queries st)) st
          | _ => st
          end
      | None => st
      end
  | Arrives k r =>
      match nth_error (queries st) k with
      | Some q =>
          if inflight q then
            settle r q
              (set_queries
                 (update_nth k
                    (fun q => mkQuery (q_input q) (ignore q) (timer q) false)
                    (queries st)) st)
          else st
      | None => st
      end
  | ClickAdd => handleAddPlace st
  | ClickSuggestion idx =>
      match nth_error (suggestions st) idx with
      | Some s => handleSuggestionClick (Resolver.place_name s) st
      | None => st
      end
  | MouseEnter idx =>
      if (idx <? length (suggestions st))%nat
      then setHighlightedIdx (Z.of_nat idx) st else st
  | Press key => onKeyDown key st
  end.

Definition run (st : State) (es : list Event) : State := fold_left step es st.

(** The states the component can be in. *)
Inductive reachable : State -> Prop :=
| reachable_initial : reachable initial
| reachable_step st e : reachable st -> reachable (step st e).

(** Closure [k] is the query issued last and not superseded: React
    holds its cleanup, no closure was created after it, and it asks for
    the text now in the field. *)
Definition latest_issued (st : State) (k : nat) : Prop :=
  cleanup st = Some k /\
  S k = length (queries st) /\
  exists q, nth_error (queries st) k = Some q /\
            ignore q = false /\ q_input q = input st.

(** The invariant behind the race rule: every closure but the one whose
    cleanup is still held has [ignore] set, and without a token nothing
    is ever asked or suggested. *)
Definition others_ignored (st : State) : Prop :=
  forall j q, nth_error (queries st) j = Some q ->
              cleanup st <> Some j -> ignore q = true.

Definition held_is_latest (st : State) : Prop :=
  forall k, cleanup st = Some k -> latest_issued st k.

Definition tokenless_idle (st : State) : Prop :=
  truthy accessToken = false -> suggestions st = [] /\ queries st = [].

Definition Inv (st : State) : Prop :=
  others_ignored st /\ held_is_latest st /\ tokenless_idle st.

End WithToken.

End Autocomplete.

(** A token and a suggestion used in the examples. *)
Definition demo_token : string := "pk.demo".

Definition paris_suggestion : Autocomplete.Suggestion :=
  Resolver.mkFeature "Paris, France" paris "place.1".

(** ** The animation effect, its frame callback and the controls *)

Module Animation.

(** The tones of [playSound]. *)
Inductive Cue : Type := CueStart | CueSegment | CueComplete.

(** The last command given to the map's camera. *)
Inductive Camera : Type :=
| Still
| FlyTo (center : Coordinate) (zoom : R)
| EaseTo (center : Coordinate) (zoom : R)
| FitBounds (points : list Coordinate).

(** The variables closed over by [frame] in one call of
    [animateSegment]. *)
Record Segment : Type := mkSegment {
  start : Coordinate;
  end_ : Coordinate;
  duration : R;
  startTime : R;
  t : R
}.

Definition set_t (v : R) (g : Segment) : Segment :=
  mkSegment (start g) (end_ g) (duration g) (startTime g) v.

(** The variables of one run of the animation effect that got past its
    guard: one animation session. *)
Record Session : Type := mkSession {
  s_coords : list Coordinate;   (* [coords] as the effect run saw it *)
  s_speed : R;   (* [animationSpeed] as the effect run saw it *)
  s_sound : bool;   (* [soundEnabled] as its [playSound] reads it *)
  animationFrame : option nat;
  marker_at : Coordinate;   (* position of the yellow marker *)
  marker_shown : bool;   (* the yellow marker is on the map *)
  routeLayerAdded : bool;
  routeSourceAdded : bool;
  cleanupDone : bool;
  progressCoords : list Coordinate;
  i : nat;
  segment : option Segment   (* closure of the current animateSegment call *)
}.

Definition set_animationFrame (v : option nat) (s : Session) : Session :=
  mkSession (s_coords s) (s_speed s) (s_sound s) v (marker_at s)
    (marker_shown s) (routeLayerAdded s) (routeSourceAdded s) (cleanupDone s)
    (progressCoords s) (i s) (segment s).
Definition set_marker_at (v : Coordinate) (s : Session) : Session :=
  mkSession (s_coords s) (s_speed s) (s_sound s) (animationFrame s) v
    (marker_shown s) (routeLayerAdded s) (routeSourceAdded s) (cleanupDone s)
    (progressCoords s) (i s) (segment s).
Definition set_marker_shown (v : bool) (s : Session) : Session :=
  mkSession (s_coords s) (s_speed s) (s_sound s) (animationFrame s)
    (marker_at s) v (routeLayerAdded s) (routeSourceAdded s) (cleanupDone s)
    (progressCoords s) (i s) (segment s).
Definition set_routeLayerAdded (v : bool) (s : Session) : Session :=
  mkSession (s_coords s) (s_speed s) (s_sound s) (animationFrame s)
    (marker_at s) (marker_shown s) v (routeSourceAdded s) (cleanupDone s)
    (progressCoords s) (i s) (segment s).
Definition set_routeSourceAdded (v : bool) (s : Session) : Session :=
  mkSession (s_coords s) (s_speed s) (s_sound s) (animationFrame s)
    (marker_at s) (marker_shown s) (routeLayerAdded s) v (cleanupDone s)
    (progressCoords s) (i s) (segment s).
Definition set_cleanupDone (v : bool) (s : Session) : Session :=
  mkSession (s_coords s) (s_speed s) (s_sound s) (animationFrame s)
    (marker_at s) (marker_shown s) (routeLayerAdded s) (routeSourceAdded s) v
    (progressCoords s) (i s) (segment s).
Definition set_progressCoords (v : list Coordinate) (s : Session) : Session :=
  mkSession (s_coords s) (s_speed s) (s_sound s) (animationFrame s)
    (marker_at s) (marker_shown s) (routeLayerAdded s) (routeSourceAdded s)
    (cleanupDone s) v (i s) (segment s).
Definition set_i (v : nat) (s : Session) : Session :=
  mkSession (s_coords s) (s_speed s) (s_sound s) (animationFrame s)
    (marker_at s) (marker_shown s) (routeLayerAdded s) (routeSourceAdded s)
    (cleanupDone s) (progressCoords s) v (segment s).
Definition set_segment (v : option Segment) (s : Session) : Session :=
  mkSession (s_coords s) (s_speed s) (s_sound s) (animationFrame s)
    (marker_at s) (marker_shown s) (routeLayerAdded s) (routeSourceAdded s)
    (cleanupDone s) (progressCoords s) (i s) v.

(** The component's state, the map and the host's frame queue.  A
    pending frame callback is recorded with the session it belongs to;
    it is the [frame] of that session's current segment. *)
Record World : Type := mkWorld {
  coords : list Coordinate;   (* React state *)
  animating : bool;
  markers : list nat;
  animationRequested : bool;
  animationSpeed : R;
  animationPaused : bool;
  soundEnabled : bool;
  currentSegment : nat;
  isPaused : bool;   (* animationStateRef.current *)
  currentFrame : option nat;
  sessions : list Session;   (* closures of the animation effect, oldest first *)
  held : option nat;   (* the session whose cleanup React holds *)
  map_ready : bool;   (* mapRef.current is set *)
  route_layer : option (nat * nat);   (* layer 'route' and its line-dasharray *)
  route_source : option (list Coordinate);   (* source 'route' and its line string *)
  camera : Camera;   (* the last camera command *)
  moveend : list nat;   (* sessions whose onMoveEnd is registered, in order *)
  static_markers : list (nat * Coordinate);   (* blue markers on the map: object, position *)
  next_marker : nat;   (* next marker object *)
  frames : list (nat * nat);   (* pending requestAnimationFrame callbacks: id, session *)
  next_frame : nat;   (* next requestAnimationFrame id *)
  cues : list Cue   (* tones played so far *)
}.

Definition setCoords (v : list Coordinate) (w : World) : World :=
  mkWorld v (animating w) (markers w) (animationRequested w) (animationSpeed
    w) (animationPaused w) (soundEnabled w) (currentSegment w) (isPaused w)
    (currentFrame w) (sessions w) (held w) (map_ready w) (route_layer w)
    (route_source w) (camera w) (moveend w) (static_markers w) (next_marker
    w) (frames w) (next_frame w) (cues w).
Definition setAnimating (v : bool) (w : World) : World :=
  mkWorld (coords w) v (markers w) (animationRequested w) (animationSpeed w)
    (animationPaused w) (soundEnabled w) (currentSegment w) (isPaused w)
    (currentFrame w) (sessions w) (held w) (map_ready w) (route_layer w)
    (route_source w) (camera w) (moveend w) (static_markers w) (next_marker
    w) (frames w) (next_frame w) (cues w).
Definition setMarkers (v : list nat) (w : World) : World :=
  mkWorld (coords w) (animating w) v (animationRequested w) (animationSpeed
    w) (animationPaused w) (soundEnabled w) (currentSegment w) (isPaused w)
    (currentFrame w) (sessions w) (held w) (map_ready w) (route_layer w)
    (route_source w) (camera w) (moveend w) (static_markers w) (next_marker
    w) (frames w) (next_frame w) (cues w).
Definition setAnimationRequested (v : bool) (w : World) : World :=
  mkWorld (coords w) (animating w) (markers w) v (animationSpeed w)
    (animationPaused w) (soundEnabled w) (currentSegment w) (isPaused w)
    (currentFrame w) (sessions w) (held w) (map_ready w) (route_layer w)
    (route_source w) (camera w) (moveend w) (static_markers w) (next_marker
    w) (frames w) (next_frame w) (cues w).
Definition setAnimationSpeed (v : R) (w : World) : World :=
  mkWorld (coords w) (animating w) (markers w) (animationRequested w) v
    (animationPaused w) (soundEnabled w) (currentSegment w) (isPaused w)
    (currentFrame w) (sessions w) (held w) (map_ready w) (route_layer w)
    (route_source w) (camera w) (moveend w) (static_markers w) (next_marker
    w) (frames w) (next_frame w) (cues w).
Definition setAnimationPaused (v : bool) (w : World) : World :=
  mkWorld (coords w) (animating w) (markers w) (animationRequested w)
    (animationSpeed w) v (soundEnabled w) (currentSegment w) (isPaused w)
    (currentFrame w) (sessions w) (held w) (map_ready w) (route_layer w)
    (route_source w) (camera w) (moveend w) (static_markers w) (next_marker
    w) (frames w) (next_frame w) (cues w).
Definition setSoundEnabled (v : bool) (w : World) : World :=
  mkWorld (coords w) (animating w) (markers w) (animationRequested w)
    (animationSpeed w) (animationPaused w) v (currentSegment w) (isPaused w)
    (currentFrame w) (sessions w) (held w) (map_ready w) (route_layer w)
    (route_source w) (camera w) (moveend w) (static_markers w) (next_marker
    w) (frames w) (next_frame w) (cues w).
Definition setCurrentSegment (v : nat) (w : World) : World :=
  mkWorld (coords w) (animating w) (markers w) (animationRequested w)
    (animationSpeed w) (animationPaused w) (soundEnabled w) v (isPaused w)
    (currentFrame w) (sessions w) (held w) (map_ready w) (route_layer w)
    (route_source w) (camera w) (moveend w) (static_markers w) (next_marker
    w) (frames w) (next_frame w) (cues w).
Definition with_isPaused (v : bool) (w : World) : World :=
  mkWorld (coords w) (animating w) (markers w) (animationRequested w)
    (animationSpeed w) (animationPaused w) (soundEnabled w) (currentSegment
    w) v (currentFrame w) (sessions w) (held w) (map_ready w) (route_layer
    w) (route_source w) (camera w) (moveend w) (static_markers w)
    (next_marker w) (frames w) (next_frame w) (cues w).
Definition with_currentFrame (v : option nat) (w : World) : World :=
  mkWorld (coords w) (animating w) (markers w) (animationRequested w)
    (animationSpeed w) (animationPaused w) (soundEnabled w) (currentSegment
    w) (isPaused w) v (sessions w) (held w) (map_ready w) (route_layer w)
    (route_source w) (camera w) (moveend w) (static_markers w) (next_marker
    w) (frames w) (next_frame w) (cues w).
Definition with_sessions (v : list Session) (w : World) : World :=
  mkWorld (coords w) (animating w) (markers w) (animationRequested w)
    (animationSpeed w) (animationPaused w) (soundEnabled w) (currentSegment
    w) (isPaused w) (currentFrame w) v (held w) (map_ready w) (route_layer
    w) (route_source w) (camera w) (moveend w) (static_markers w)
    (next_marker w) (frames w) (next_frame w) (cues w).
Definition with_held (v : option nat) (w : World) : World :=
  mkWorld (coords w) (animating w) (markers w) (animationRequested w)
    (animationSpeed w) (animationPaused w) (soundEnabled w) (currentSegment
    w) (isPaused w) (currentFrame w) (sessions w) v (map_ready w)
    (route_layer w) (route_source w) (camera w) (moveend w) (static_markers
    w) (next_marker w) (frames w) (next_frame w) (cues w).
Definition with_map_ready (v : bool) (w : World) : World :=
  mkWorld (coords w) (animating w) (markers w) (animationRequested w)
    (animationSpeed w) (animationPaused w) (soundEnabled w) (currentSegment
    w) (isPaused w) (currentFrame w) (sessions w) (held w) v (route_layer w)
    (route_source w) (camera w) (moveend w) (static_markers w) (next_marker
    w) (frames w) (next_frame w) (cues w).
Definition with_route_layer (v : option (nat * nat)) (w : World) : World :=
  mkWorld (coords w) (animating w) (markers w) (animationRequested w)
    (animationSpeed w) (animationPaused w) (soundEnabled w) (currentSegment
    w) (isPaused w) (currentFrame w) (sessions w) (held w) (map_ready w) v
    (route_source w) (camera w) (moveend w) (static_markers w) (next_marker
    w) (frames w) (next_frame w) (cues w).
Definition with_route_source (v : option (list Coordinate)) (w : World) : World :=
  mkWorld (coords w) (animating w) (markers w) (animationRequested w)
    (animationSpeed w) (animationPaused w) (soundEnabled w) (currentSegment
    w) (isPaused w) (currentFrame w) (sessions w) (held w) (map_ready w)
    (route_layer w) v (camera w) (moveend w) (static_markers w) (next_marker
    w) (frames w) (next_frame w) (cues w).
Definition with_camera (v : Camera) (w : World) : World :=
  mkWorld (coords w) (animating w) (markers w) (animationRequested w)
    (animationSpeed w) (animationPaused w) (soundEnabled w) (currentSegment
    w) (isPaused w) (currentFrame w) (sessions w) (held w) (map_ready w)
    (route_layer w) (route_source w) v (moveend w) (static_markers w)
    (next_marker w) (frames w) (next_frame w) (cues w).
Definition with_moveend (v : list nat) (w : World) : World :=
  mkWorld (coords w) (animating w) (markers w) (animationRequested w)
    (animationSpeed w) (animationPaused w) (soundEnabled w) (currentSegment
    w) (isPaused w) (currentFrame w) (sessions w) (held w) (map_ready w)
    (route_layer w) (route_source w) (camera w) v (static_markers w)
    (next_marker w) (frames w) (next_frame w) (cues w).
Definition with_static_markers (v : list (nat * Coordinate)) (w : World) : World :=
  mkWorld (coords w) (animating w) (markers w) (animationRequested w)
    (animationSpeed w) (animationPaused w) (soundEnabled w) (currentSegment
    w) (isPaused w) (currentFrame w) (sessions w) (held w) (map_ready w)
    (route_layer w) (route_source w) (camera w) (moveend w) v (next_marker
    w) (frames w) (next_frame w) (cues w).
Definition with_next_marker (v : nat) (w : World) : World :=
  mkWorld (coords w) (animating w) (markers w) (animationRequested w)
    (animationSpeed w) (animationPaused w) (soundEnabled w) (currentSegment
    w) (isPaused w) (currentFrame w) (sessions w) (held w) (map_ready w)
    (route_layer w) (route_source w) (camera w) (moveend w) (static_markers
    w) v (frames w) (next_frame w) (cues w).
Definition with_frames (v : list (nat * nat)) (w : World) : World :=
  mkWorld (coords w) (animating w) (markers w) (animationRequested w)
    (animationSpeed w) (animationPaused w) (soundEnabled w) (currentSegment
    w) (isPaused w) (currentFrame w) (sessions w) (held w) (map_ready w)
    (route_layer w) (route_source w) (camera w) (moveend w) (static_markers
    w) (next_marker w) v (next_frame w) (cues w).
Definition with_next_frame (v : nat) (w : World) : World :=
  mkWorld (coords w) (animating w) (markers w) (animationRequested w)
    (animationSpeed w) (animationPaused w) (soundEnabled w) (currentSegment
    w) (isPaused w) (currentFrame w) (sessions w) (held w) (map_ready w)
    (route_layer w) (route_source w) (camera w) (moveend w) (static_markers
    w) (next_marker w) (frames w) v (cues w).
Definition with_cues (v : list Cue) (w : World) : World :=
  mkWorld (coords w) (animating w) (markers w) (animationRequested w)
    (animationSpeed w) (animationPaused w) (soundEnabled w) (currentSegment
    w) (isPaused w) (currentFrame w) (sessions w) (held w) (map_ready w)
    (route_layer w) (route_source w) (camera w) (moveend w) (static_markers
    w) (next_marker w) (frames w) (next_frame w) v.

(** The component as mounted: no place, speed 1, no map yet. *)
Definition initial : World :=
  mkWorld [] false [] false 1 false false 0 false None [] None false
          None None Still [] [] 0 [] 1 [].

Definition is_some {A : Type} (o : option A) : bool :=
  match o with Some _ => true | None => false end.

(** [sessions[sid] = f(sessions[sid])] *)
Definition modify (sid : nat) (f : Session -> Session) (w : World) : World :=
  with_sessions (update_nth sid f (sessions w)) w.

(** [playSound(type)] as a render defines it: the function closes over
    the [soundEnabled] of that render, here [enabled]. *)
Definition playSound (enabled : bool) (type : Cue) (w : World) : World :=
  if enabled then with_cues (cues w ++ [type]) w else w.

Definition requestAnimationFrame (sid : nat) (w : World) : nat * World :=
  (next_frame w,
   with_next_frame (S (next_frame w))
     (with_frames (frames w ++ [(next_frame w, sid)]) w)).

Definition cancelAnimationFrame (id : nat) (w : World) : World :=
  with_frames (filter (fun p => negb (fst p =? id)%nat) (frames w)) w.

(** [marker.remove()] for a blue marker object. *)
Definition remove_static (ids : list nat) (w : World) : World :=
  with_static_markers
    (filter (fun p => negb (existsb (Nat.eqb (fst p)) ids)) (static_markers w))
    w.

(** [coords.map(c => new mapboxgl.Marker(...).setLngLat(c).addTo(map))],
    followed by [setMarkers]. *)
Definition add_static (cs : list Coordinate) (w : World) : World :=
  let ids := seq (next_marker w) (length cs) in
  setMarkers ids
    (with_next_marker (next_marker w + length cs)
       (with_static_markers (static_markers w ++ combine ids cs) w)).

(** [(map.getSource('route') as GeoJSONSource)?.setData(...)] *)
Definition setData (line : list Coordinate) (w : World) : World :=
  match route_source w with
  | Some _ => with_route_source (Some line) w
  | None => w
  end.

(** [if (map.getLayer('route')) map.removeLayer('route');
     if (map.getSource('route')) map.removeSource('route');] *)
Definition remove_route (w : World) : World :=
  with_route_source None (with_route_layer None w).

(** The second effect on [[coords]]: blue markers on every coordinate,
    camera to the last one. *)
Definition place_markers_effect (w : World) : World :=
  if negb (map_ready w) || (length (coords w) =? 0)%nat then w
  else
    with_camera (FlyTo (last (coords w) origin) 10)
      (add_static (coords w) (remove_static (markers w) w)).

(** [cleanup] of session [sid]. *)
Definition cleanup (sid : nat) (w : World) : World :=
  match nth_error (sessions w) sid with
  | None => w
  | Some s =>
      if cleanupDone s then w
      else
        let w := modify sid (set_cleanupDone true) w in
        let w := match animationFrame s with
                 | Some id =>
                     if (id =? 0)%nat then w else cancelAnimationFrame id w
                 | None => w
                 end in
        let w := modify sid (set_marker_shown false) w in
        let w := if routeLayerAdded s && is_some (route_layer w)
                 then with_route_layer None w else w in
        if routeSourceAdded s && is_some (route_source w)
        then with_route_source None w else w
  end.

(** [animateSegment(start, end, onDone)] called in session [sid] when
    [performance.now()] reads [clock]. *)
Definition animateSegment (sid : nat) (start end_ : Coordinate) (clock : R)
    (w : World) : World :=
  match nth_error (sessions w) sid with
  | None => w
  | Some s =>
      let baseDuration := 3500 in
      let duration := baseDuration / s_speed s in
      let g := mkSegment start end_ duration clock 0 in
      let (id, w) := requestAnimationFrame sid w in
      modify sid (fun s => set_animationFrame (Some id)
                             (set_segment (Some g) s)) w
  end.

Definition animateRoute (sid : nat) (clock : R) (w : World) : World :=
  match nth_error (sessions w) sid with
  | None => w
  | Some s =>
      if (i s <? length (s_coords s) - 1)%nat then
        animateSegment sid (nth (i s) (s_coords s) origin)
          (nth (i s + 1) (s_coords s) origin) clock
          (setCurrentSegment (i s + 1) w)
      else w
  end.

Definition showAllMarkersAndRoute (sid : nat) (w : World) : World :=
  match nth_error (sessions w) sid with
  | None => w
  | Some s =>
      let w := modify sid (set_marker_shown false) w in
      let w := if routeLayerAdded s && is_some (route_layer w)
               then with_route_layer None w else w in
      let w := if routeSourceAdded s && is_some (route_source w)
               then with_route_source None w else w in
      let w := with_route_source (Some (s_coords s)) w in
      let w := with_route_layer (Some (2, 4)%nat) w in
      let w := add_static (s_coords s) w in
      with_camera (FitBounds (s_coords s)) w
  end.

(** The callback handed to [animateSegment] by [animateRoute]. *)
Definition onDone (sid : nat) (clock : R) (w : World) : World :=
  let w := modify sid (fun s => set_i (i s + 1) s) w in
  match nth_error (sessions w) sid with
  | None => w
  | Some s =>
      if (i s <? length (s_coords s) - 1)%nat then animateRoute sid clock w
      else
        showAllMarkersAndRoute sid
          (playSound (s_sound s) CueComplete
             (setAnimationRequested false (setAnimating false w)))
  end.

(** The zoom of a frame, from the raw [t]. *)
Definition zoom_at (t : R) : R :=
  if JsMath.ltb t (18 / 100) then 8 + 2 * (t / (18 / 100))
  else if JsMath.ltb (82 / 100) t then 10 - 2 * ((t - 82 / 100) / (18 / 100))
  else 10.

(** The parts of [frame], in the order of its text.

    While paused: ask for the next frame and return. *)
Definition frame_poll (sid : nat) (w : World) : World :=
  let (id, w) := requestAnimationFrame sid w in
  with_currentFrame (Some id) w.

(** Not paused: move the marker, extend the line, move the camera. *)
Definition frame_draw (sid : nat) (s : Session) (g : Segment) (t : R)
    (w : World) : World :=
  let smoothT := Easing.easeInOutCubic t in
  let lng := fst (start g) + (fst (end_ g) - fst (start g)) * smoothT in
  let lat := snd (start g) + (snd (end_ g) - snd (start g)) * smoothT in
  let w := modify sid (fun s => set_marker_at (lng, lat)
                         (set_segment (Some (set_t t g)) s)) w in
  let w := setData (progressCoords s ++ [(lng, lat)]) w in
  with_camera (EaseTo (lng, lat) (zoom_at t)) w.

(** [t < 1]: ask for the next frame. *)
Definition frame_again (sid : nat) (w : World) : World :=
  let (id, w) := requestAnimationFrame sid w in
  modify sid (set_animationFrame (Some id)) w.

(** [t] has reached 1: the segment's end joins [progressCoords]. *)
Definition frame_arrive (sid : nat) (s : Session) (g : Segment) (clock : R)
    (w : World) : World :=
  let w := modify sid
             (fun s => set_marker_at (end_ g)
                (set_progressCoords (progressCoords s ++ [end_ g]) s)) w in
  let w := setData (progressCoords s ++ [end_ g]) w in
  let w := playSound (s_sound s) CueSegment w in
  onDone sid clock w.

(** [frame(now)] of the current segment of session [sid]; [clock] is
    what [performance.now()] reads while the callback runs. *)
Definition frame (sid : nat) (now clock : R) (w : World) : World :=
  match nth_error (sessions w) sid with
  | None => w
  | Some s =>
      match segment s with
      | None => w
      | Some g =>
          if isPaused w then frame_poll sid w
          else
            let t := JsMath.min ((now - startTime g) / duration g) 1 in
            let w := frame_draw sid s g t w in
            if JsMath.ltb t 1 then frame_again sid w
            else frame_arrive sid s g clock w
      end
  end.

(** [onMoveEnd] of session [sid]. *)
Definition onMoveEnd (sid : nat) (clock : R) (w : World) : World :=
  match nth_error (sessions w) sid with
  | None => w
  | Some s =>
      let w := remove_route w in
      let w := with_route_source (Some (progressCoords s)) w in
      let w := modify sid (set_routeSourceAdded true) w in
      let w := with_route_layer (Some (2, 3)%nat) w in
      let w := modify sid (set_routeLayerAdded true) w in
      let w := animateRoute sid clock w in
      with_moveend (filter (fun l => negb (l =? sid)%nat) (moveend w)) w
  end.

(** The body of the animation effect; [seen] is the [markers] of the
    render that created it. *)
Definition animation_effect (seen : list nat) (w : World) : World :=
  if negb (animationRequested w) || negb (map_ready w) ||
     (length (coords w) <? 2)%nat
  then w
  else
    let sid := length (sessions w) in
    let w := setAnimationPaused false w in
    let w := setCurrentSegment 0 w in
    let w := with_currentFrame None (with_isPaused false w) in
    let w := remove_route w in
    let w := remove_static seen w in
    let first := nth 0 (coords w) origin in
    let w := with_sessions
               (sessions w ++
                [mkSession (coords w) (animationSpeed w) (soundEnabled w)
                           None first true false false false [first] 0
                           None]) w in
    let w := playSound (soundEnabled w) CueStart w in
    let w := setAnimating true w in
    let w := with_camera (FlyTo first 10) w in
    let w := with_moveend (moveend w ++ [sid]) w in
    with_held (Some sid) w.

(** A commit in which a dependency of the animation effect changed:
    the cleanup React holds, then the effect. *)
Definition rerun_animation_effect (seen : list nat) (w : World) : World :=
  let w := match held w with
           | Some sid => cleanup sid w
           | None => w
           end in
  animation_effect seen (with_held None w).

(** What React does after a frame callback: when the callback cleared
    [animationRequested], the animation effect is run again. *)
Definition commit_after_frame (before after : World) : World :=
  if animationRequested before && negb (animationRequested after)
  then rerun_animation_effect (markers after) after
  else after.

(** The speed slider: [min="0.5" max="3" step="0.5"].  Its [k]-th stop
    is [min + k * step]; it has a stop wherever that is not above [max]. *)
Definition speed_min : R := 1 / 2.
Definition speed_max : R := 3.
Definition speed_step : R := 1 / 2.
Definition speed_stop (k : nat) : R := speed_min + INR k * speed_step.
Definition has_stop (k : nat) : bool :=
  if Rle_dec (speed_stop k) speed_max then true else false.

(** The control panel is rendered when [coords.length > 1]. *)
Definition panel (w : World) : bool := (1 <? length (coords w))%nat.

(** The first pending callback with the given id, and the queue
    without it. *)
Fixpoint take_frame (id : nat) (q : list (nat * nat))
    : option (nat * list (nat * nat)) :=
  match q with
  | [] => None
  | (id', sid) :: q' =>
      if (id' =? id)%nat then Some (sid, q')
      else match take_frame id q' with
           | Some (sid', rest) => Some (sid', (id', sid) :: rest)
           | None => None
           end
  end.

(** What can happen to the component.  The handler that the older
    effect on [[coords]] registers for the map's ['load'] event is not
    among the events: its animation is modelled apart, in
    [LoadAnimation]. *)
Inductive Event : Type :=
| MapCreated                          (* the geolocation callback *)
| CoordsArrive (cs : list Coordinate) (* setCoords(results) in fetchCoords *)
| ClickStart
| ClickPause
| SlideSpeed (k : nat)                (* the slider is moved to stop k *)
| ToggleSound
| MoveEnd (clock : R)                 (* the map fires 'moveend' *)
| Frame (id : nat) (now clock : R).   (* the host runs a frame callback *)

Definition step (w : World) (e : Event) : World :=
  match e with
  | MapCreated => with_map_ready true w
  | CoordsArrive cs =>
      let seen := markers w in
      let w := setCoords cs w in
      let w := match held w with
               | Some sid => cleanup sid w
               | None => w
               end in
      let w := place_markers_effect w in
      animation_effect seen (with_held None w)
  | ClickStart =>
      if negb (panel w) || animating w || (length (coords w) <? 2)%nat then w
      else if animationRequested w then w
      else rerun_animation_effect (markers w) (setAnimationRequested true w)
  | ClickPause =>
      if panel w && animating w then
        with_isPaused (negb (animationPaused w))
          (setAnimationPaused (negb (animationPaused w)) w)
      else w
  | SlideSpeed k =>
      if panel w && negb (animating w) && has_stop k then
        if Req_dec_T (speed_stop k) (animationSpeed w) then w
        else rerun_animation_effect (markers w)
               (setAnimationSpeed (speed_stop k) w)
      else w
  | ToggleSound =>
      if panel w then setSoundEnabled (negb (soundEnabled w)) w else w
  | MoveEnd clock =>
      fold_left (fun w sid => onMoveEnd sid clock w) (moveend w) w
  | Frame id now clock =>
      match take_frame id (frames w) with
      | None => w
      | Some (sid, rest) =>
          commit_after_frame w (frame sid now clock (with_frames rest w))
      end
  end.

Definition run (w : World) (es : list Event) : World := fold_left step es w.

(** The raw progress [t] last computed in the current segment of
    session [sid]. *)
Definition raw_t (w : World) (sid : nat) : option R :=
  match nth_error (sessions w) sid with
  | Some s => option_map t (segment s)
  | None => None
  end.

(** The run of the examples: a map, Paris and Tokyo resolved, Start
    clicked, the camera settled when the clock read 0. *)
Definition started : World :=
  run initial [MapCreated; CoordsArrive [paris; tokyo]; ClickStart; MoveEnd 0].

(** ... its first frame at 1400 ms, *)
Definition at_1400 : World := step started (Frame 1 1400 1400).

(** ... Pause clicked, and two frames while paused, *)
Definition paused : World :=
  run at_1400 [ClickPause; Frame 2 1416 1416; Frame 3 2784 2784].

(** ... Pause clicked again, and the next frame 16 ms later. *)
Definition resumed : World := run paused [ClickPause; Frame 4 2816 2816].

(** The same run, with the single segment's last frame at 3500 ms. *)
Definition finished : World := step started (Frame 1 3500 3500).

(** Start clicked, the camera still flying to the first coordinate. *)
Definition requested : World :=
  run initial [MapCreated; CoordsArrive [paris; tokyo]; ClickStart].

(** The paused run, when the coordinate list changes under it (the
    answer of a geocoding call that was under way) and the frame
    callback that was left pending runs at 5000 ms. *)
Definition overtaken : World :=
  run paused [CoordsArrive [tokyo; paris]; Frame 4 5000 5000].

(** The shortest run that plays a coordinate list to its end, at speed
    1, every segment lasting 3500 ms: the start, with the camera settled
    at clock 0, and then one frame each 3500 ms, each of which ends a
    segment (a browser runs many more frames in between). *)
Definition start_events (cs : list Coordinate) : list Event :=
  [MapCreated; CoordsArrive cs; ClickStart; MoveEnd 0].

Definition arrival (k : nat) : Event :=
  Frame (S k) (3500 * INR (S k)) (3500 * INR (S k)).

Definition arrivals (from count : nat) : list Event :=
  map arrival (seq from count).

(** Session 0 plays [cs] and is in segment [k], which started at
    3500 k ms; its frame callback is the only one pending. *)
Record running_at (w : World) (cs : list Coordinate) (k : nat) : Prop :=
  mk_running_at {
  ra_frames : frames w = [(S k, O)];
  ra_next : next_frame w = S (S k);
  ra_paused : isPaused w = false;
  ra_requested : animationRequested w = true;
  ra_session :
    exists s g,
      nth_error (sessions w) 0 = Some s /\ s_coords s = cs /\
      s_speed s = 1 /\ i s = k /\
      progressCoords s = firstn (S k) cs /\
      segment s = Some g /\ startTime g = 3500 * INR k /\
      duration g = 3500 / 1 /\ end_ g = nth (k + 1) cs origin
}.

Inductive reachable : World -> Prop :=
| reachable_initial : reachable initial
| reachable_step w e : reachable w -> reachable (step w e).

(** *** The invariant of the sessions

    What a session's bookkeeping means, in terms of what is still
    pending for it: [mv] lists the sessions with a registered
    [onMoveEnd], [fr] the sessions of the pending frame callbacks. *)

Definition is_stop (v : R) : Prop :=
  exists k, has_stop k = true /\ v = speed_stop k.

(** How often session [sid] is still to be called back. *)
Definition pending (mv fr : list nat) (sid : nat) : nat :=
  count_occ Nat.eq_dec (mv ++ fr) sid.

Record session_ok (mv fr : list nat) (sid : nat) (s : Session) : Prop :=
  mk_session_ok {
  ok_coords : (2 <= length (s_coords s))%nat;
  ok_prefix : progressCoords s = firstn (S (i s)) (s_coords s);
  ok_index : (i s < length (s_coords s))%nat;
  ok_pending : (pending mv fr sid <= 1)%nat;
  ok_waiting : In sid mv -> i s = O;
  ok_running :
    In sid fr ->
    exists g, segment s = Some g /\
              (i s < length (s_coords s) - 1)%nat /\
              start g = nth (i s) (s_coords s) origin /\
              end_ g = nth (i s + 1) (s_coords s) origin /\
              duration g = 3500 / s_speed s;
  ok_speed : is_stop (s_speed s)
}.

Definition sessions_ok (ss : list Session) (mv fr : list nat) : Prop :=
  (forall sid s, nth_error ss sid = Some s -> session_ok mv fr sid s) /\
  (forall sid, In sid (mv ++ fr) -> (sid < length ss)%nat).

Definition Inv (w : World) : Prop :=
  sessions_ok (sessions w) (moveend w) (map snd (frames w)) /\
  is_stop (animationSpeed w) /\
  (forall sid, held w = Some sid ->
     exists s, nth_error (sessions w) sid = Some s /\
               s_coords s = coords w /\ s_speed s = animationSpeed w).

(** While React holds a session's cleanup, both flags are up. *)
Definition held_flags (w : World) : Prop :=
  held w <> None -> animating w = true /\ animationRequested w = true.

(** The invariant without its part on the held cleanup. *)
Definition Inv0 (w : World) : Prop :=
  sessions_ok (sessions w) (moveend w) (map snd (frames w)) /\
  is_stop (animationSpeed w).

(** The part of a session the invariant reads. *)
Definition core (s : Session)
    : list Coordinate * R * list Coordinate * nat *
      option (Coordinate * Coordinate * R) :=
  (s_coords s, s_speed s, progressCoords s, i s,
   option_map (fun g => (start g, end_ g, duration g)) (segment s)).

(** [w'] has the sessions of [w] with the same cores, and nothing more
    pending than [w]. *)
Record quieter (w w' : World) : Prop := mk_quieter {
  q_len : length (sessions w') = length (sessions w);
  q_core : forall j s', nth_error (sessions w') j = Some s' ->
             exists s, nth_error (sessions w) j = Some s /\ core s' = core s;
  q_mv : forall j, (count_occ Nat.eq_dec (moveend w') j <=
                    count_occ Nat.eq_dec (moveend w) j)%nat;
  q_fr : forall j, (count_occ Nat.eq_dec (map snd (frames w')) j <=
                    count_occ Nat.eq_dec (map snd (frames w)) j)%nat;
  q_speed : animationSpeed w' = animationSpeed w
}.

(** [w'] has the sessions of [w], each on the coordinates and at the
    speed it was created with, and the same held cleanup. *)
Record same_closures (w w' : World) : Prop := mk_same_closures {
  c_sessions : forall j s, nth_error (sessions w) j = Some s ->
                 exists s', nth_error (sessions w') j = Some s' /\
                            s_coords s' = s_coords s /\
                            s_speed s' = s_speed s;
  c_held : held w' = held w;
  c_coords : coords w' = coords w;
  c_speed : animationSpeed w' = animationSpeed w;
  c_map_ready : map_ready w' = map_ready w
}.

(** A session that is in a segment has added its route source and
    layer. *)
Definition routed (s : Session) : Prop :=
  segment s <> None -> routeLayerAdded s = true /\ routeSourceAdded s = true.

(** Every session in a segment has added its route, and the session
    whose cleanup React holds has not run it. *)
Definition Kept (w : World) : Prop :=
  (forall sid s, nth_error (sessions w) sid = Some s -> routed s) /\
  (forall sid s, held w = Some sid -> nth_error (sessions w) sid = Some s ->
     cleanupDone s = false).

(** The blue markers on the map were all created before the next
    marker object. *)
Definition static_fresh (w : World) : Prop :=
  Forall (fun p : nat * Coordinate => (fst p < next_marker w)%nat)
         (static_markers w).

End Animation.

(** ** The length of a route, leg by leg *)

Module Trip.

Fixpoint path_length (cs : list Coordinate) : R :=
  match cs with
  | a :: (b :: _) as rest => Estimator.calculateDistance a b + path_length rest
  | _ => 0
  end.

End Trip.

(** ** The themes and [getDefaultThemeIdx] *)

Module Theme.

#[local] Open Scope string_scope.
#[local] Open Scope Z_scope.

(** One entry of [themes]: its name and its [colors] object, as the
    list of its properties. *)
Record Theme : Type := mkTheme {
  name : string;
  colors : list (string * string)
}.

Definition themes : list Theme :=
  [ mkTheme "Sunset Coast"
      [ ("--color-bg", "#F79B72"); ("--color-surface", "#2A4759");
        ("--color-primary", "#2A4759"); ("--color-accent", "#F3C623");
        ("--color-on-surface", "#F3F3F3"); ("--color-on-bg", "#2A4759") ];
    mkTheme "Citrus Sky"
      [ ("--color-bg", "#F4F6FF"); ("--color-surface", "#F3C623");
        ("--color-primary", "#10375C"); ("--color-accent", "#EB8317");
        ("--color-on-surface", "#10375C"); ("--color-on-bg", "#10375C") ];
    mkTheme "Vivid Night"
      [ ("--color-bg", "#2A004E"); ("--color-surface", "#500073");
        ("--color-primary", "#C62300"); ("--color-accent", "#F14A00");
        ("--color-on-surface", "#FFF"); ("--color-on-bg", "#FFF") ];
    mkTheme "Golden Sunrise"
      [ ("--color-bg", "#FFF085"); ("--color-surface", "#FCB454");
        ("--color-primary", "#FF9B17"); ("--color-accent", "#F16767");
        ("--color-on-surface", "#10375C"); ("--color-on-bg", "#10375C") ];
    mkTheme "Fresh Grove"
      [ ("--color-bg", "#DDEB9D"); ("--color-surface", "#A0C878");
        ("--color-primary", "#143D60"); ("--color-accent", "#EB5B00");
        ("--color-on-surface", "#143D60"); ("--color-on-bg", "#143D60") ];
    mkTheme "Spring Picnic"
      [ ("--color-bg", "#C7DB9C"); ("--color-surface", "#FFF0BD");
        ("--color-primary", "#E50046"); ("--color-accent", "#FDAB9E");
        ("--color-on-surface", "#E50046"); ("--color-on-bg", "#143D60") ] ].

(** [Array.prototype.findIndex]: the first index at which the test
    holds, -1 when there is none. *)
Fixpoint findIndex_from {A : Type} (test : A -> bool) (l : list A) (i : Z)
    : Z :=
  match l with
  | [] => -1
  | x :: l' => if test x then i else findIndex_from test l' (i + 1)
  end.

Definition findIndex {A : Type} (test : A -> bool) (l : list A) : Z :=
  findIndex_from test l 0.

(** [getDefaultThemeIdx], with [h = now.getHours()] and
    [m = now.getMinutes()]. *)
Definition getDefaultThemeIdx (h m : Z) : Z :=
  let mins := h * 60 + m in
  if (301 <=? mins) && (mins <=? 540)
  then findIndex (fun t => String.eqb (name t) "Golden Sunrise") themes
  else if (541 <=? mins) && (mins <=? 1020)
  then findIndex (fun t => String.eqb (name t) "Citrus Sky") themes
  else if (1021 <=? mins) && (mins <=? 1140)
  then findIndex (fun t => String.eqb (name t) "Sunset Coast") themes
  else findIndex (fun t => String.eqb (name t) "Vivid Night") themes.

(** [themes[idx]]: [undefined] outside the array. *)
Definition theme_at (idx : Z) : option Theme :=
  if idx <? 0 then None else nth_error themes (Z.to_nat idx).

(** [theme.colors[key]] *)
Fixpoint color (key : string) (cs : list (string * string)) : option string :=
  match cs with
  | [] => None
  | (k, v) :: cs' => if String.eqb k key then Some v else color key cs'
  end.

(** What the theme effect reads for [themeIdx]: the properties it copies
    to the root element, and the two colours of the background texture.
    [None] stands for the [TypeError] of reading [colors] of
    [undefined]. *)
Definition theme_effect (themeIdx : Z)
    : option (list (string * string) * option string * option string) :=
  match theme_at themeIdx with
  | None => None
  | Some theme =>
      Some (colors theme,
            color "--color-bg" (colors theme),
            color "--color-accent" (colors theme))
  end.

(** The values of the [<option>]s of the theme selector:
    [themes.map((t, i) => <option value={i} ...>)]. *)
Definition theme_options : list Z :=
  map Z.of_nat (seq 0 (length themes)).

End Theme.

(** ** The remove button of a place *)

Module Places.

(** [l.filter((x, i) => keep(x, i))], from index [i] on. *)
Fixpoint filter_index {A : Type} (keep : A -> nat -> bool) (l : list A)
    (i : nat) : list A :=
  match l with
  | [] => []
  | x :: l' =>
      if keep x i then x :: filter_index keep l' (S i)
      else filter_index keep l' (S i)
  end.

(** [setPlaces(places.filter((_, i) => i !== idx))] *)
Definition removePlace (idx : nat) (places : list string) : list string :=
  filter_index (fun _ i => negb (i =? idx)%nat) places 0.

End Places.

(** ** Kinds of geocoding service *)

Module Services.
Import Resolver.

(** A service whose answer for a place does not depend on what was
    asked before. *)
Definition stateless (svc : Service) : Prop :=
  forall log place, svc log place = svc [] place.

(** A service that answers every request. *)
Definition answers (svc : Service) : Prop :=
  forall log place, svc log place <> Rejected.

(** [atlas], with the request for one place failing. *)
Definition failing_on (bad : string) : Service := fun log place =>
  if String.eqb place bad then Rejected else atlas log place.

End Services.

(** ** Calls of [fetchCoords] that overlap *)

Module Geocoding.

(** One call of [fetchCoords] that is suspended at an [await]: the
    places from the one being asked on, and [results] so far. *)
Record Call : Type := mkCall {
  todo : list string;
  results : list Coordinate
}.

(** The state the geocoding effect reads and writes, and its calls,
    oldest first ([None]: the call has ended). *)
Record State : Type := mkState {
  places : list string;
  coords : list Coordinate;
  totalDistance : R;
  estimatedTime : R;
  calls : list (option Call)
}.

(** The component as mounted, after the effect's first run on the empty
    place list. *)
Definition initial : State := mkState [] [] 0 0 [None].

(** The end of [fetchCoords]: [setCoords(results)] and the two
    figures. *)
Definition finish (results : list Coordinate) (st : State) : State :=
  mkState (places st) results
          (fst (Estimator.estimate results)) (snd (Estimator.estimate results))
          (calls st).

Definition set_calls (v : list (option Call)) (st : State) : State :=
  mkState (places st) (coords st) (totalDistance st) (estimatedTime st) v.

(** [setPlaces(v)] and the effect on [[places]]: a new call of
    [fetchCoords], which runs to its first [await] (or to its end, on
    an empty list). *)
Definition setPlaces (v : list string) (st : State) : State :=
  let st := mkState v (coords st) (totalDistance st) (estimatedTime st)
                    (calls st) in
  match v with
  | [] => finish [] (set_calls (calls st ++ [None]) st)
  | _ :: _ => set_calls (calls st ++ [Some (mkCall v [])]) st
  end.

(** The request of call [k] is answered with a body: the loop goes on
    to the next place, or the call ends. *)
Definition answered (k : nat) (features : option (list Resolver.Feature))
    (st : State) : State :=
  match nth_error (calls st) k with
  | Some (Some c) =>
      let results := Resolver.push_center features (results c) in
      match tl (todo c) with
      | [] =>
          finish results
            (set_calls (update_nth k (fun _ => None) (calls st)) st)
      | rest =>
          set_calls (update_nth k (fun _ => Some (mkCall rest results))
                                (calls st)) st
      end
  | _ => st
  end.

(** The request of call [k] is rejected: the call ends there. *)
Definition refused (k : nat) (st : State) : State :=
  match nth_error (calls st) k with
  | Some (Some c) => set_calls (update_nth k (fun _ => None) (calls st)) st
  | _ => st
  end.

Inductive Event : Type :=
| SetPlaces (v : list string)
| Answered (k : nat) (features : option (list Resolver.Feature))
| Refused (k : nat).

Definition step (st : State) (e : Event) : State :=
  match e with
  | SetPlaces v => setPlaces v st
  | Answered k features => answered k features st
  | Refused k => refused k st
  end.

Definition run (st : State) (es : list Event) : State := fold_left step es st.

Inductive reachable : State -> Prop :=
| reachable_initial : reachable initial
| reachable_step st e : reachable st -> reachable (step st e).

End Geocoding.

(** ** Timers and requests of the suggestions effect *)

Module Debounce.
Import Autocomplete.

Definition is_pending (q : Query) : bool :=
  match timer q with Pending => true | _ => false end.

(** The closures whose 300 ms timer is still to fire, and the requests
    that are under way. *)
Definition waiting (st : State) : nat :=
  length (filter is_pending (queries st)).

Definition under_way (st : State) : nat :=
  length (filter inflight (queries st)).

(** What the closures and the cursor keep to, besides [Inv]. *)
Record Tidy (st : State) : Prop := mk_Tidy {
  tidy_pending :
    forall j q, nth_error (queries st) j = Some q -> timer q = Pending ->
                ignore q = false /\ inflight q = false;
  tidy_asked :
    forall j q, nth_error (queries st) j = Some q ->
                truthy (trim (q_input q)) = true;
  tidy_cursor : (-1 <= highlightedIdx st)%Z;
  tidy_blank : truthy (trim (input st)) = false -> suggestions st = []
}.

End Debounce.

(** "Par" typed, its request sent and answered with one suggestion. *)
Definition par_answered : Autocomplete.State :=
  Autocomplete.run demo_token Autocomplete.initial
    [Autocomplete.Change "Par"; Autocomplete.TimerFires 0;
     Autocomplete.Arrives 0 (Autocomplete.Ok (Some [paris_suggestion]))].

(** ** The animation of the ['load'] handler

    The effect on [[coords]] that registers a ['load'] listener runs
    its own animation, with a counter [t] that grows by 0.02 a frame.
    How many frames a segment takes depends on how the sums of 0.02
    round, so here [t] and the coordinates are the doubles they are in
    the source. *)

Module LoadAnimation.

Import Floats.
#[local] Set Warnings "-inexact-float".
#[local] Open Scope float_scope.

(** A coordinate as the array of two doubles. *)
Definition Point : Type := (float * float)%type.

Definition nowhere : Point := (0, 0).

(** The variables of the handler's animation: [i]; the [start], [end]
    and [t] of the call of [animate]; the position of the marker; the
    [animating] state; and whether a [requestAnimationFrame(step)] is
    pending. *)
Record Loop : Type := mkLoop {
  i : nat;
  start : Point;
  end_ : Point;
  t : float;
  marker : Point;
  animating : bool;
  scheduled : bool
}.

(** [step()] *)
Definition step (coords : list Point) (s : Loop) : Loop :=
  let t := t s + 0.02 in
  if 1 <? t then
    let i := S (i s) in
    if (i <? length coords - 1)%nat
    then mkLoop i (start s) (end_ s) 0 (end_ s) (animating s) true
    else mkLoop i (start s) (end_ s) t (end_ s) false false
  else
    let lng := fst (start s) + (fst (end_ s) - fst (start s)) * t in
    let lat := snd (start s) + (snd (end_ s) - snd (start s)) * t in
    mkLoop (i s) (start s) (end_ s) t (lng, lat) (animating s) true.

(** [animate()] *)
Definition animate (coords : list Point) (s : Loop) : Loop :=
  if (i s <? length coords - 1)%nat then
    step coords
      (mkLoop (i s) (nth (i s) coords nowhere) (nth (i s + 1) coords nowhere)
              0 (marker s) (animating s) (scheduled s))
  else s.

(** The tail of the handler: the marker is put on the first coordinate,
    [animating] is set, [animate] is called. *)
Definition on_load (coords : list Point) : Loop :=
  animate coords
    (mkLoop 0 nowhere nowhere 0 (nth 0 coords nowhere) true false).

(** The host runs the pending frame callback, which is [step]. *)
Definition frame (coords : list Point) (s : Loop) : Loop :=
  if scheduled s
  then step coords
         (mkLoop (i s) (start s) (end_ s) (t s) (marker s) (animating s) false)
  else s.

Fixpoint frames (k : nat) (coords : list Point) (s : Loop) : Loop :=
  match k with
  | O => s
  | S k' => frames k' coords (frame coords s)
  end.

(** The point that [step] computes from [start], [end] and [t]. *)
Definition along (a b : Point) (t : float) : Point :=
  (fst a + (fst b - fst a) * t, snd a + (snd b - snd a) * t).

(** The value of [t] after [r] additions of 0.02 to 0. *)
Fixpoint ticks (r : nat) : float :=
  match r with
  | O => 0
  | S r' => ticks r' + 0.02
  end.

(** Three coordinates used in the examples. *)
Definition three_stops : list Point :=
  [(2.35, 48.85); (13.4, 52.52); (21, 52.23)].

End LoadAnimation.

(* ================================================================== *)
(** * Part II.  Properties                                             *)
(* ================================================================== *)

Section ListFacts.

Lemma nth_error_update_nth {A : Type} (f : A -> A) (l : list A) (k j : nat) :
  nth_error (update_nth k f l) j =
  if (j =? k)%nat then option_map f (nth_error l j) else nth_error l j.
Proof.
  revert k j. induction l as [|x l IH]; intros k j.
  - simpl. destruct (j =? k)%nat; destruct j; reflexivity.
  - destruct k, j; simpl; try reflexivity. apply IH.
Qed.

Lemma length_update_nth {A : Type} (f : A -> A) (l : list A) (k : nat) :
  length (update_nth k f l) = length l.
Proof.
  revert k. induction l as [|x l IH]; intros [|k]; simpl; auto.
Qed.

Lemma count_occ_filter_le (p : nat -> bool) (l : list nat) (x : nat) :
  (count_occ Nat.eq_dec (filter p l) x <= count_occ Nat.eq_dec l x)%nat.
Proof.
  induction l as [|y l IH]; simpl; [lia|].
  destruct (p y); simpl; destruct (Nat.eq_dec y x); lia.
Qed.

Lemma count_occ_filter_other (k : nat) (l : list nat) (x : nat) :
  x <> k ->
  count_occ Nat.eq_dec (filter (fun y => negb (y =? k)%nat) l) x =
  count_occ Nat.eq_dec l x.
Proof.
  intros N. induction l as [|y l IH]; simpl; [reflexivity|].
  destruct (Nat.eqb_spec y k) as [->|Ny]; simpl.
  - destruct (Nat.eq_dec k x); [congruence | exact IH].
  - destruct (Nat.eq_dec y x); now rewrite IH.
Qed.

Lemma count_occ_filter_self (k : nat) (l : list nat) :
  count_occ Nat.eq_dec (filter (fun y => negb (y =? k)%nat) l) k = O.
Proof.
  induction l as [|y l IH]; simpl; [reflexivity|].
  destruct (Nat.eqb_spec y k) as [->|Ny]; simpl; [exact IH|].
  destruct (Nat.eq_dec y k); [contradiction | exact IH].
Qed.

Lemma count_occ_pos_In (l : list nat) (x : nat) :
  In x l <-> (0 < count_occ Nat.eq_dec l x)%nat.
Proof. apply count_occ_In. Qed.

Lemma NoDup_of_counts (l : list nat) :
  (forall x, In x l -> (count_occ Nat.eq_dec l x <= 1)%nat) -> NoDup l.
Proof.
  intros H. apply (NoDup_count_occ Nat.eq_dec). intros x.
  destruct (in_dec Nat.eq_dec x l) as [I|N]; [now apply H|].
  apply (count_occ_not_In Nat.eq_dec) in N. lia.
Qed.

End ListFacts.

Section EstimatorFacts.
Import Estimator.

Lemma sigma_shift (f : nat -> R) (m : nat) :
  sigma f (S m) = f O + sigma (fun j => f (S j)) m.
Proof.
  induction m as [|m IH].
  - simpl. lra.
  - change (sigma f (S (S m))) with (sigma f (S m) + f (S m)).
    rewrite IH. simpl. lra.
Qed.

Lemma sigma_ext (f g : nat -> R) (m : nat) :
  (forall j, (j < m)%nat -> f j = g j) -> sigma f m = sigma g m.
Proof.
  induction m as [|m IH]; intros E; simpl; [reflexivity|].
  rewrite IH, E; auto.
Qed.

Lemma distance_loop_from (results : list Coordinate) (steps i : nat) (acc : R) :
  distance_loop results i steps acc =
  acc + sigma (fun j => calculateDistance (nth (i + j) results origin)
                                          (nth (i + j + 1) results origin))
              steps.
Proof.
  revert i acc. induction steps as [|k IH]; intros i acc.
  - simpl. lra.
  - rewrite sigma_shift.
    change (distance_loop results i (S k) acc) with
      (distance_loop results (S i) k
         (acc + calculateDistance (nth i results origin)
                                  (nth (S i) results origin))).
    rewrite IH.
    rewrite Nat.add_0_r, Nat.add_1_r.
    rewrite (sigma_ext _ (fun j => calculateDistance
                            (nth (i + S j) results origin)
                            (nth (i + S j + 1) results origin)) k).
    + lra.
    + intros j _. now replace (S i + j)%nat with (i + S j)%nat by lia.
Qed.

Lemma distance_loop_sigma (results : list Coordinate) (steps : nat) :
  distance_loop results 0 steps 0 =
  sigma (fun i => calculateDistance (nth i results origin)
                                    (nth (i + 1) results origin)) steps.
Proof. rewrite distance_loop_from. simpl. lra. Qed.

Lemma atan2_asin (a : R) :
  0 <= a <= 1 -> JsMath.atan2 (sqrt a) (sqrt (1 - a)) = asin (sqrt a).
Proof.
  intros [A0 A1]. unfold JsMath.atan2.
  destruct (Req_dec a 1) as [->|N].
  - replace (1 - 1) with 0 by lra. rewrite sqrt_0, sqrt_1, asin_1.
    destruct (Rlt_dec 0 0); [lra|].
    destruct (Rlt_dec 0 1); [reflexivity | lra].
  - assert (P : 0 < sqrt (1 - a)) by (apply sqrt_lt_R0; lra).
    destruct (Rlt_dec 0 (sqrt (1 - a))); [|contradiction].
    rewrite asin_atan.
    + now rewrite Rsqr_sqrt.
    + split.
      * pose proof (sqrt_pos a). lra.
      * rewrite <- sqrt_1. apply sqrt_lt_1; lra.
Qed.

Lemma hav_cos (x : R) : hav x = (1 - cos x) / 2.
Proof.
  unfold hav. replace x with (2 * (x / 2)) at 3 by field.
  rewrite cos_2a_sin. lra.
Qed.

Lemma hav_sum_range (p1 p2 l : R) :
  0 <= cos p1 -> 0 <= cos p2 ->
  0 <= hav (p2 - p1) + cos p1 * cos p2 * hav l <= 1.
Proof.
  intros C1 C2. rewrite !hav_cos, cos_minus.
  pose proof (COS_bound l) as [L1 L2].
  pose proof (COS_bound (p1 + p2)) as [S1 S2]. rewrite cos_plus in S1, S2.
  pose proof (COS_bound (p2 - p1)) as [D1 D2]. rewrite cos_minus in D1, D2.
  assert (0 <= cos p1 * cos p2) by nra.
  split; nra.
Qed.

Lemma cos_latitude (c : Coordinate) :
  valid_latitude c -> 0 <= cos (radians (snd c)).
Proof.
  intros [L U]. pose proof PI_RGT_0 as P. unfold radians.
  apply cos_ge_0; nra.
Qed.

(** On valid latitudes [calculateDistance] is the haversine formula
    with radius 6371. *)
Lemma calculateDistance_haversine (c1 c2 : Coordinate) :
  valid_latitude c1 -> valid_latitude c2 ->
  calculateDistance c1 c2 = haversine 6371 c1 c2.
Proof.
  intros V1 V2. unfold calculateDistance, haversine. cbv zeta.
  replace ((snd c2 - snd c1) * PI / 180)
    with (radians (snd c2) - radians (snd c1)) by (unfold radians; lra).
  replace ((fst c2 - fst c1) * PI / 180)
    with (radians (fst c2) - radians (fst c1)) by (unfold radians; lra).
  fold (radians (snd c1)) (radians (snd c2)).
  fold (hav (radians (snd c2) - radians (snd c1))).
  rewrite (Rmult_assoc (cos (radians (snd c1)) * cos (radians (snd c2)))).
  fold (hav (radians (fst c2) - radians (fst c1))).
  rewrite atan2_asin; [lra|].
  apply hav_sum_range; now apply cos_latitude.
Qed.

(** C3.  For a coordinate list of length n: when n < 2 the distance and
    the travel time are both 0; when n >= 2 the distance is the sum of
    the distances that [calculateDistance] gives for the consecutive
    pairs c[i], c[i+1], i in [0, n-2], and the travel time is that
    distance divided by 60; and [calculateDistance] is the haversine
    formula with Earth radius 6371 (on latitudes between -90 and 90
    degrees, where the formula is defined). *)
Theorem estimate_spec (results : list Coordinate) :
  ((length results < 2)%nat ->
     totalDistance results = 0 /\ estimatedTime results = 0) /\
  ((2 <= length results)%nat ->
     totalDistance results =
       sigma (fun i => calculateDistance (nth i results origin)
                                         (nth (i + 1) results origin))
             (length results - 1) /\
     estimatedTime results = totalDistance results / 60) /\
  (forall c1 c2, valid_latitude c1 -> valid_latitude c2 ->
     calculateDistance c1 c2 = haversine 6371 c1 c2).
Proof.
  unfold totalDistance, estimatedTime, estimate. split; [|split].
  - intros H. destruct (Nat.ltb_spec 1 (length results)); [lia|]. simpl. auto.
  - intros H. destruct (Nat.ltb_spec 1 (length results)); [|lia]. simpl.
    split; [apply distance_loop_sigma | reflexivity].
  - exact calculateDistance_haversine.
Qed.

End EstimatorFacts.

Lemma estimate_spec_witness :
  (2 <= length [paris; tokyo])%nat /\
  Estimator.totalDistance [paris; tokyo] =
    0 + Estimator.calculateDistance paris tokyo /\
  Estimator.estimatedTime [paris; tokyo] =
    Estimator.totalDistance [paris; tokyo] / 60.
Proof.
  split; [simpl; lia|].
  apply (proj1 (proj2 (estimate_spec [paris; tokyo]))). simpl; lia.
Defined.

Section TripFacts.
Import Estimator Trip.

Lemma calculateDistance_sym (c1 c2 : Coordinate) :
  calculateDistance c1 c2 = calculateDistance c2 c1.
Proof.
  unfold calculateDistance. cbv zeta.
  replace ((snd c1 - snd c2) * PI / 180 / 2)
    with (- ((snd c2 - snd c1) * PI / 180 / 2)) by lra.
  replace ((fst c1 - fst c2) * PI / 180 / 2)
    with (- ((fst c2 - fst c1) * PI / 180 / 2)) by lra.
  rewrite !sin_neg.
  set (s1 := sin _). set (s2 := sin _). set (k1 := cos _). set (k2 := cos _).
  replace (- s1 * - s1 + k2 * k1 * - s2 * - s2)
    with (s1 * s1 + k1 * k2 * s2 * s2) by ring.
  reflexivity.
Qed.

Lemma calculateDistance_same (c : Coordinate) : calculateDistance c c = 0.
Proof.
  unfold calculateDistance. cbv zeta.
  replace ((snd c - snd c) * PI / 180 / 2) with 0 by lra.
  replace ((fst c - fst c) * PI / 180 / 2) with 0 by lra.
  rewrite sin_0.
  replace (0 * 0 + cos (snd c * PI / 180) * cos (snd c * PI / 180) * 0 * 0)
    with 0 by ring.
  replace (1 - 0) with 1 by lra. rewrite sqrt_0, sqrt_1.
  unfold JsMath.atan2. destruct (Rlt_dec 0 1); [|lra].
  replace (0 / 1) with 0 by lra. rewrite atan_0. lra.
Qed.

Lemma asin_nonneg (x : R) : 0 <= x <= 1 -> 0 <= asin x.
Proof.
  intros [L U]. destruct (Rle_dec 0 (asin x)) as [|N]; [assumption|].
  exfalso. apply Rnot_le_lt in N.
  pose proof (asin_bound x) as [B _]. pose proof PI_RGT_0.
  assert (S : sin (asin x) < 0) by (apply sin_lt_0_var; lra).
  rewrite sin_asin in S by lra. lra.
Qed.

Lemma calculateDistance_range (c1 c2 : Coordinate) :
  valid_latitude c1 -> valid_latitude c2 ->
  0 <= calculateDistance c1 c2 <= 6371 * PI.
Proof.
  intros V1 V2. rewrite (calculateDistance_haversine c1 c2 V1 V2).
  unfold haversine.
  set (a := hav _ + _).
  assert (A : 0 <= a <= 1).
  { apply hav_sum_range; now apply cos_latitude. }
  assert (Q : 0 <= sqrt a <= 1).
  { split; [apply sqrt_pos|]. rewrite <- sqrt_1. apply sqrt_le_1; lra. }
  pose proof (asin_nonneg _ Q). pose proof (asin_bound (sqrt a)) as [_ B].
  pose proof PI_RGT_0. split; nra.
Qed.

Lemma skipn_cons_nth {A : Type} (d : A) (l : list A) (i : nat) :
  (i < length l)%nat -> skipn i l = nth i l d :: skipn (S i) l.
Proof.
  revert i. induction l as [|x l IH]; intros i H; simpl in H; [lia|].
  destruct i as [|i]; [reflexivity|]. simpl. apply IH. lia.
Qed.

Lemma distance_loop_path (results : list Coordinate) (steps i : nat) (acc : R) :
  (i + steps = length results - 1)%nat -> (1 <= length results)%nat ->
  distance_loop results i steps acc = acc + path_length (skipn i results).
Proof.
  revert i acc. induction steps as [|k IH]; intros i acc E L.
  - simpl. rewrite (skipn_cons_nth origin) by lia.
    rewrite skipn_all2 by lia. simpl. lra.
  - change (distance_loop results i (S k) acc) with
      (distance_loop results (S i) k
         (acc + calculateDistance (nth i results origin)
                                  (nth (S i) results origin))).
    rewrite IH by lia.
    rewrite (skipn_cons_nth origin results i) by lia.
    rewrite (skipn_cons_nth origin results (S i)) by lia.
    cbn [path_length]. lra.
Qed.

Lemma totalDistance_path (cs : list Coordinate) :
  totalDistance cs = path_length cs.
Proof.
  unfold totalDistance, estimate.
  destruct (Nat.ltb_spec 1 (length cs)) as [L|L].
  - cbn [fst]. rewrite distance_loop_path by lia. simpl. lra.
  - destruct cs as [|a [|b cs]]; simpl in L; try lia; reflexivity.
Qed.

Lemma path_length_cons2 (a b : Coordinate) (l : list Coordinate) :
  path_length (a :: b :: l) = calculateDistance a b + path_length (b :: l).
Proof. reflexivity. Qed.

Lemma path_length_snoc (cs : list Coordinate) (a b : Coordinate) :
  path_length (cs ++ [a; b]) =
  path_length (cs ++ [a]) + calculateDistance a b.
Proof.
  induction cs as [|x cs IH]; [simpl; lra|].
  destruct cs as [|y cs]; [simpl; lra|].
  rewrite <- !app_comm_cons in *. rewrite !path_length_cons2, IH. lra.
Qed.

Lemma path_length_rev (cs : list Coordinate) :
  path_length (rev cs) = path_length cs.
Proof.
  induction cs as [|a cs IH]; [reflexivity|].
  destruct cs as [|b cs]; [reflexivity|].
  rewrite path_length_cons2, <- IH.
  change (rev (a :: b :: cs)) with ((rev cs ++ [b]) ++ [a]).
  rewrite <- app_assoc. change ([b] ++ [a]) with [b; a].
  rewrite path_length_snoc. change (rev (b :: cs)) with (rev cs ++ [b]).
  rewrite (calculateDistance_sym b a). lra.
Qed.

Lemma path_length_range (cs : list Coordinate) :
  Forall valid_latitude cs ->
  0 <= path_length cs <= INR (length cs - 1) * (6371 * PI).
Proof.
  induction cs as [|a cs IH]; intros F; [simpl; lra|].
  destruct cs as [|b cs]; [simpl; lra|].
  - rewrite path_length_cons2.
    inversion F as [|? ? Va F']; subst.
    pose proof (Forall_inv F') as Vb.
    pose proof (calculateDistance_range a b Va Vb).
    specialize (IH F').
    replace (length (a :: b :: cs) - 1)%nat
      with (S (length (b :: cs) - 1)) by (simpl; lia).
    rewrite S_INR. lra.
Qed.

Lemma path_length_last_leg (cs : list Coordinate) (c : Coordinate) :
  cs <> [] ->
  path_length (cs ++ [c]) =
  path_length cs + calculateDistance (last cs origin) c.
Proof.
  intros N. destruct (exists_last N) as (cs' & a & ->).
  rewrite <- app_assoc. change ([a] ++ [c]) with [a; c].
  now rewrite path_length_snoc, last_last.
Qed.

(** X1.  [calculateDistance] between two points with latitudes in
    [-90, 90]: it is the same in both directions, it is 0 from a point
    to itself, and it lies between 0 and half the circumference of the
    sphere, 6371 * PI. *)
Theorem calculateDistance_metric (c1 c2 : Coordinate) :
  valid_latitude c1 -> valid_latitude c2 ->
  calculateDistance c1 c2 = calculateDistance c2 c1 /\
  calculateDistance c1 c1 = 0 /\
  0 <= calculateDistance c1 c2 <= 6371 * PI.
Proof.
  intros V1 V2. split; [apply calculateDistance_sym|].
  split; [apply calculateDistance_same|].
  now apply calculateDistance_range.
Qed.

(** X2.  The figures of the trip panel, for coordinates with latitudes
    in [-90, 90]: the distance is at least 0 and at most 6371 * PI for
    each leg; the reversed route has the same distance; one more
    destination adds the leg from the last coordinate to it; and the
    travel time in minutes is the distance in kilometres. *)
Theorem trip_figures (cs : list Coordinate) (c : Coordinate) :
  Forall valid_latitude cs ->
  0 <= totalDistance cs <= INR (length cs - 1) * (6371 * PI) /\
  totalDistance (rev cs) = totalDistance cs /\
  (cs <> [] ->
     totalDistance (cs ++ [c]) =
     totalDistance cs + calculateDistance (last cs origin) c) /\
  estimatedTime cs * 60 = totalDistance cs.
Proof.
  intros F. rewrite !totalDistance_path. split; [|split; [|split]].
  - now apply path_length_range.
  - apply path_length_rev.
  - apply path_length_last_leg.
  - unfold estimatedTime, estimate. rewrite <- totalDistance_path.
    unfold totalDistance, estimate.
    destruct (1 <? length cs)%nat; simpl; lra.
Qed.

End TripFacts.

Lemma paris_tokyo_latitudes :
  Estimator.valid_latitude paris /\ Estimator.valid_latitude tokyo.
Proof. unfold Estimator.valid_latitude, paris, tokyo. simpl. lra. Qed.

Lemma calculateDistance_metric_witness :
  Estimator.calculateDistance paris tokyo =
    Estimator.calculateDistance tokyo paris /\
  Estimator.calculateDistance paris paris = 0 /\
  0 <= Estimator.calculateDistance paris tokyo <= 6371 * PI.
Proof.
  exact (calculateDistance_metric paris tokyo
           (proj1 paris_tokyo_latitudes) (proj2 paris_tokyo_latitudes)).
Defined.

Lemma trip_figures_witness :
  Estimator.totalDistance (rev [paris; tokyo]) =
  Estimator.totalDistance [paris; tokyo].
Proof.
  refine (proj1 (proj2 (trip_figures [paris; tokyo] origin _))).
  exact (Forall_cons _ (proj1 paris_tokyo_latitudes)
           (Forall_cons _ (proj2 paris_tokyo_latitudes) (Forall_nil _))).
Defined.

Section EasingFacts.
Import Easing.

Lemma ease_low (x : R) : x < 1 / 2 -> easeInOutCubic x = 4 * x * x * x.
Proof.
  intros H. unfold easeInOutCubic. destruct (Rlt_dec x (1 / 2)); [reflexivity | lra].
Qed.

Lemma ease_high (x : R) :
  1 / 2 <= x -> easeInOutCubic x = 1 - (2 - 2 * x) ^ 3 / 2.
Proof.
  intros H. unfold easeInOutCubic, JsMath.pow.
  destruct (Rlt_dec x (1 / 2)); [lra|].
  replace (-2 * x + 2) with (2 - 2 * x) by lra. reflexivity.
Qed.

Lemma cube_le (a b : R) : 0 <= a <= b -> a * a * a <= b * b * b.
Proof.
  intros [Ha Hab].
  assert (0 <= b) by lra.
  assert (a * a <= b * b) by nra.
  assert (0 <= a * a) by nra.
  nra.
Qed.

(** C9.  The ease-in-out cubic takes 0 to 0 and 1 to 1 and never
    decreases between them: for 0 <= x <= y <= 1, f x <= f y. *)
Theorem easeInOutCubic_spec :
  easeInOutCubic 0 = 0 /\
  easeInOutCubic 1 = 1 /\
  (forall x y : R, 0 <= x -> x <= y -> y <= 1 ->
     easeInOutCubic x <= easeInOutCubic y).
Proof.
  split; [|split].
  - rewrite ease_low by lra. lra.
  - rewrite ease_high by lra. lra.
  - intros x y Hx Hxy Hy.
    destruct (Rlt_dec x (1 / 2)) as [Lx|Lx];
      destruct (Rlt_dec y (1 / 2)) as [Ly|Ly].
    + rewrite !ease_low by assumption.
      pose proof (cube_le x y (conj Hx Hxy)). lra.
    + rewrite ease_low by assumption. rewrite ease_high by lra.
      pose proof (cube_le x (1 / 2) ltac:(lra)).
      pose proof (cube_le (2 - 2 * y) 1 ltac:(lra)).
      simpl. lra.
    + lra.
    + rewrite !ease_high by lra.
      pose proof (cube_le (2 - 2 * y) (2 - 2 * x) ltac:(lra)).
      simpl. lra.
Qed.

Lemma easeInOutCubic_spec_witness :
  easeInOutCubic (1 / 4) <= easeInOutCubic (3 / 4).
Proof.
  apply (proj2 (proj2 easeInOutCubic_spec)); lra.
Defined.

End EasingFacts.

Section EasingMore.
Import Easing.

Lemma ease_mirror (x : R) : easeInOutCubic (1 - x) = 1 - easeInOutCubic x.
Proof.
  unfold easeInOutCubic, JsMath.pow.
  destruct (Rlt_dec (1 - x) (1 / 2)); destruct (Rlt_dec x (1 / 2));
    try lra; simpl; try field.
  assert (x = 1 / 2) by lra. subst x. field.
Qed.

Lemma ease_halfway : easeInOutCubic (1 / 2) = 1 / 2.
Proof.
  unfold easeInOutCubic, JsMath.pow.
  destruct (Rlt_dec (1 / 2) (1 / 2)); [lra|]. simpl. field.
Qed.

Lemma ease_slope_low (x y : R) :
  0 <= x -> x <= y -> y <= 1 / 2 ->
  4 * y * y * y - 4 * x * x * x <= 3 * (y - x).
Proof.
  intros. 
  replace (4 * y * y * y - 4 * x * x * x)
    with (4 * (y - x) * (y * y + x * y + x * x)) by ring.
  assert (y * y + x * y + x * x <= 3 / 4) by nra.
  nra.
Qed.

Lemma ease_value (x : R) :
  1 / 2 <= x -> easeInOutCubic x = 1 - 4 * (1 - x) * (1 - x) * (1 - x).
Proof.
  intros H. unfold easeInOutCubic, JsMath.pow.
  destruct (Rlt_dec x (1 / 2)); [lra|]. simpl. field.
Qed.

Lemma ease_slope (x y : R) :
  0 <= x -> x <= y -> y <= 1 ->
  easeInOutCubic y - easeInOutCubic x <= 3 * (y - x).
Proof.
  intros X XY Y.
  destruct (Rle_dec y (1 / 2)) as [Ly|Ly];
    [|destruct (Rle_dec (1 / 2) x) as [Lx|Lx]].
  - destruct (Req_dec y (1 / 2)) as [->|Ny].
    + rewrite ease_halfway.
      destruct (Req_dec x (1 / 2)) as [->|Nx]; [rewrite ease_halfway; lra|].
      rewrite ease_low by lra.
      pose proof (ease_slope_low x (1 / 2) X ltac:(lra) ltac:(lra)). lra.
    + rewrite !ease_low by lra. apply ease_slope_low; lra.
  - rewrite !ease_value by lra.
    pose proof (ease_slope_low (1 - y) (1 - x) ltac:(lra) ltac:(lra) ltac:(lra)).
    lra.
  - rewrite (ease_value y) by lra. rewrite ease_low by lra.
    pose proof (ease_slope_low (1 - y) (1 / 2) ltac:(lra) ltac:(lra) ltac:(lra)).
    pose proof (ease_slope_low x (1 / 2) X ltac:(lra) ltac:(lra)).
    lra.
Qed.

Lemma ease_range (x : R) :
  0 <= x <= 1 -> 0 <= easeInOutCubic x <= 1.
Proof.
  intros [L U]. destruct (Rlt_dec x (1 / 2)) as [H|H].
  - rewrite ease_low by assumption.
    assert (0 <= x * x) by nra. assert (x * x <= 1 / 4) by nra.
    split; nra.
  - rewrite ease_value by lra.
    assert (0 <= (1 - x) * (1 - x)) by nra.
    assert ((1 - x) * (1 - x) <= 1 / 4) by nra.
    split; nra.
Qed.

(** X3.  The shape of the easing curve on [0, 1]: its values stay in
    [0, 1]; it is symmetric about the point (1/2, 1/2), which it passes
    through; and it never rises more than three times as fast as the
    raw progress. *)
Theorem easing_shape (x y : R) :
  0 <= x -> x <= y -> y <= 1 ->
  0 <= easeInOutCubic x <= 1 /\
  easeInOutCubic (1 - x) = 1 - easeInOutCubic x /\
  easeInOutCubic (1 / 2) = 1 / 2 /\
  easeInOutCubic y - easeInOutCubic x <= 3 * (y - x).
Proof.
  intros X XY Y. split; [apply ease_range; lra|].
  split; [apply ease_mirror|]. split; [apply ease_halfway|].
  now apply ease_slope.
Qed.

Lemma easing_shape_witness :
  Easing.easeInOutCubic (3 / 4) - Easing.easeInOutCubic (1 / 4) <=
  3 * (3 / 4 - 1 / 4).
Proof.
  refine (proj2 (proj2 (proj2 (easing_shape (1 / 4) (3 / 4) _ _ _)))); lra.
Defined.

End EasingMore.

Section ZoomFacts.
Import Animation.

Lemma zoom_at_cases (t : R) :
  (t < 18 / 100 /\ zoom_at t = 8 + 2 * (t / (18 / 100))) \/
  (18 / 100 <= t <= 82 / 100 /\ zoom_at t = 10) \/
  (82 / 100 < t /\ zoom_at t = 10 - 2 * ((t - 82 / 100) / (18 / 100))).
Proof.
  unfold zoom_at, JsMath.ltb.
  destruct (Rlt_dec t (18 / 100)); [left; auto|].
  destruct (Rlt_dec (82 / 100) t); [right; right; auto|].
  right; left. split; [lra | reflexivity].
Qed.

(** X4.  The zoom of a frame, for raw progress t in [0, 1]: it stays
    between 8 and 10, starts and ends at 8, is 10 from t = 0.18 to
    t = 0.82, and is the same at t and at 1 - t. *)
Theorem zoom_profile (t : R) :
  0 <= t <= 1 ->
  8 <= zoom_at t <= 10 /\
  zoom_at 0 = 8 /\ zoom_at 1 = 8 /\
  (18 / 100 <= t <= 82 / 100 -> zoom_at t = 10) /\
  zoom_at (1 - t) = zoom_at t.
Proof.
  intros [T0 T1]. split; [|split; [|split; [|split]]].
  - destruct (zoom_at_cases t) as [[L ->]|[[L ->]|[L ->]]]; lra.
  - destruct (zoom_at_cases 0) as [[L ->]|[[L ->]|[L ->]]]; lra.
  - destruct (zoom_at_cases 1) as [[L ->]|[[L ->]|[L ->]]]; lra.
  - intros M. destruct (zoom_at_cases t) as [[L ->]|[[L ->]|[L ->]]]; lra.
  - destruct (zoom_at_cases t) as [[L ->]|[[L ->]|[L ->]]];
      destruct (zoom_at_cases (1 - t)) as [[L' ->]|[[L' ->]|[L' ->]]];
      lra.
Qed.

Lemma zoom_profile_witness : 8 <= Animation.zoom_at (1 / 2) <= 10.
Proof. refine (proj1 (zoom_profile (1 / 2) _)). lra. Defined.

End ZoomFacts.

Section ResolverFacts.
Import Resolver.

Lemma flat_map_seq_S {A : Type} (f : nat -> list A) (n : nat) :
  flat_map f (seq 0 (S n)) = f O ++ flat_map (fun i => f (S i)) (seq 0 n).
Proof.
  simpl. f_equal. rewrite <- seq_shift. rewrite flat_map_concat_map, map_map.
  now rewrite <- flat_map_concat_map.
Qed.

Lemma resolved_cons (svc : Service) (log : list string) (p : string)
    (rest : list string) :
  resolved svc log (p :: rest) =
  match resolveOne svc log p with Some c => [c] | None => [] end ++
  resolved svc (log ++ [p]) rest.
Proof.
  unfold resolved. cbn [length]. rewrite flat_map_seq_S.
  cbn [firstn nth]. rewrite app_nil_r. f_equal.
  apply flat_map_ext. intros i. now rewrite <- app_assoc.
Qed.

Lemma resolved_length (svc : Service) (places log : list string) :
  (length (resolved svc log places) <= length places)%nat.
Proof.
  revert log. induction places as [|p rest IH]; intros log.
  - apply Nat.le_refl.
  - rewrite resolved_cons, length_app. specialize (IH (log ++ [p])).
    destruct (resolveOne svc log p); simpl in *; lia.
Qed.

Lemma resolve_loop_fulfilled (svc : Service) (places log : list string)
    (results : list Coordinate) :
  all_fulfilled svc log places = true ->
  resolve_loop svc places log results =
  (log ++ places, Some (results ++ resolved svc log places)).
Proof.
  revert log results. induction places as [|p rest IH]; intros log results F.
  - simpl. now rewrite !app_nil_r.
  - rewrite resolved_cons. simpl in *. unfold resolveOne.
    destruct (svc log p) as [features|]; [|discriminate].
    rewrite (IH _ _ F), <- app_assoc. simpl.
    destruct features as [[|f fs]|]; simpl;
      now rewrite <- ?app_assoc.
Qed.

(** With every request answered, [fetchCoords] asks for the places
    one after the other in list order, and the array it hands to
    [setCoords] holds exactly the coordinates of the entries that
    resolved, in input order; an entry without a match adds nothing, so
    the array is never longer than the place list, and it can be shorter
    and out of step with it (here "Atlantis" is dropped and position 0
    of the output belongs to place 1). *)
Theorem fetchCoords_order_and_dropping (svc : Service) (places : list string) :
  all_fulfilled svc [] places = true ->
  fetchCoords svc places = (places, Some (resolved svc [] places)) /\
  (length (resolved svc [] places) <= length places)%nat /\
  fetchCoords atlas ["Atlantis"; "Paris"; "Tokyo"]%string =
    (["Atlantis"; "Paris"; "Tokyo"]%string, Some [paris; tokyo]).
Proof.
  intros F. split; [|split].
  - unfold fetchCoords. now rewrite (resolve_loop_fulfilled _ _ _ _ F).
  - apply resolved_length.
  - reflexivity.
Qed.

Lemma fetchCoords_order_and_dropping_witness :
  fetchCoords atlas ["Paris"; "Atlantis"; "Tokyo"]%string =
    (["Paris"; "Atlantis"; "Tokyo"]%string,
     Some (resolved atlas [] ["Paris"; "Atlantis"; "Tokyo"]%string)).
Proof.
  apply (fetchCoords_order_and_dropping atlas
           ["Paris"; "Atlantis"; "Tokyo"]%string).
  reflexivity.
Defined.

(** C4.  A request that fails is not dropped: it ends the pass.  The
    place list is Paris, Atlantis, Tokyo and the network is down while
    the second request is made.  Read as the claim has it, the failed
    entry resolves to nothing and the pass yields the coordinates of
    Paris and Tokyo.  [fetchCoords] has no handler for the rejection
    (its sibling [fetchSuggestions] has a [try] and a [catch]): the
    call ends at the second request, Tokyo is never asked for, and
    [setCoords] is not reached, so the coordinate list keeps whatever
    it held before. *)
Theorem fetchCoords_failed_request_aborts :
  resolveOne atlas_dropout ["Paris"]%string "Atlantis" = None /\
  resolved atlas_dropout [] ["Paris"; "Atlantis"; "Tokyo"]%string =
    [paris; tokyo] /\
  fetchCoords atlas_dropout ["Paris"; "Atlantis"; "Tokyo"]%string =
    (["Paris"; "Atlantis"]%string, None).
Proof. split; [|split]; reflexivity. Qed.

End ResolverFacts.

Section PlacesFacts.
Import Places Resolver Services.

Lemma filter_index_keep_all {A : Type} (keep : A -> nat -> bool) (l : list A)
    (i : nat) :
  (forall x j, (i <= j)%nat -> keep x j = true) -> filter_index keep l i = l.
Proof.
  revert i. induction l as [|x l IH]; intros i K; [reflexivity|].
  simpl. rewrite K by lia. f_equal. apply IH. intros y j L. apply K. lia.
Qed.

Lemma removePlace_from (places : list string) (idx i : nat) :
  filter_index (fun _ j => negb (j =? i + idx)%nat) places i =
  firstn idx places ++ skipn (S idx) places.
Proof.
  revert idx i. induction places as [|p ps IH]; intros idx i.
  - now destruct idx.
  - cbn [filter_index]. destruct idx as [|idx].
    + rewrite Nat.add_0_r, Nat.eqb_refl. cbn [negb firstn skipn app].
      apply filter_index_keep_all. intros x j L.
      destruct (Nat.eqb_spec j i); [lia | reflexivity].
    + destruct (Nat.eqb_spec i (i + S idx)); [lia|]. cbn [negb firstn skipn app].
      f_equal. replace (i + S idx)%nat with (S i + idx)%nat by lia. apply IH.
Qed.

Lemma removePlace_split (idx : nat) (places : list string) :
  removePlace idx places = firstn idx places ++ skipn (S idx) places.
Proof. exact (removePlace_from places idx 0). Qed.

(** X6.  The remove button of the place at [idx]: the list loses that
    entry and no other, the entries before it keep their index, the ones
    after it move down by one; and removing the last entry of a list
    that a place was appended to gives the list back. *)
Theorem removePlace_spec (idx : nat) (places : list string) :
  (idx < length places)%nat ->
  removePlace idx places = firstn idx places ++ skipn (S idx) places /\
  S (length (removePlace idx places)) = length places /\
  (forall j, (j < idx)%nat ->
     nth_error (removePlace idx places) j = nth_error places j) /\
  (forall j, (idx <= j)%nat ->
     nth_error (removePlace idx places) j = nth_error places (S j)) /\
  (forall p, removePlace (length places) (places ++ [p]) = places).
Proof.
  intros L. rewrite removePlace_split.
  split; [reflexivity|]. split; [|split; [|split]].
  - rewrite length_app, length_firstn, length_skipn. lia.
  - intros j J. rewrite nth_error_app1 by (rewrite length_firstn; lia).
    rewrite nth_error_firstn. destruct (Nat.ltb_spec j idx); [reflexivity | lia].
  - intros j J. rewrite nth_error_app2 by (rewrite length_firstn; lia).
    rewrite length_firstn, nth_error_skipn. f_equal. lia.
  - intros p. rewrite removePlace_split.
    rewrite firstn_app, Nat.sub_diag, firstn_all, skipn_all2
      by (rewrite length_app; simpl; lia).
    simpl. now rewrite !app_nil_r.
Qed.

Lemma resolve_loop_rejected (svc : Service) (before : list string)
    (place : string) (rest log : list string) (results : list Coordinate) :
  all_fulfilled svc log before = true ->
  svc (log ++ before) place = Rejected ->
  resolve_loop svc (before ++ place :: rest) log results =
  (log ++ before ++ [place], None).
Proof.
  revert log results. induction before as [|b bs IH]; intros log results F Rj.
  - simpl. rewrite app_nil_r in Rj. now rewrite Rj.
  - simpl in *. destruct (svc log b) as [features|]; [|discriminate].
    rewrite IH; [now rewrite <- app_assoc | exact F |].
    now rewrite <- app_assoc.
Qed.

(** X7.  A request that fails: when the requests for the places before
    [place] are answered and the one for [place] is rejected,
    [fetchCoords] has asked for those places and for [place] and for
    nothing after it, and does not reach [setCoords]: the coordinates
    and the figures stay as they were. *)
Theorem fetchCoords_rejection (svc : Service) (before : list string)
    (place : string) (rest : list string) :
  all_fulfilled svc [] before = true ->
  svc before place = Rejected ->
  fetchCoords svc (before ++ place :: rest) = (before ++ [place], None).
Proof.
  intros F Rj. unfold fetchCoords.
  now rewrite (resolve_loop_rejected svc before place rest [] [] F Rj).
Qed.

Lemma stateless_shift (svc : Service) (log : list string) :
  stateless svc -> stateless (fun l p => svc (log ++ l) p).
Proof. intros S l p. now rewrite (S (log ++ l)), (S (log ++ [])). Qed.

Lemma resolved_stateless (svc : Service) (log places : list string) :
  stateless svc ->
  resolved svc log places =
  flat_map (fun p => match resolveOne svc [] p with
                     | Some c => [c] | None => [] end) places.
Proof.
  intros S. revert log. induction places as [|p ps IH]; intros log.
  - reflexivity.
  - rewrite resolved_cons, IH. simpl. unfold resolveOne. now rewrite (S log).
Qed.

Lemma all_fulfilled_answers (svc : Service) (log places : list string) :
  answers svc -> all_fulfilled svc log places = true.
Proof.
  intros A. revert log. induction places as [|p ps IH]; intros log.
  - reflexivity.
  - simpl. destruct (svc log p) eqn:E; [apply IH|]. now apply A in E.
Qed.

Lemma fetchCoords_answers (svc : Service) (places : list string) :
  answers svc -> snd (fetchCoords svc places) = Some (resolved svc [] places).
Proof.
  intros A. unfold fetchCoords.
  now rewrite (resolve_loop_fulfilled _ _ _ _ (all_fulfilled_answers svc [] places A)).
Qed.

(** X8.  With a service that answers every request and whose answers
    do not depend on earlier requests: the coordinates of a list that is
    two lists joined are the coordinates of the one followed by those of
    the other; removing a place that does not resolve leaves the
    coordinates as they are; and when every place resolves, coordinate
    i belongs to place i. *)
Theorem fetchCoords_compose (svc : Service) (ps qs : list string) (idx : nat) :
  stateless svc -> answers svc ->
  resolved svc [] (ps ++ qs) = resolved svc [] ps ++ resolved svc [] qs /\
  snd (fetchCoords svc (ps ++ qs)) =
    Some (resolved svc [] ps ++ resolved svc [] qs) /\
  (resolveOne svc [] (nth idx ps EmptyString) = None ->
     snd (fetchCoords svc (removePlace idx ps)) = snd (fetchCoords svc ps)) /\
  ((forall p, In p ps -> resolveOne svc [] p <> None) ->
     map Some (resolved svc [] ps) = map (resolveOne svc []) ps).
Proof.
  intros S A. rewrite !fetchCoords_answers by assumption.
  rewrite !resolved_stateless by assumption.
  split; [apply flat_map_app|]. split; [now rewrite flat_map_app|]. split.
  - intros N. f_equal. rewrite removePlace_split.
    destruct (Nat.lt_ge_cases idx (length ps)) as [L|L].
    + rewrite <- (firstn_skipn idx ps) at 3.
      rewrite (skipn_cons_nth EmptyString ps idx L).
      rewrite !flat_map_app. cbn [flat_map]. now rewrite N.
    + rewrite firstn_all2, skipn_all2 by lia. now rewrite app_nil_r.
  - intros All. induction ps as [|p ps IH]; [reflexivity|]. simpl.
    destruct (resolveOne svc [] p) eqn:E.
    + simpl. f_equal. apply IH. intros q Q. apply All. now right.
    + exfalso. apply (All p); [now left | exact E].
Qed.

Lemma removePlace_spec_witness :
  removePlace 1 ["Paris"; "Atlantis"; "Tokyo"]%string =
  firstn 1 ["Paris"; "Atlantis"; "Tokyo"]%string ++
  skipn 2 ["Paris"; "Atlantis"; "Tokyo"]%string.
Proof.
  refine (proj1 (removePlace_spec 1 ["Paris"; "Atlantis"; "Tokyo"]%string _)).
  simpl. lia.
Defined.

Lemma fetchCoords_rejection_witness :
  fetchCoords (failing_on "Atlantis") ["Paris"; "Atlantis"; "Tokyo"]%string =
  (["Paris"; "Atlantis"]%string, None).
Proof.
  exact (fetchCoords_rejection (failing_on "Atlantis") ["Paris"%string]
           "Atlantis" ["Tokyo"%string] eq_refl eq_refl).
Defined.

Lemma atlas_stateless : stateless atlas /\ answers atlas.
Proof.
  split.
  - intros log place. reflexivity.
  - intros log place. unfold atlas.
    destruct (String.eqb place "Paris"); [discriminate|].
    destruct (String.eqb place "Tokyo"); discriminate.
Qed.

Lemma fetchCoords_compose_witness :
  snd (fetchCoords atlas
         (["Paris"%string] ++ ["Atlantis"%string; "Tokyo"%string])) =
  Some (resolved atlas [] ["Paris"%string] ++
        resolved atlas [] ["Atlantis"; "Tokyo"]%string).
Proof.
  exact (proj1 (proj2 (fetchCoords_compose atlas ["Paris"%string]
                         ["Atlantis"; "Tokyo"]%string 0
                         (proj1 atlas_stateless) (proj2 atlas_stateless)))).
Defined.

End PlacesFacts.

Section AutocompleteFacts.
Import Autocomplete.

Variable accessToken : string.

(** After the cleanup of the previous run, every closure is ignored. *)
Lemma run_cleanup_all_ignored (st : State) :
  others_ignored st ->
  cleanup (run_cleanup st) = None /\
  (forall j q, nth_error (queries (run_cleanup st)) j = Some q ->
               ignore q = true) /\
  length (queries (run_cleanup st)) = length (queries st) /\
  input (run_cleanup st) = input st /\
  suggestions (run_cleanup st) = suggestions st /\
  places (run_cleanup st) = places st.
Proof.
  intros O. unfold run_cleanup. destruct (cleanup st) as [k|] eqn:C.
  - simpl. repeat split; try reflexivity.
    + intros j q. rewrite nth_error_update_nth.
      destruct (Nat.eqb_spec j k) as [->|N].
      * destruct (nth_error (queries st) k); simpl; [|discriminate].
        now intros [= <-].
      * intros H. apply (O j q H). congruence.
    + apply length_update_nth.
  - rewrite C. repeat split; try reflexivity.
    intros j q H. apply (O j q H). congruence.
Qed.

Lemma ac_Inv_setInput (v : string) (st : State) :
  Inv accessToken st -> Inv accessToken (setInput accessToken v st).
Proof.
  intros (O & L & T). unfold setInput.
  destruct (String.eqb v (input st)); [exact (conj O (conj L T))|].
  assert (O' : others_ignored (set_input v st)) by exact O.
  destruct (run_cleanup_all_ignored _ O') as (C & I & Len & In_ & Su & _).
  assert (T' : tokenless_idle accessToken (run_cleanup (set_input v st))).
  { intros F. destruct (T F) as [S Q]. split; [now rewrite Su|].
    apply length_zero_iff_nil. rewrite Len. simpl. now rewrite Q. }
  set (st1 := run_cleanup (set_input v st)) in *.
  assert (Blank : Inv accessToken (setSuggestions [] st1)).
  { split; [|split].
    - intros j q H _. exact (I j q H).
    - intros k H. simpl in H. congruence.
    - intros F. split; [reflexivity | exact (proj2 (T' F))]. }
  unfold suggestions_effect.
  destruct (negb (truthy (trim (input st1)))); [exact Blank|].
  destruct (truthy accessToken) eqn:Tok; simpl; [|exact Blank].
  split; [|split].
  - intros j q H N. simpl in H, N.
    destruct (Nat.lt_ge_cases j (length (queries st1))) as [Lt|Ge].
    + rewrite nth_error_app1 in H by assumption. exact (I j q H).
    + rewrite nth_error_app2 in H by assumption.
      destruct (j - length (queries st1))%nat eqn:D.
      * exfalso. apply N. f_equal. lia.
      * simpl in H. now destruct n.
  - intros k H. simpl in H. injection H as <-.
    split; [reflexivity|]. split.
    + simpl. rewrite length_app. simpl. lia.
    + exists (mkQuery (input st1) false Pending false). simpl.
      rewrite nth_error_app2, Nat.sub_diag by apply Nat.le_refl.
      now simpl.
  - intros F. congruence.
Qed.

(** Changes that leave the text, the suggestions, the closures' flags
    and texts, and the held cleanup alone keep the invariant. *)
Lemma ac_Inv_same_flags (st st' : State) :
  input st' = input st -> cleanup st' = cleanup st ->
  length (queries st') = length (queries st) ->
  (forall j q', nth_error (queries st') j = Some q' ->
     exists q, nth_error (queries st) j = Some q /\
               ignore q' = ignore q /\ q_input q' = q_input q) ->
  (truthy accessToken = false -> suggestions st' = []) ->
  Inv accessToken st -> Inv accessToken st'.
Proof.
  intros Ei Ec El Eq_ Es (O & L & T). split; [|split].
  - intros j q' H N. destruct (Eq_ j q' H) as (q & Hq & Ig & _).
    rewrite Ig. apply (O j q Hq). now rewrite <- Ec.
  - intros k H. rewrite Ec in H.
    destruct (L k H) as (_ & Len & q & Hq & Ig & Qi).
    split; [now rewrite Ec|]. split; [now rewrite El|].
    destruct (nth_error (queries st') k) as [q'|] eqn:Hq'.
    + exists q'. destruct (Eq_ k q' Hq') as (q0 & Hq0 & Ig' & Qi').
      assert (q0 = q) by congruence. subst q0.
      split; [reflexivity|]. split; congruence.
    + exfalso. apply nth_error_None in Hq'.
      assert (k < length (queries st))%nat
        by (apply nth_error_Some; congruence).
      lia.
  - intros F. split; [auto|].
    apply length_zero_iff_nil. rewrite El.
    now rewrite (proj2 (T F)).
Qed.

Lemma ac_Inv_handleSuggestionClick (place : string) (st : State) :
  Inv accessToken st -> Inv accessToken (handleSuggestionClick accessToken place st).
Proof.
  intros I. unfold handleSuggestionClick. apply ac_Inv_setInput.
  revert I. apply ac_Inv_same_flags; try reflexivity.
  intros j q' H. exists q'. auto.
Qed.

Lemma ac_Inv_handleAddPlace (st : State) :
  Inv accessToken st -> Inv accessToken (handleAddPlace accessToken st).
Proof.
  intros I. unfold handleAddPlace.
  destruct (negb (truthy (trim (input st)))); [exact I|].
  destruct (find (fun s => String.eqb (Resolver.place_name s)
                                     (trim (input st))) (suggestions st)).
  - exact (ac_Inv_handleSuggestionClick _ _ I).
  - destruct (negb (truthy accessToken) ||
              (length (suggestions st) =? 0)%nat)%bool; [|exact I].
    exact (ac_Inv_handleSuggestionClick _ _ I).
Qed.

Lemma ac_Inv_setHighlightedIdx (v : Z) (st : State) :
  Inv accessToken st -> Inv accessToken (setHighlightedIdx v st).
Proof. intros I. exact I. Qed.

Lemma ac_Inv_step (st : State) (e : Event) :
  Inv accessToken st -> Inv accessToken (step accessToken st e).
Proof.
  intros I. destruct e as [v|k|k r| |idx|idx|key]; simpl.
  - apply ac_Inv_setHighlightedIdx, ac_Inv_setInput, I.
  - destruct (nth_error (queries st) k) as [q|] eqn:Hq; [|exact I].
    destruct (timer q); try exact I.
    pose proof I as I0. revert I0. apply ac_Inv_same_flags; try reflexivity.
    + apply length_update_nth.
    + intros j q'. simpl. rewrite nth_error_update_nth.
      destruct (j =? k)%nat; [|intros H; exists q'; auto].
      destruct (nth_error (queries st) j) as [q0|]; simpl; [|discriminate].
      intros [= <-]. exists q0. auto.
    + intros F. exact (proj1 (proj2 (proj2 I) F)).
  - destruct (nth_error (queries st) k) as [q|] eqn:Hq; [|exact I].
    destruct (inflight q); [|exact I].
    assert (Tok : truthy accessToken = true).
    { destruct (truthy accessToken) eqn:F; [reflexivity|].
      destruct (proj2 (proj2 I) F) as [_ Q]. rewrite Q in Hq.
      now destruct k. }
    pose proof I as I0. revert I0. apply ac_Inv_same_flags.
    + now destruct r as [fs|]; simpl; destruct (ignore q).
    + now destruct r as [fs|]; simpl; destruct (ignore q).
    + destruct r as [fs|]; simpl; destruct (ignore q); simpl;
        apply length_update_nth.
    + intros j q'.
      assert (E : queries (settle r q
                (set_queries (update_nth k
                   (fun q => mkQuery (q_input q) (ignore q) (timer q) false)
                   (queries st)) st)) =
              update_nth k
                (fun q => mkQuery (q_input q) (ignore q) (timer q) false)
                (queries st))
        by (now destruct r as [fs|]; simpl; destruct (ignore q)).
      rewrite E, nth_error_update_nth.
      destruct (j =? k)%nat; [|intros H; exists q'; auto].
      destruct (nth_error (queries st) j) as [q0|]; simpl; [|discriminate].
      intros [= <-]. exists q0. auto.
    + congruence.
  - apply ac_Inv_handleAddPlace, I.
  - destruct (nth_error (suggestions st) idx); [|exact I].
    apply ac_Inv_handleSuggestionClick, I.
  - destruct (idx <? length (suggestions st))%nat; exact I.
  - unfold onKeyDown. destruct (0 <? length (suggestions st))%nat; [|exact I].
    destruct key; try exact I.
    match goal with |- context [if ?c then _ else _] => destruct c end;
      [|exact I].
    match goal with |- context [match ?c with Some _ => _ | None => _ end] =>
      destruct c end; [|exact I].
    apply ac_Inv_handleSuggestionClick, I.
Qed.

Lemma ac_Inv_initial : Inv accessToken initial.
Proof.
  split; [|split].
  - intros j q H. now destruct j.
  - intros k H. discriminate.
  - intros _. now split.
Qed.

Lemma ac_reachable_Inv (st : State) :
  reachable accessToken st -> Inv accessToken st.
Proof.
  induction 1; [apply ac_Inv_initial | now apply ac_Inv_step].
Qed.

Lemma ac_reachable_run (st : State) (es : list Event) :
  reachable accessToken st -> reachable accessToken (run accessToken st es).
Proof.
  revert st. induction es as [|e es IH]; intros st R; simpl; [exact R|].
  apply IH. now constructor.
Qed.

Lemma option_nat_eq_dec (a b : option nat) : {a = b} + {a <> b}.
Proof. decide equality. apply Nat.eq_dec. Qed.

(** A response for a closure that is not the latest issued changes
    nothing that shows. *)
Lemma superseded_response_discarded (st : State) (k : nat) (r : Response) :
  Inv accessToken st -> ~ latest_issued st k ->
  let st' := step accessToken st (Arrives k r) in
  suggestions st' = suggestions st /\ input st' = input st /\
  places st' = places st /\ highlightedIdx st' = highlightedIdx st.
Proof.
  intros (O & L & T) N. simpl.
  destruct (nth_error (queries st) k) as [q|] eqn:Hq; [|now auto].
  destruct (inflight q); [|now auto].
  assert (Ig : ignore q = true).
  { apply (O k q Hq). intros C. exact (N (L k C)). }
  destruct r as [fs|]; simpl; rewrite Ig; simpl; auto.
Qed.

(** The scenario of the specification: "A" is issued, then "AB" is
    issued before the answer to "A" arrives. *)
Lemma A_then_AB (tok : string) (rA : Response) (fsAB : list Suggestion) :
  truthy tok = true ->
  let issued :=
    run tok initial [Change "A"; TimerFires 0; Change "AB"; TimerFires 1] in
  suggestions (run tok issued
                 [Arrives 0 rA; Arrives 1 (Ok (Some fsAB))]) = fsAB /\
  suggestions (run tok issued
                 [Arrives 1 (Ok (Some fsAB)); Arrives 0 rA]) = fsAB.
Proof.
  intros Tok. destruct tok as [|c tok]; [discriminate Tok|].
  destruct rA as [fs|]; split; reflexivity.
Qed.

(** C2.  In every state the component can reach, a response that
    arrives for a query that is not the latest issued one is dropped
    without a trace (suggestions, text, places and cursor are as
    before), so a response changes the suggestion list only when it
    answers the latest issued, non-superseded query; and with "A" issued
    and then "AB" issued before the answer to "A" arrives, the list ends
    as the answer to "AB", in whichever order the two answers arrive. *)
Theorem autocomplete_last_issued_wins (st : State) (k : nat) (r : Response) :
  reachable accessToken st ->
  (~ latest_issued st k ->
     suggestions (step accessToken st (Arrives k r)) = suggestions st /\
     input (step accessToken st (Arrives k r)) = input st /\
     places (step accessToken st (Arrives k r)) = places st /\
     highlightedIdx (step accessToken st (Arrives k r)) = highlightedIdx st) /\
  (suggestions (step accessToken st (Arrives k r)) <> suggestions st ->
     latest_issued st k) /\
  (truthy accessToken = true ->
   forall (rA : Response) (fsAB : list Suggestion),
     let issued :=
       run accessToken initial
         [Change "A"; TimerFires 0; Change "AB"; TimerFires 1] in
     suggestions (run accessToken issued
                    [Arrives 0 rA; Arrives 1 (Ok (Some fsAB))]) = fsAB /\
     suggestions (run accessToken issued
                    [Arrives 1 (Ok (Some fsAB)); Arrives 0 rA]) = fsAB).
Proof.
  intros R. pose proof (ac_reachable_Inv _ R) as I.
  split; [|split].
  - intros N. exact (superseded_response_discarded st k r I N).
  - intros D.
    destruct (option_nat_eq_dec (cleanup st) (Some k)) as [C|C].
    + exact (proj1 (proj2 I) k C).
    + exfalso. apply D.
      apply (superseded_response_discarded st k r I).
      intros (C' & _). contradiction.
  - intros Tok rA fsAB. exact (A_then_AB accessToken rA fsAB Tok).
Qed.

(** C10.  With a non-blank text in the field, in every state the
    component can reach: when the suggestion list is empty, Add appends
    the trimmed text to the places and clears the field and the list,
    whatever the access token; when the list is not empty and no
    suggestion's name equals the trimmed text, Add leaves the whole
    state as it was. *)
Theorem handleAddPlace_free_text (st : State) :
  reachable accessToken st ->
  truthy (trim (input st)) = true ->
  (suggestions st = [] ->
     places (handleAddPlace accessToken st) =
       places st ++ [trim (input st)] /\
     input (handleAddPlace accessToken st) = EmptyString /\
     suggestions (handleAddPlace accessToken st) = []) /\
  (suggestions st <> [] ->
   (forall s, In s (suggestions st) ->
              Resolver.place_name s <> trim (input st)) ->
     handleAddPlace accessToken st = st).
Proof.
  intros R NB. pose proof (ac_reachable_Inv _ R) as (O & L & T).
  unfold handleAddPlace. rewrite NB. cbn [negb].
  split.
  - intros E. rewrite E. cbn [find length Nat.eqb].
    rewrite orb_true_r.
    assert (NE : String.eqb EmptyString (input st) = false).
    { destruct (input st); [discriminate NB | reflexivity]. }
    unfold setInput. cbn [input setSuggestions setPlaces]. rewrite NE.
    set (st0 := set_input EmptyString _).
    assert (O0 : others_ignored st0) by exact O.
    destruct (run_cleanup_all_ignored st0 O0) as (_ & _ & _ & In_ & _ & Pl).
    unfold suggestions_effect. rewrite In_. cbn.
    now rewrite Pl.
  - intros NE NoMatch.
    destruct (find (fun s => String.eqb (Resolver.place_name s)
                                       (trim (input st)))
                   (suggestions st)) as [m|] eqn:F.
    + exfalso. apply find_some in F. destruct F as [Hin Heq].
      apply String.eqb_eq in Heq. exact (NoMatch m Hin Heq).
    + destruct (truthy accessToken) eqn:Tok.
      * cbn [negb orb].
        destruct (suggestions st); [contradiction | reflexivity].
      * destruct (T Tok) as [E _]. contradiction.
Qed.

End AutocompleteFacts.

Lemma autocomplete_last_issued_wins_witness :
  let issued :=
    Autocomplete.run demo_token Autocomplete.initial
      [Autocomplete.Change "A"; Autocomplete.TimerFires 0;
       Autocomplete.Change "AB"; Autocomplete.TimerFires 1] in
  Autocomplete.suggestions
    (Autocomplete.step demo_token issued
       (Autocomplete.Arrives 0
          (Autocomplete.Ok (Some [paris_suggestion])))) = [].
Proof.
  intros issued.
  refine (proj1 (proj1 (autocomplete_last_issued_wins demo_token issued 0
            (Autocomplete.Ok (Some [paris_suggestion])) _) _)).
  - apply ac_reachable_run. constructor.
  - intros (C & _). discriminate C.
Defined.

Lemma handleAddPlace_free_text_witness :
  let st := Autocomplete.run demo_token Autocomplete.initial
              [Autocomplete.Change " Atlantis "] in
  Autocomplete.places (Autocomplete.handleAddPlace demo_token st) =
    ["Atlantis"%string].
Proof.
  intros st.
  refine (proj1 (proj1 (handleAddPlace_free_text demo_token st _ _) _)).
  - apply ac_reachable_run. constructor.
  - reflexivity.
  - reflexivity.
Defined.

Section AutocompleteMore.
Import Autocomplete Debounce.

Variable accessToken : string.

Lemma queries_run_cleanup (st : State) :
  forall j q', nth_error (queries (run_cleanup st)) j = Some q' ->
  exists q, nth_error (queries st) j = Some q /\
            (q' = q \/ q' = cancel q).
Proof.
  intros j q'. unfold run_cleanup. destruct (cleanup st) as [k|].
  - simpl. rewrite nth_error_update_nth. destruct (j =? k)%nat.
    + destruct (nth_error (queries st) j) as [q|]; simpl; [|discriminate].
      intros [= <-]. exists q. auto.
    + intros H. exists q'. auto.
  - intros H. exists q'. auto.
Qed.

Lemma Tidy_setInput (v : string) (st : State) :
  Tidy st -> Tidy (setInput accessToken v st).
Proof.
  intros [P A C B]. unfold setInput.
  destruct (String.eqb v (input st)); [now constructor|].
  set (st1 := run_cleanup (set_input v st)).
  assert (P1 : forall j q, nth_error (queries st1) j = Some q ->
                 timer q = Pending -> ignore q = false /\ inflight q = false).
  { intros j q' H T. destruct (queries_run_cleanup _ j q' H) as (q & Hq & [->| ->]).
    - exact (P j q Hq T).
    - unfold cancel in T. simpl in T. destruct (timer q); discriminate. }
  assert (A1 : forall j q, nth_error (queries st1) j = Some q ->
                 truthy (trim (q_input q)) = true).
  { intros j q' H. destruct (queries_run_cleanup _ j q' H) as (q & Hq & [->| ->]);
      exact (A j q Hq). }
  assert (C1 : highlightedIdx st1 = highlightedIdx st).
  { unfold st1, run_cleanup. simpl. now destruct (cleanup st). }
  assert (I1 : input st1 = v).
  { unfold st1, run_cleanup. simpl. now destruct (cleanup st). }
  unfold suggestions_effect.
  destruct (truthy (trim (input st1))) eqn:Bl; cbn [negb].
  - destruct (truthy accessToken); cbn [negb].
    + constructor; simpl.
      * intros j q H T.
        destruct (Nat.lt_ge_cases j (length (queries st1))) as [Lt|Ge].
        -- rewrite nth_error_app1 in H by assumption. exact (P1 j q H T).
        -- rewrite nth_error_app2 in H by assumption.
           destruct (j - length (queries st1))%nat as [|n]; simpl in H.
           ++ injection H as <-. now split.
           ++ now destruct n.
      * intros j q H.
        destruct (Nat.lt_ge_cases j (length (queries st1))) as [Lt|Ge].
        -- rewrite nth_error_app1 in H by assumption. exact (A1 j q H).
        -- rewrite nth_error_app2 in H by assumption.
           destruct (j - length (queries st1))%nat as [|n]; simpl in H.
           ++ injection H as <-. exact Bl.
           ++ now destruct n.
      * now rewrite C1.
      * intros F. rewrite Bl in F. discriminate.
    + constructor; simpl; auto. now rewrite C1.
  - constructor; simpl; auto. now rewrite C1.
Qed.

Lemma Tidy_handleSuggestionClick (place : string) (st : State) :
  Tidy st -> Tidy (handleSuggestionClick accessToken place st).
Proof.
  intros [P A C B]. unfold handleSuggestionClick. apply Tidy_setInput.
  constructor; simpl; auto.
Qed.

Lemma Tidy_handleAddPlace (st : State) :
  Tidy st -> Tidy (handleAddPlace accessToken st).
Proof.
  intros T. unfold handleAddPlace.
  destruct (negb (truthy (trim (input st)))); [exact T|].
  destruct (find (fun s => String.eqb (Resolver.place_name s)
                                     (trim (input st))) (suggestions st)).
  - now apply Tidy_handleSuggestionClick.
  - destruct (negb (truthy accessToken) ||
              (length (suggestions st) =? 0)%nat)%bool; [|exact T].
    now apply Tidy_handleSuggestionClick.
Qed.

Lemma held_not_blank (st : State) (k : nat) :
  Inv accessToken st -> Tidy st -> cleanup st = Some k ->
  truthy (trim (input st)) = true.
Proof.
  intros (_ & L & _) [_ A _ _] H.
  destruct (L k H) as (_ & _ & q & Hq & _ & <-). exact (A k q Hq).
Qed.

Lemma Tidy_step (st : State) (e : Event) :
  Inv accessToken st -> Tidy st -> Tidy (step accessToken st e).
Proof.
  intros I T. destruct e as [v|k|k r| |idx|idx|key]; simpl.
  - destruct (Tidy_setInput v st T) as [P A C B].
    constructor; simpl; auto. lia.
  - destruct (nth_error (queries st) k) as [q|] eqn:Hq; [|exact T].
    destruct (timer q) eqn:Tq; try exact T.
    destruct T as [P A C B]. constructor; simpl; auto.
    + intros j q'. rewrite nth_error_update_nth.
      destruct (j =? k)%nat; [|apply P].
      destruct (nth_error (queries st) j); simpl; [|discriminate].
      intros [= <-]. discriminate.
    + intros j q'. rewrite nth_error_update_nth.
      destruct (j =? k)%nat eqn:E; [|apply A].
      destruct (nth_error (queries st) j) as [q0|] eqn:H0; simpl; [|discriminate].
      intros [= <-]. exact (A j q0 H0).
  - destruct (nth_error (queries st) k) as [q|] eqn:Hq; [|exact T].
    destruct (inflight q) eqn:Fq; [|exact T].
    set (qs := update_nth k _ (queries st)).
    assert (Q : forall j q', nth_error qs j = Some q' ->
              exists q0, nth_error (queries st) j = Some q0 /\
                         timer q' = timer q0 /\ ignore q' = ignore q0 /\
                         q_input q' = q_input q0 /\
                         (inflight q' = inflight q0 \/ inflight q' = false)).
    { intros j q'. unfold qs. rewrite nth_error_update_nth.
      destruct (j =? k)%nat.
      - destruct (nth_error (queries st) j) as [q0|]; simpl; [|discriminate].
        intros [= <-]. exists q0. simpl. auto 10.
      - intros H. exists q'. auto 10. }
    assert (Keep : Tidy (set_queries qs st)).
    { destruct T as [P A C B]. constructor; simpl; auto.
      - intros j q' H Tq. destruct (Q j q' H) as (q0 & H0 & E1 & E2 & _ & E4).
        rewrite E1 in Tq. destruct (P j q0 H0 Tq) as [X Y].
        split; [congruence|]. destruct E4; congruence.
      - intros j q' H. destruct (Q j q' H) as (q0 & H0 & _ & _ & E3 & _).
        rewrite E3. exact (A j q0 H0). }
    destruct (ignore q) eqn:Ig.
    + destruct r; simpl; rewrite Ig; exact Keep.
    + assert (C : cleanup st = Some k).
      { destruct (option_nat_eq_dec (cleanup st) (Some k)) as [E|N]; [exact E|].
        pose proof (proj1 I k q Hq N). congruence. }
      pose proof (held_not_blank st k I T C) as NB.
      destruct Keep as [P A Cu B].
      destruct r; simpl; rewrite Ig; simpl; constructor; simpl; auto;
        intros F; simpl in F; congruence.
  - now apply Tidy_handleAddPlace.
  - destruct (nth_error (suggestions st) idx); [|exact T].
    now apply Tidy_handleSuggestionClick.
  - destruct (idx <? length (suggestions st))%nat; [|exact T].
    destruct T as [P A C B]. constructor; simpl; auto. lia.
  - unfold onKeyDown.
    destruct (Nat.ltb_spec 0 (length (suggestions st))) as [L|L]; [|exact T].
    destruct key; try exact T.
    + destruct T as [P A C B]. constructor; simpl; auto. lia.
    + destruct T as [P A C B]. constructor; simpl; auto. lia.
    + match goal with |- context [if ?c then _ else _] => destruct c end;
        [|exact T].
      match goal with |- context [match ?c with Some _ => _ | None => _ end] =>
        destruct c end; [|exact T].
      now apply Tidy_handleSuggestionClick.
Qed.

Lemma Tidy_initial : Tidy initial.
Proof.
  constructor; simpl; auto.
  - intros j q H. now destruct j.
  - intros j q H. now destruct j.
  - lia.
Qed.

Lemma reachable_Tidy (st : State) :
  reachable accessToken st -> Tidy st.
Proof.
  induction 1 as [|st e R IH]; [apply Tidy_initial|].
  apply Tidy_step; [now apply ac_reachable_Inv | exact IH].
Qed.

Lemma filter_nil_iff {A : Type} (p : A -> bool) (l : list A) :
  (forall j x, nth_error l j = Some x -> p x = false) -> filter p l = [].
Proof.
  induction l as [|x l IH]; intros H; [reflexivity|]. simpl.
  rewrite (H O x eq_refl). apply IH. intros j y Hy. exact (H (S j) y Hy).
Qed.

Lemma filter_at_most_one {A : Type} (p : A -> bool) (l : list A) (k : nat) :
  (forall j x, nth_error l j = Some x -> p x = true -> j = k) ->
  (length (filter p l) <= 1)%nat.
Proof.
  revert k. induction l as [|x l IH]; intros k H; simpl; [lia|].
  destruct (p x) eqn:Px.
  - rewrite filter_nil_iff; [simpl; lia|].
    intros j y Hy. destruct (p y) eqn:Py; [|reflexivity].
    pose proof (H O x eq_refl Px). pose proof (H (S j) y Hy Py). lia.
  - destruct k as [|k].
    + rewrite filter_nil_iff; [simpl; lia|].
      intros j y Hy. destruct (p y) eqn:Py; [|reflexivity].
      pose proof (H (S j) y Hy Py). lia.
    + apply (IH k). intros j y Hy Py.
      pose proof (H (S j) y Hy Py). lia.
Qed.

Lemma filter_length_map {A : Type} (p : A -> bool) (l : list A) :
  length (filter p l) = length (filter (fun b : bool => b) (map p l)).
Proof.
  induction l as [|x l IH]; [reflexivity|]. simpl.
  destruct (p x); simpl; now rewrite IH.
Qed.

Lemma map_update_nth_same {A B : Type} (g : A -> B) (f : A -> A) (l : list A)
    (k : nat) :
  (forall x, g (f x) = g x) -> map g (update_nth k f l) = map g l.
Proof.
  intros H. revert k. induction l as [|x l IH]; intros [|k]; simpl;
    rewrite ?H, ?IH; reflexivity.
Qed.

Lemma filter_length_raise {A : Type} (p : A -> bool) (f : A -> A)
    (l : list A) (k : nat) (x : A) :
  nth_error l k = Some x -> p x = false -> p (f x) = true ->
  length (filter p (update_nth k f l)) = S (length (filter p l)).
Proof.
  revert k. induction l as [|y l IH]; intros [|k] H F T; simpl in *;
    try discriminate.
  - injection H as ->. now rewrite F, T.
  - destruct (p y); simpl; now rewrite (IH k H F T).
Qed.

Lemma filter_length_same_map {A : Type} (p : A -> bool) (l l' : list A) :
  map p l = map p l' -> length (filter p l) = length (filter p l').
Proof.
  intros E. rewrite (filter_length_map p l), (filter_length_map p l').
  now rewrite E.
Qed.

Lemma under_way_setInput (v : string) (st : State) :
  under_way (setInput accessToken v st) = under_way st.
Proof.
  unfold under_way, setInput.
  destruct (String.eqb v (input st)); [reflexivity|].
  set (st1 := run_cleanup (set_input v st)).
  assert (E : map inflight (queries st1) = map inflight (queries st)).
  { unfold st1, run_cleanup. cbn [cleanup set_input queries].
    destruct (cleanup st); [|reflexivity].
    cbn [queries set_cleanup set_queries]. now apply map_update_nth_same. }
  apply filter_length_same_map in E. rewrite <- E.
  unfold suggestions_effect.
  destruct (negb (truthy (trim (input st1)))); [reflexivity|].
  destruct (negb (truthy accessToken)); [reflexivity|].
  cbn [queries set_cleanup set_queries]. rewrite filter_app, length_app.
  cbn [filter inflight length]. lia.
Qed.

Lemma under_way_typing (vs : list string) (st : State) :
  under_way (run accessToken st (map Change vs)) = under_way st.
Proof.
  revert st. induction vs as [|v vs IH]; intros st; [reflexivity|].
  cbn [map run fold_left]. fold (run accessToken (step accessToken st (Change v))
                                     (map Change vs)).
  rewrite IH. cbn [step]. apply under_way_setInput.
Qed.

Lemma pending_is_latest (st : State) (k : nat) (q : Query) :
  Inv accessToken st -> Tidy st ->
  nth_error (queries st) k = Some q -> timer q = Pending ->
  latest_issued st k.
Proof.
  intros (O & L & _) [P _ _ _] Hq Tq. apply L.
  destruct (option_nat_eq_dec (cleanup st) (Some k)) as [E|N]; [exact E|].
  pose proof (O k q Hq N). destruct (P k q Hq Tq). congruence.
Qed.

(** X10.  The debounce of the suggestions effect, in every state the
    component can reach: at most one timer waits, and it belongs to the
    latest closure; typing alone, however much, sends no request; and a
    timer that fires to any effect is the latest closure's and sends
    exactly one request, for the text now in the field. *)
Theorem suggestions_debounced (st : State) :
  reachable accessToken st ->
  (waiting st <= 1)%nat /\
  (forall k q, nth_error (queries st) k = Some q -> timer q = Pending ->
               latest_issued st k) /\
  (forall vs, under_way (run accessToken st (map Change vs)) = under_way st) /\
  (forall k, step accessToken st (TimerFires k) <> st ->
     latest_issued st k /\
     under_way (step accessToken st (TimerFires k)) = S (under_way st)).
Proof.
  intros R. pose proof (ac_reachable_Inv _ _ R) as I.
  pose proof (reachable_Tidy st R) as T.
  split; [|split; [|split]].
  - unfold waiting. destruct (cleanup st) as [k0|] eqn:C.
    + apply (filter_at_most_one _ _ k0). intros j q Hq Pq.
      assert (Tq : timer q = Pending)
        by (unfold is_pending in Pq; destruct (timer q); congruence).
      destruct (pending_is_latest st j q I T Hq Tq) as (C' & _). congruence.
    + rewrite filter_nil_iff; [simpl; lia|]. intros j q Hq.
      destruct (is_pending q) eqn:Pq; [|reflexivity].
      assert (Tq : timer q = Pending)
        by (unfold is_pending in Pq; destruct (timer q); congruence).
      destruct (pending_is_latest st j q I T Hq Tq) as (C' & _). congruence.
  - intros k q Hq Tq. exact (pending_is_latest st k q I T Hq Tq).
  - intros vs. apply under_way_typing.
  - intros k. simpl.
    destruct (nth_error (queries st) k) as [q|] eqn:Hq; [|congruence].
    destruct (timer q) eqn:Tq; try congruence.
    intros _. split; [exact (pending_is_latest st k q I T Hq Tq)|].
    unfold under_way. simpl.
    apply (filter_length_raise inflight _ _ k q Hq); [|reflexivity].
    exact (proj2 (tidy_pending st T k q Hq Tq)).
Qed.

Lemma arrives_keeps_text (st : State) (k : nat) (r : Response) :
  input (step accessToken st (Arrives k r)) = input st /\
  places (step accessToken st (Arrives k r)) = places st.
Proof.
  simpl. destruct (nth_error (queries st) k) as [q|]; [|auto].
  destruct (inflight q); [|auto].
  destruct r; simpl; destruct (ignore q); auto.
Qed.

Lemma blank_no_list (st : State) :
  Inv accessToken st -> Tidy st -> truthy (trim (input st)) = false ->
  suggestions st = [] /\ cleanup st = None /\
  (forall k r, suggestions (step accessToken st (Arrives k r)) = []).
Proof.
  intros I T B.
  split; [exact (tidy_blank st T B)|]. split.
  - destruct (cleanup st) as [k|] eqn:C; [|reflexivity].
    pose proof (held_not_blank st k I T C). congruence.
  - intros k r.
    apply (tidy_blank _ (Tidy_step st (Arrives k r) I T)).
    now rewrite (proj1 (arrives_keeps_text st k r)).
Qed.

(** X11.  In every state the component can reach, a text field that is
    empty or all white space means an empty suggestion list and no
    closure whose response would be taken: whatever response arrives,
    the list stays empty. *)
Theorem blank_field_has_no_list (st : State) :
  reachable accessToken st -> truthy (trim (input st)) = false ->
  suggestions st = [] /\ cleanup st = None /\
  (forall k r, suggestions (step accessToken st (Arrives k r)) = []).
Proof.
  intros R B. apply blank_no_list; [now apply ac_reachable_Inv | | exact B].
  now apply reachable_Tidy.
Qed.

Lemma blank_empty : truthy (trim EmptyString) = false.
Proof. reflexivity. Qed.

Lemma handleSuggestionClick_fields (place : string) (st : State) :
  Inv accessToken st -> Tidy st ->
  let st' := handleSuggestionClick accessToken place st in
  places st' = places st ++ [place] /\ input st' = EmptyString /\
  suggestions st' = [] /\ cleanup st' = None /\
  highlightedIdx st' = highlightedIdx st.
Proof.
  intros I T. pose proof I as (O & _). cbv zeta.
  unfold handleSuggestionClick, setInput.
  cbn [input setSuggestions setPlaces].
  destruct (String.eqb_spec EmptyString (input st)) as [E|E].
  - cbn [places input suggestions cleanup highlightedIdx].
    split; [reflexivity|]. split; [now symmetry|]. split; [reflexivity|].
    split; [|reflexivity]. change (cleanup st = None).
    destruct (cleanup st) as [k|] eqn:C; [|reflexivity].
    pose proof (held_not_blank st k I T C) as NB. rewrite <- E in NB.
    discriminate.
  - set (st0 := set_input EmptyString _).
    assert (O0 : others_ignored st0) by exact O.
    destruct (run_cleanup_all_ignored st0 O0) as (C & _ & _ & In_ & _ & Pl).
    unfold suggestions_effect. rewrite In_.
    change (input st0) with EmptyString. rewrite blank_empty.
    cbn [negb places input suggestions cleanup highlightedIdx setSuggestions].
    split; [exact Pl|]. split; [exact In_|]. split; [reflexivity|].
    split; [exact C|].
    unfold run_cleanup. destruct (cleanup st0); reflexivity.
Qed.

(** An event that is not typing, on a blank field, leaves text and
    places alone, and the list empty. *)
Lemma idle_step (st : State) (e : Event) :
  Inv accessToken st -> Tidy st -> truthy (trim (input st)) = false ->
  (forall v, e <> Change v) ->
  let st' := step accessToken st e in
  input st' = input st /\ places st' = places st /\ suggestions st' = [].
Proof.
  intros I T B NC. cbv zeta.
  destruct (blank_no_list st I T B) as (S & C & A).
  destruct e as [v|k|k r| |idx|idx|key].
  - now destruct (NC v).
  - cbn [step]. destruct (nth_error (queries st) k) as [q|]; [|auto].
    destruct (timer q); auto.
  - destruct (arrives_keeps_text st k r) as [X Y]. auto.
  - cbn [step]. unfold handleAddPlace. rewrite B. cbn [negb]. auto.
  - cbn [step]. rewrite S. destruct idx; cbn [nth_error]; auto.
  - cbn [step]. rewrite S. cbn [length Nat.ltb Nat.leb]. auto.
  - cbn [step]. unfold onKeyDown. rewrite S. cbn [length Nat.ltb Nat.leb]. auto.
Qed.

Lemma idle_run (es : list Event) :
  forall st : State,
  Inv accessToken st -> Tidy st -> truthy (trim (input st)) = false ->
  (forall v, ~ In (Change v) es) ->
  input (run accessToken st es) = input st /\
  places (run accessToken st es) = places st /\
  suggestions (run accessToken st es) = [].
Proof.
  induction es as [|e es IH]; intros st I T B NC.
  - cbn [run fold_left]. split; [reflexivity|]. split; [reflexivity|].
    exact (proj1 (blank_no_list st I T B)).
  - cbn [run fold_left].
    fold (run accessToken (step accessToken st e) es).
    destruct (idle_step st e I T B) as (X & Y & Z).
    { intros v E. apply (NC v). left. exact E. }
    destruct (IH (step accessToken st e)) as (X' & Y' & Z').
    + now apply ac_Inv_step.
    + now apply Tidy_step.
    + now rewrite X.
    + intros v H. apply (NC v). now right.
    + split; [congruence|]. split; [congruence | exact Z'].
Qed.

(** X12.  A click on a suggestion appends its name to the places,
    empties the text field and closes the list; and whatever happens
    next that is not typing (late responses, timers, keys, clicks on
    Add) leaves places, field and list that way. *)
Theorem pick_closes_list (st : State) (idx : nat) (s : Suggestion)
    (es : list Event) :
  reachable accessToken st ->
  nth_error (suggestions st) idx = Some s ->
  (forall v, ~ In (Change v) es) ->
  let picked := step accessToken st (ClickSuggestion idx) in
  places picked = places st ++ [Resolver.place_name s] /\
  input picked = EmptyString /\ suggestions picked = [] /\
  places (run accessToken picked es) = places st ++ [Resolver.place_name s] /\
  input (run accessToken picked es) = EmptyString /\
  suggestions (run accessToken picked es) = [].
Proof.
  intros R Hs NC. cbv zeta.
  pose proof (ac_reachable_Inv _ _ R) as I.
  pose proof (reachable_Tidy st R) as T.
  assert (I' := ac_Inv_step accessToken st (ClickSuggestion idx) I).
  assert (T' := Tidy_step st (ClickSuggestion idx) I T).
  revert I' T'. cbn [step]. rewrite Hs. intros I' T'.
  destruct (handleSuggestionClick_fields (Resolver.place_name s) st I T)
    as (P & In_ & S & _).
  split; [exact P|]. split; [exact In_|]. split; [exact S|].
  destruct (idle_run es _ I' T') as (X & Y & Z).
  - rewrite In_. reflexivity.
  - exact NC.
  - split; [congruence|]. split; [congruence | exact Z].
Qed.

Lemma find_name (name : string) (l : list Suggestion) (m : Suggestion) :
  find (fun s => String.eqb (Resolver.place_name s) name) l = Some m ->
  Resolver.place_name m = name.
Proof. intros F. apply find_some in F. now apply String.eqb_eq. Qed.

(** X13.  What Add does, in every state the component can reach: when
    the trimmed text is not empty and either equals the name of a
    suggestion or there is no suggestion, it appends exactly the trimmed
    text and empties the field and the list; in every other case it
    changes nothing. *)
Theorem handleAddPlace_outcomes (st : State) :
  reachable accessToken st ->
  let trimmed := trim (input st) in
  let found := existsb (fun s => String.eqb (Resolver.place_name s) trimmed)
                       (suggestions st) in
  if truthy trimmed && (found || (length (suggestions st) =? 0)%nat)
  then places (handleAddPlace accessToken st) = places st ++ [trimmed] /\
       input (handleAddPlace accessToken st) = EmptyString /\
       suggestions (handleAddPlace accessToken st) = []
  else handleAddPlace accessToken st = st.
Proof.
  intros R. cbv zeta.
  pose proof (ac_reachable_Inv _ _ R) as I.
  pose proof (reachable_Tidy st R) as T.
  unfold handleAddPlace.
  destruct (truthy (trim (input st))) eqn:NB; cbn [negb andb]; [|reflexivity].
  destruct (find (fun s => String.eqb (Resolver.place_name s) (trim (input st)))
                 (suggestions st)) as [m|] eqn:F.
  - assert (Ex : existsb (fun s => String.eqb (Resolver.place_name s)
                                     (trim (input st))) (suggestions st) = true).
    { apply existsb_exists. exists m. apply find_some in F. exact F. }
    rewrite Ex. cbn [orb]. rewrite (find_name _ _ _ F).
    destruct (handleSuggestionClick_fields (trim (input st)) st I T)
      as (P & In_ & S & _).
    auto.
  - assert (Ex : existsb (fun s => String.eqb (Resolver.place_name s)
                                     (trim (input st))) (suggestions st) = false).
    { destruct (existsb (fun s => String.eqb (Resolver.place_name s)
                                   (trim (input st))) (suggestions st))
        eqn:Ex; [|reflexivity].
      apply existsb_exists in Ex. destruct Ex as (x & Hx & Px).
      pose proof (find_none _ _ F x Hx) as N. cbv beta in N. congruence. }
    rewrite Ex. cbn [orb].
    destruct (length (suggestions st) =? 0)%nat eqn:Z.
    + rewrite orb_true_r.
      destruct (handleSuggestionClick_fields (trim (input st)) st I T)
        as (P & In_ & S & _).
      auto.
    + rewrite orb_false_r.
      destruct (truthy accessToken) eqn:Tok; [reflexivity|].
      destruct (proj2 (proj2 I) Tok) as [E _]. rewrite E in Z. discriminate.
Qed.

(** X14.  The keyboard cursor, in every state the component can reach:
    it is never below -1; without suggestions no key does anything; with
    suggestions, ArrowDown moves it one down and stops at the last
    entry, ArrowUp moves it one up and stops at the first, Enter picks
    the entry it is on, or the first one when it is on none, and does
    nothing when the cursor is beyond the list. *)
Theorem keyboard_cursor (st : State) :
  reachable accessToken st ->
  let n := Z.of_nat (length (suggestions st)) in
  let h := highlightedIdx st in
  (-1 <= h)%Z /\
  (suggestions st = [] -> forall key, onKeyDown accessToken key st = st) /\
  (suggestions st <> [] ->
     (0 <= highlightedIdx (onKeyDown accessToken ArrowDown st) <= n - 1)%Z /\
     (h < n - 1 ->
        highlightedIdx (onKeyDown accessToken ArrowDown st) = h + 1)%Z /\
     highlightedIdx (onKeyDown accessToken ArrowUp st) = Z.max (h - 1) 0 /\
     (forall s, nth_error (suggestions st)
                  (Z.to_nat (if (h =? -1)%Z then 0 else h)) = Some s ->
        onKeyDown accessToken Enter st =
        handleSuggestionClick accessToken (Resolver.place_name s) st) /\
     (n <= h -> onKeyDown accessToken Enter st = st)%Z).
Proof.
  intros R. cbv zeta. pose proof (tidy_cursor st (reachable_Tidy st R)) as C.
  split; [exact C|]. split.
  - intros E key. unfold onKeyDown. now rewrite E.
  - intros NE. unfold onKeyDown.
    destruct (suggestions st) as [|s0 l] eqn:E; [contradiction|].
    rewrite <- E. assert (L : (1 <= length (suggestions st))%nat)
      by (rewrite E; simpl; lia).
    destruct (Nat.ltb_spec 0 (length (suggestions st))) as [_|]; [|lia].
    cbn [highlightedIdx setHighlightedIdx].
    split; [lia|]. split; [lia|]. split; [reflexivity|]. split.
    + intros s Hs.
      assert (Z.to_nat (if (highlightedIdx st =? -1)%Z then 0%Z
                        else highlightedIdx st) < length (suggestions st))%nat
        by (apply nth_error_Some; congruence).
      rewrite Hs.
      destruct (Z.eqb_spec (highlightedIdx st) (-1)).
      * destruct (Z.leb_spec 0 0); [|lia].
        destruct (Z.ltb_spec 0 (Z.of_nat (length (suggestions st)))); [|lia].
        reflexivity.
      * destruct (Z.leb_spec 0 (highlightedIdx st)); [|lia].
        destruct (Z.ltb_spec (highlightedIdx st)
                    (Z.of_nat (length (suggestions st)))); [|lia].
        reflexivity.
    + intros G.
      destruct (Z.eqb_spec (highlightedIdx st) (-1)); [lia|].
      destruct (Z.ltb_spec (highlightedIdx st)
                  (Z.of_nat (length (suggestions st)))); [lia|].
      now rewrite andb_false_r.
Qed.

End AutocompleteMore.

Lemma par_answered_reachable : Autocomplete.reachable demo_token par_answered.
Proof. apply ac_reachable_run. constructor. Qed.

Lemma suggestions_debounced_witness :
  (Debounce.waiting
     (Autocomplete.run demo_token Autocomplete.initial
        [Autocomplete.Change "P"; Autocomplete.Change "Pa"]) <= 1)%nat.
Proof.
  refine (proj1 (suggestions_debounced demo_token _ _)).
  apply ac_reachable_run. constructor.
Defined.

Lemma blank_field_has_no_list_witness :
  Autocomplete.suggestions
    (Autocomplete.step demo_token par_answered (Autocomplete.Change "  ")) = [].
Proof.
  refine (proj1 (blank_field_has_no_list demo_token _ _ _)).
  - constructor. exact par_answered_reachable.
  - reflexivity.
Defined.

Lemma pick_closes_list_witness :
  Autocomplete.places
    (Autocomplete.run demo_token
       (Autocomplete.step demo_token par_answered
          (Autocomplete.ClickSuggestion 0))
       [Autocomplete.Arrives 0 (Autocomplete.Ok (Some [paris_suggestion]));
        Autocomplete.ClickAdd]) =
  ["Paris, France"%string].
Proof.
  refine (proj1 (proj2 (proj2 (proj2
    (pick_closes_list demo_token par_answered 0 paris_suggestion
       [Autocomplete.Arrives 0 (Autocomplete.Ok (Some [paris_suggestion]));
        Autocomplete.ClickAdd]
       par_answered_reachable eq_refl _))))).
  intros v [H|[H|[]]]; discriminate.
Defined.

Lemma handleAddPlace_outcomes_witness :
  Autocomplete.handleAddPlace demo_token par_answered = par_answered.
Proof.
  exact (handleAddPlace_outcomes demo_token par_answered
           par_answered_reachable).
Defined.

Lemma keyboard_cursor_witness :
  (-1 <= Autocomplete.highlightedIdx par_answered)%Z.
Proof.
  exact (proj1 (keyboard_cursor demo_token par_answered
                  par_answered_reachable)).
Defined.

Section AnimationFacts.
Import Animation.

Local Abbreviation count := (count_occ Nat.eq_dec).

Lemma core_fields (s s' : Session) :
  core s' = core s ->
  s_coords s' = s_coords s /\ s_speed s' = s_speed s /\
  progressCoords s' = progressCoords s /\ i s' = i s /\
  (forall g, segment s = Some g ->
     exists g', segment s' = Some g' /\ start g' = start g /\
                end_ g' = end_ g /\ duration g' = duration g).
Proof.
  unfold core. intros [= E1 E2 E3 E4 E5]. repeat (split; [assumption|]).
  intros g Hg. rewrite Hg in E5. simpl in E5.
  destruct (segment s') as [g'|]; [|discriminate].
  simpl in E5. injection E5 as S1 S2 S3. exists g'. auto.
Qed.

Lemma session_ok_mono (mv fr mv' fr' : list nat) (sid : nat) (s s' : Session) :
  core s' = core s ->
  (count mv' sid <= count mv sid)%nat ->
  (count fr' sid <= count fr sid)%nat ->
  session_ok mv fr sid s -> session_ok mv' fr' sid s'.
Proof.
  intros C Hm Hf [K1 K2 K3 K4 K5 K6 K7].
  destruct (core_fields _ _ C) as (E1 & E2 & E3 & E4 & E5).
  unfold pending in *. rewrite count_occ_app in *.
  constructor; rewrite ?E1, ?E2, ?E3, ?E4; auto.
  - unfold pending. rewrite count_occ_app. lia.
  - intros Hin. apply K5. apply count_occ_pos_In.
    apply count_occ_pos_In in Hin. lia.
  - intros Hin.
    destruct K6 as (g & Hg & R1 & R2 & R3 & R4).
    { apply count_occ_pos_In. apply count_occ_pos_In in Hin. lia. }
    destruct (E5 g Hg) as (g' & Hg' & S1 & S2 & S3).
    exists g'. rewrite S1, S2, S3. auto.
Qed.

Lemma sessions_ok_mono (ss ss' : list Session) (mv mv' fr fr' : list nat) :
  length ss' = length ss ->
  (forall sid s', nth_error ss' sid = Some s' ->
     exists s, nth_error ss sid = Some s /\ core s' = core s) ->
  (forall sid, count mv' sid <= count mv sid)%nat ->
  (forall sid, count fr' sid <= count fr sid)%nat ->
  sessions_ok ss mv fr -> sessions_ok ss' mv' fr'.
Proof.
  intros L C Hm Hf [A B]. split.
  - intros sid s' Hs'. destruct (C sid s' Hs') as (s & Hs & E).
    exact (session_ok_mono _ _ _ _ _ _ _ E (Hm sid) (Hf sid) (A sid s Hs)).
  - intros sid Hin. rewrite L. apply B.
    apply count_occ_pos_In. apply count_occ_pos_In in Hin.
    rewrite count_occ_app in *. specialize (Hm sid). specialize (Hf sid). lia.
Qed.

(** Updating one session without touching its core. *)
Lemma update_nth_core (k : nat) (f : Session -> Session) (ss : list Session) :
  (forall s, core (f s) = core s) ->
  forall sid s', nth_error (update_nth k f ss) sid = Some s' ->
    exists s, nth_error ss sid = Some s /\ core s' = core s.
Proof.
  intros C sid s'. rewrite nth_error_update_nth.
  destruct (sid =? k)%nat.
  - destruct (nth_error ss sid) as [s|]; simpl; [|discriminate].
    intros [= <-]. exists s. auto.
  - intros H. exists s'. auto.
Qed.

Lemma quieter_refl (w : World) : quieter w w.
Proof.
  constructor; auto. intros j s' H. exists s'. auto.
Qed.

Lemma quieter_trans (w1 w2 w3 : World) :
  quieter w1 w2 -> quieter w2 w3 -> quieter w1 w3.
Proof.
  intros [L1 C1 M1 F1 S1] [L2 C2 M2 F2 S2]. constructor.
  - congruence.
  - intros j s3 H3. destruct (C2 j s3 H3) as (s2 & H2 & E2).
    destruct (C1 j s2 H2) as (s1 & H1 & E1).
    exists s1. split; [assumption | congruence].
  - intros j. specialize (M1 j). specialize (M2 j). lia.
  - intros j. specialize (F1 j). specialize (F2 j). lia.
  - congruence.
Qed.

Lemma Inv0_quieter (w w' : World) : quieter w w' -> Inv0 w -> Inv0 w'.
Proof.
  intros [L C M F S] [A B]. split.
  - exact (sessions_ok_mono _ _ _ _ _ _ L C M F A).
  - now rewrite S.
Qed.

Lemma same_closures_refl (w : World) : same_closures w w.
Proof. constructor; auto. intros j s H. exists s. auto. Qed.

Lemma same_closures_trans (w1 w2 w3 : World) :
  same_closures w1 w2 -> same_closures w2 w3 -> same_closures w1 w3.
Proof.
  intros [A1 B1 C1 D1 E1] [A2 B2 C2 D2 E2]. constructor; try congruence.
  intros j s1 H1. destruct (A1 j s1 H1) as (s2 & H2 & E & E').
  destruct (A2 j s2 H2) as (s3 & H3 & F & F').
  exists s3. repeat split; congruence.
Qed.

Lemma Inv_same_closures (w w' : World) :
  same_closures w w' -> Inv0 w' -> Inv w -> Inv w'.
Proof.
  intros [A B C D _] [I1 I2] (_ & _ & H). split; [|split]; auto.
  intros sid Hh. rewrite B in Hh. destruct (H sid Hh) as (s & Hs & E1 & E2).
  destruct (A sid s Hs) as (s' & Hs' & F1 & F2).
  exists s'. repeat split; congruence.
Qed.

Lemma Inv_Inv0 (w : World) : Inv w -> Inv0 w.
Proof. intros (A & B & _). now split. Qed.

(** Updating one session without touching its core, in a world. *)
Lemma quieter_modify (sid : nat) (f : Session -> Session) (w : World) :
  (forall s, core (f s) = core s) -> quieter w (modify sid f w).
Proof.
  intros C. constructor; simpl; auto.
  - apply length_update_nth.
  - now apply update_nth_core.
Qed.

Lemma count_map_snd_filter_le (p : nat * nat -> bool) (q : list (nat * nat))
    (j : nat) :
  (count (map snd (filter p q)) j <= count (map snd q) j)%nat.
Proof.
  induction q as [|x q IH]; simpl; [lia|].
  destruct (p x); simpl; destruct (Nat.eq_dec (snd x) j); lia.
Qed.

Lemma quieter_cancelAnimationFrame (id : nat) (w : World) :
  quieter w (cancelAnimationFrame id w).
Proof.
  constructor; simpl; auto.
  - intros j s' H. exists s'. auto.
  - intros j. apply count_map_snd_filter_le.
Qed.

Ltac quieter_fields :=
  constructor; simpl; auto; intros ? s' ?; exists s'; auto.

Lemma quieter_cleanup (sid : nat) (w : World) : quieter w (cleanup sid w).
Proof.
  unfold cleanup.
  destruct (nth_error (sessions w) sid) as [s|]; [|apply quieter_refl].
  destruct (cleanupDone s); [apply quieter_refl|].
  set (w1 := modify sid (set_cleanupDone true) w).
  assert (Q1 : quieter w w1) by (apply quieter_modify; reflexivity).
  set (w2 := match animationFrame s with
             | Some id => if (id =? 0)%nat then w1 else cancelAnimationFrame id w1
             | None => w1
             end).
  assert (Q2 : quieter w w2).
  { subst w2. destruct (animationFrame s) as [id|]; [|exact Q1].
    destruct (id =? 0)%nat; [exact Q1|].
    exact (quieter_trans _ _ _ Q1 (quieter_cancelAnimationFrame id w1)). }
  set (w3 := modify sid (set_marker_shown false) w2).
  assert (Q3 : quieter w w3).
  { apply (quieter_trans _ _ _ Q2). apply quieter_modify. reflexivity. }
  set (w4 := if routeLayerAdded s && is_some (route_layer w3)
             then with_route_layer None w3 else w3).
  assert (Q4 : quieter w w4).
  { subst w4. destruct (routeLayerAdded s && is_some (route_layer w3));
      [|exact Q3].
    apply (quieter_trans _ _ _ Q3). quieter_fields. }
  destruct (routeSourceAdded s && is_some (route_source w4)); [|exact Q4].
  apply (quieter_trans _ _ _ Q4). quieter_fields.
Qed.

Lemma quieter_place_markers_effect (w : World) :
  quieter w (place_markers_effect w).
Proof.
  unfold place_markers_effect.
  destruct (negb (map_ready w) || (length (coords w) =? 0)%nat);
    [apply quieter_refl | quieter_fields].
Qed.

Lemma firstn_1_nth (cs : list Coordinate) :
  (1 <= length cs)%nat -> [nth 0 cs origin] = firstn 1 cs.
Proof. destruct cs; simpl; [lia | reflexivity]. Qed.

Lemma not_pending_beyond (ss : list Session) (mv fr : list nat) :
  sessions_ok ss mv fr ->
  count mv (length ss) = O /\ count fr (length ss) = O.
Proof.
  intros [_ B].
  destruct (Nat.eq_dec (count (mv ++ fr) (length ss)) 0) as [E|N].
  - rewrite count_occ_app in E. lia.
  - exfalso. assert (H : In (length ss) (mv ++ fr))
      by (apply count_occ_pos_In; lia).
    specialize (B _ H). lia.
Qed.

(** A new session, waiting for its [moveend]. *)
Lemma sessions_ok_spawn (ss : list Session) (mv fr : list nat) (new : Session) :
  sessions_ok ss mv fr ->
  (2 <= length (s_coords new))%nat ->
  progressCoords new = firstn 1 (s_coords new) ->
  i new = O ->
  is_stop (s_speed new) ->
  sessions_ok (ss ++ [new]) (mv ++ [length ss]) fr.
Proof.
  intros A N P I0 St.
  destruct (not_pending_beyond _ _ _ A) as [Zm Zf].
  destruct A as [A B]. split.
  - intros sid s Hs.
    destruct (Nat.lt_ge_cases sid (length ss)) as [Lt|Ge].
    + rewrite nth_error_app1 in Hs by assumption.
      apply (session_ok_mono mv fr _ _ sid s s eq_refl);
        [| lia | exact (A sid s Hs)].
      rewrite count_occ_app. simpl.
      destruct (Nat.eq_dec (length ss) sid); lia.
    + rewrite nth_error_app2 in Hs by assumption.
      destruct (sid - length ss)%nat as [|d] eqn:D.
      * assert (sid = length ss) by lia. subst sid.
        simpl in Hs. injection Hs as <-.
        constructor; rewrite ?I0; auto.
        -- lia.
        -- unfold pending. rewrite !count_occ_app. simpl.
           destruct (Nat.eq_dec (length ss) (length ss)); lia.
        -- intros Hin. apply count_occ_pos_In in Hin. lia.
      * simpl in Hs. now destruct d.
  - intros sid Hin. rewrite length_app. simpl.
    rewrite <- app_assoc in Hin. apply in_app_or in Hin.
    destruct Hin as [Hin|Hin].
    + assert (sid < length ss)%nat by (apply B; apply in_or_app; now left).
      lia.
    + simpl in Hin. destruct Hin as [<-|Hin]; [lia|].
      assert (sid < length ss)%nat by (apply B; apply in_or_app; now right).
      lia.
Qed.

(** The effect body, run with no cleanup held. *)
Lemma Inv_animation_effect (seen : list nat) (w : World) :
  Inv0 w -> held w = None -> Inv (animation_effect seen w).
Proof.
  intros [A S] Hh. unfold animation_effect.
  destruct (negb (animationRequested w) || negb (map_ready w) ||
            (length (coords w) <? 2)%nat) eqn:G.
  { split; [exact A | split; [exact S|]]. intros sid H. congruence. }
  apply orb_false_iff in G. destruct G as [_ G].
  apply Nat.ltb_ge in G.
  unfold playSound. simpl.
  destruct (soundEnabled w); unfold Inv; simpl.
  all: split; [|split; [exact S|]].
  all: try (apply sessions_ok_spawn; simpl; auto; apply firstn_1_nth; lia).
  all: intros sid [= <-]; eexists; split;
    [ rewrite nth_error_app2, Nat.sub_diag by apply Nat.le_refl; reflexivity
    | split; reflexivity ].
Qed.

Lemma Inv_rerun_animation_effect (seen : list nat) (w : World) :
  Inv0 w -> Inv (rerun_animation_effect seen w).
Proof.
  intros I. unfold rerun_animation_effect.
  apply Inv_animation_effect; [|reflexivity].
  destruct (held w) as [sid|]; [|exact I].
  exact (Inv0_quieter _ _ (quieter_cleanup sid w) I).
Qed.

Lemma nth_error_update_nth_same {A : Type} (f : A -> A) (l : list A)
    (k : nat) (x : A) :
  nth_error l k = Some x -> nth_error (update_nth k f l) k = Some (f x).
Proof.
  intros H. rewrite nth_error_update_nth, Nat.eqb_refl, H. reflexivity.
Qed.

Lemma update_nth_twice {A : Type} (f g : A -> A) (l : list A) (k : nat) :
  update_nth k f (update_nth k g l) = update_nth k (fun x => f (g x)) l.
Proof.
  revert k. induction l as [|x l IH]; intros [|k]; simpl; auto.
  now rewrite IH.
Qed.

(** One session moves on; the others have nothing more pending. *)
Lemma sessions_ok_update_one (ss : list Session) (mv fr mv' fr' : list nat)
    (sid : nat) (s : Session) (F : Session -> Session) :
  sessions_ok ss mv fr ->
  nth_error ss sid = Some s ->
  (forall j, j <> sid ->
     (count mv' j <= count mv j)%nat /\ (count fr' j <= count fr j)%nat) ->
  session_ok mv' fr' sid (F s) ->
  sessions_ok (update_nth sid F ss) mv' fr'.
Proof.
  intros [A B] Hs Others Ok. split.
  - intros j s'. rewrite nth_error_update_nth.
    destruct (Nat.eqb_spec j sid) as [->|N].
    + rewrite Hs. simpl. now intros [= <-].
    + intros Hj. destruct (Others j N) as [Om Of].
      exact (session_ok_mono _ _ _ _ _ _ _ eq_refl Om Of (A j s' Hj)).
  - intros j Hin. rewrite length_update_nth.
    destruct (Nat.eq_dec j sid) as [->|N].
    + apply nth_error_Some. congruence.
    + destruct (Others j N) as [Om Of]. apply B.
      apply count_occ_pos_In. apply count_occ_pos_In in Hin.
      rewrite count_occ_app in *. lia.
Qed.

Lemma count_snoc (l : list nat) (x j : nat) :
  count (l ++ [x]) j = count (x :: l) j.
Proof.
  rewrite count_occ_app. simpl. destruct (Nat.eq_dec x j); lia.
Qed.

Lemma firstn_snoc_nth (cs : list Coordinate) (k : nat) :
  (k < length cs)%nat -> firstn k cs ++ [nth k cs origin] = firstn (S k) cs.
Proof.
  revert k. induction cs as [|c cs IH]; intros k L; simpl in L; [lia|].
  destruct k as [|k]; [reflexivity|].
  cbn [firstn nth app]. f_equal. apply IH. lia.
Qed.

Ltac look Hs :=
  repeat rewrite update_nth_twice;
  repeat rewrite (nth_error_update_nth_same _ _ _ _ Hs); simpl.

(** What the invariant says of a session whose frame callback is due. *)
Lemma running_facts (mv fr : list nat) (sid : nat) (s : Session) (g : Segment) :
  session_ok mv (sid :: fr) sid s -> segment s = Some g ->
  (i s + 1 < length (s_coords s))%nat /\
  end_ g = nth (i s + 1) (s_coords s) origin /\
  duration g = 3500 / s_speed s /\
  progressCoords s ++ [end_ g] = firstn (S (i s + 1)) (s_coords s) /\
  count mv sid = O /\ count fr sid = O.
Proof.
  intros [K1 K2 K3 K4 K5 K6 K7] Hg.
  destruct K6 as (g0 & Hg0 & R1 & R2 & R3 & R4); [now left|].
  assert (g0 = g) by congruence. subst g0.
  unfold pending in K4. rewrite count_occ_app in K4. simpl in K4.
  destruct (Nat.eq_dec sid sid); [|contradiction].
  repeat split; try lia; auto.
  rewrite K2, R3, Nat.add_1_r. apply firstn_snoc_nth. lia.
Qed.

Lemma frame_ok (sid : nat) (now clock : R) (w : World) :
  sessions_ok (sessions w) (moveend w) (sid :: map snd (frames w)) ->
  sessions_ok (sessions (frame sid now clock w))
              (moveend (frame sid now clock w))
              (map snd (frames (frame sid now clock w))).
Proof.
  intros A.
  assert (Weak : sessions_ok (sessions w) (moveend w) (map snd (frames w))).
  { revert A. apply sessions_ok_mono; auto.
    - intros j s' H. exists s'. auto.
    - intros j. simpl. destruct (Nat.eq_dec sid j); lia. }
  unfold frame, frame_poll, frame_draw, frame_again, frame_arrive.
  destruct (nth_error (sessions w) sid) as [s|] eqn:Hs; [|exact Weak].
  destruct (segment s) as [g|] eqn:Hg; [|exact Weak].
  destruct (isPaused w).
  { simpl. rewrite map_app. simpl. revert A. apply sessions_ok_mono; auto.
    - intros j s' H. exists s'. auto.
    - intros j. rewrite count_snoc. lia. }
  set (t := JsMath.min ((now - startTime g) / duration g) 1).
  set (lng := fst (start g) + _). set (lat := snd (start g) + _).
  pose proof (proj1 A sid s Hs) as Ks.
  destruct (running_facts _ _ _ _ _ Ks Hg) as (Ri & Re & Rd & Rp & Zm & Zf).
  destruct (JsMath.ltb t 1).
  { unfold setData. simpl. destruct (route_source w); simpl.
    all: rewrite map_app, update_nth_twice; simpl.
    all: apply (sessions_ok_update_one _ _ _ _ _ _ s _ A Hs);
      [ intros j N; rewrite count_snoc; lia
      | revert Ks; apply session_ok_mono;
        [ unfold core; simpl; now rewrite Hg
        | lia
        | rewrite count_snoc; lia ] ]. }
  unfold onDone, setData, playSound.
  destruct (route_source w) eqn:Rs; destruct (s_sound s) eqn:Se; simpl;
  rewrite ?Rs, ?Se; simpl; rewrite ?Rs, ?Se; simpl.
  all: look Hs; rewrite ?Se; simpl.
  all: destruct (i s + 1 <? Datatypes.length (s_coords s) - 1)%nat eqn:More.
  1,3,5,7: (unfold animateRoute; simpl; look Hs; rewrite More;
            unfold animateSegment; simpl; look Hs;
            repeat rewrite update_nth_twice; simpl; rewrite map_app; simpl;
            apply Nat.ltb_lt in More;
            apply (sessions_ok_update_one _ _ _ _ _ _ s _ A Hs);
            [ intros j N; rewrite count_snoc; lia
            | destruct Ks as [K1 K2 K3 K4 K5 K6 K7];
              constructor; simpl; auto;
              [ unfold pending; rewrite !count_occ_app; simpl;
                destruct (Nat.eq_dec sid sid); lia
              | intros Hin; apply count_occ_pos_In in Hin; lia
              | intros _; eexists; split; [reflexivity|]; simpl;
                repeat split; auto; lia ] ]).
  all: unfold showAllMarkersAndRoute.
  all: repeat (progress (simpl; repeat rewrite update_nth_twice;
                         repeat rewrite (nth_error_update_nth_same _ _ _ _ Hs);
                         rewrite ?Rs, ?Se, ?More)).
  all: destruct (routeLayerAdded s); destruct (route_layer w); simpl.
  all: destruct (routeSourceAdded s); simpl.
  all: repeat (progress (simpl; repeat rewrite update_nth_twice;
                         repeat rewrite (nth_error_update_nth_same _ _ _ _ Hs);
                         rewrite ?Rs, ?Se, ?More)).
  all: repeat rewrite update_nth_twice; simpl.
  all: apply (sessions_ok_update_one _ _ _ _ _ _ s _ A Hs);
    [ intros j N; simpl; destruct (Nat.eq_dec sid j); lia
    | destruct Ks as [K1 K2 K3 K4 K5 K6 K7];
      apply Nat.ltb_ge in More;
      constructor; simpl; auto;
      [ unfold pending; rewrite !count_occ_app; lia
      | intros Hin; apply count_occ_pos_In in Hin; lia
      | intros Hin; apply count_occ_pos_In in Hin; lia ] ].
Qed.

Lemma onMoveEnd_ok (sid : nat) (clock : R) (w : World) :
  In sid (moveend w) ->
  sessions_ok (sessions w) (moveend w) (map snd (frames w)) ->
  sessions_ok (sessions (onMoveEnd sid clock w))
              (moveend (onMoveEnd sid clock w))
              (map snd (frames (onMoveEnd sid clock w))) /\
  moveend (onMoveEnd sid clock w) =
    filter (fun l => negb (l =? sid)%nat) (moveend w).
Proof.
  intros Hin A. unfold onMoveEnd.
  destruct (nth_error (sessions w) sid) as [s|] eqn:Hs.
  2:{ exfalso. apply nth_error_None in Hs.
      assert (sid < length (sessions w))%nat
        by (apply (proj2 A); apply in_or_app; now left).
      lia. }
  pose proof (proj1 A sid s Hs) as Ks.
  destruct Ks as [K1 K2 K3 K4 K5 K6 K7].
  specialize (K5 Hin).
  assert (Cm : count (moveend w) sid = 1%nat /\ count (map snd (frames w)) sid = O).
  { unfold pending in K4. rewrite count_occ_app in K4.
    apply count_occ_pos_In in Hin. lia. }
  unfold animateRoute. simpl. look Hs. rewrite K5.
  assert (More : (0 <? length (s_coords s) - 1)%nat = true)
    by (apply Nat.ltb_lt; lia).
  rewrite More. unfold animateSegment. simpl. look Hs.
  repeat rewrite update_nth_twice. simpl. rewrite map_app. simpl.
  split; [|reflexivity].
  apply (sessions_ok_update_one _ _ _ _ _ _ s _ A Hs).
  - intros j N. rewrite count_occ_filter_other by assumption.
    rewrite count_snoc. simpl. destruct (Nat.eq_dec sid j); [congruence|lia].
  - constructor; simpl; auto.
    + unfold pending. rewrite !count_occ_app, count_occ_filter_self. simpl.
      destruct (Nat.eq_dec sid sid); lia.
    + intros _. eexists. split; [reflexivity|]. simpl. rewrite K5.
      repeat split; auto. lia.
Qed.

Lemma moveEnd_fold_ok (clock : R) (l : list nat) (w : World) :
  NoDup l -> (forall x, In x l -> In x (moveend w)) ->
  sessions_ok (sessions w) (moveend w) (map snd (frames w)) ->
  let w' := fold_left (fun w sid => onMoveEnd sid clock w) l w in
  sessions_ok (sessions w') (moveend w') (map snd (frames w')).
Proof.
  revert w. induction l as [|x l IH]; intros w ND Sub A; simpl; [exact A|].
  inversion ND as [|? ? Nx ND']; subst.
  destruct (onMoveEnd_ok x clock w (Sub x (or_introl eq_refl)) A) as [A' E].
  apply IH; auto.
  intros y Hy. rewrite E. apply filter_In. split.
  - apply Sub. now right.
  - apply negb_true_iff, Nat.eqb_neq. intros ->. contradiction.
Qed.

Lemma moveend_NoDup (w : World) :
  sessions_ok (sessions w) (moveend w) (map snd (frames w)) ->
  NoDup (moveend w).
Proof.
  intros [A B]. apply NoDup_of_counts. intros x Hx.
  assert (L : (x < length (sessions w))%nat)
    by (apply B; apply in_or_app; now left).
  destruct (nth_error (sessions w) x) as [s|] eqn:Hs.
  - pose proof (ok_pending _ _ _ _ (A x s Hs)) as P.
    unfold pending in P. rewrite count_occ_app in P. lia.
  - apply nth_error_None in Hs. lia.
Qed.

(** *** What never changes in a session *)

Ltac closures_fields :=
  constructor; simpl; auto; intros ? s0 ?; exists s0; auto.

Lemma same_closures_modify (sid : nat) (f : Session -> Session) (w : World) :
  (forall s, s_coords (f s) = s_coords s /\ s_speed (f s) = s_speed s) ->
  same_closures w (modify sid f w).
Proof.
  intros C. constructor; simpl; auto.
  intros j s Hs. rewrite nth_error_update_nth, Hs.
  destruct (j =? sid)%nat; simpl; eexists; split; try reflexivity; auto.
Qed.

Lemma same_closures_setData (line : list Coordinate) (w : World) :
  same_closures w (setData line w).
Proof.
  unfold setData. destruct (route_source w);
    [closures_fields | apply same_closures_refl].
Qed.

Lemma same_closures_playSound (enabled : bool) (type : Cue) (w : World) :
  same_closures w (playSound enabled type w).
Proof.
  unfold playSound. destruct enabled;
    [closures_fields | apply same_closures_refl].
Qed.

Lemma same_closures_animateSegment (sid : nat) (a b : Coordinate) (clock : R)
    (w : World) :
  same_closures w (animateSegment sid a b clock w).
Proof.
  unfold animateSegment.
  destruct (nth_error (sessions w) sid); [|apply same_closures_refl].
  simpl. eapply same_closures_trans;
    [| apply same_closures_modify; intros; split; reflexivity].
  closures_fields.
Qed.

Lemma same_closures_animateRoute (sid : nat) (clock : R) (w : World) :
  same_closures w (animateRoute sid clock w).
Proof.
  unfold animateRoute.
  destruct (nth_error (sessions w) sid) as [s|]; [|apply same_closures_refl].
  destruct (i s <? length (s_coords s) - 1)%nat; [|apply same_closures_refl].
  eapply same_closures_trans; [|apply same_closures_animateSegment].
  closures_fields.
Qed.

Lemma same_closures_showAllMarkersAndRoute (sid : nat) (w : World) :
  same_closures w (showAllMarkersAndRoute sid w).
Proof.
  unfold showAllMarkersAndRoute.
  destruct (nth_error (sessions w) sid) as [s|]; [|apply same_closures_refl].
  set (w1 := modify sid (set_marker_shown false) w).
  assert (Q1 : same_closures w w1)
    by (apply same_closures_modify; intros; split; reflexivity).
  set (w2 := if routeLayerAdded s && is_some (route_layer w1)
             then with_route_layer None w1 else w1).
  assert (Q2 : same_closures w w2).
  { subst w2. destruct (routeLayerAdded s && is_some (route_layer w1));
      [|exact Q1].
    apply (same_closures_trans _ _ _ Q1). closures_fields. }
  set (w3 := if routeSourceAdded s && is_some (route_source w2)
             then with_route_source None w2 else w2).
  assert (Q3 : same_closures w w3).
  { subst w3. destruct (routeSourceAdded s && is_some (route_source w2));
      [|exact Q2].
    apply (same_closures_trans _ _ _ Q2). closures_fields. }
  apply (same_closures_trans _ _ _ Q3). closures_fields.
Qed.

Lemma same_closures_onDone (sid : nat) (clock : R) (w : World) :
  same_closures w (onDone sid clock w).
Proof.
  unfold onDone.
  set (w1 := modify sid (fun s => set_i (i s + 1) s) w).
  assert (Q1 : same_closures w w1)
    by (apply same_closures_modify; intros; split; reflexivity).
  destruct (nth_error (sessions w1) sid) as [s|]; [|exact Q1].
  destruct (i s <? length (s_coords s) - 1)%nat.
  - exact (same_closures_trans _ _ _ Q1 (same_closures_animateRoute _ _ _)).
  - eapply same_closures_trans; [|apply same_closures_showAllMarkersAndRoute].
    eapply same_closures_trans; [|apply same_closures_playSound].
    apply (same_closures_trans _ _ _ Q1). closures_fields.
Qed.

Lemma same_closures_frame (sid : nat) (now clock : R) (w : World) :
  same_closures w (frame sid now clock w).
Proof.
  unfold frame, frame_poll, frame_draw, frame_again, frame_arrive.
  destruct (nth_error (sessions w) sid) as [s|]; [|apply same_closures_refl].
  destruct (segment s) as [g|]; [|apply same_closures_refl].
  destruct (isPaused w); [closures_fields|].
  set (t := JsMath.min ((now - startTime g) / duration g) 1).
  set (lng := fst (start g) + _). set (lat := snd (start g) + _).
  set (w1 := modify sid _ w).
  assert (Q1 : same_closures w w1)
    by (apply same_closures_modify; intros; split; reflexivity).
  set (w2 := setData _ w1).
  assert (Q2 : same_closures w w2)
    by exact (same_closures_trans _ _ _ Q1 (same_closures_setData _ _)).
  set (w3 := with_camera _ w2).
  assert (Q3 : same_closures w w3)
    by (apply (same_closures_trans _ _ _ Q2); closures_fields).
  destruct (JsMath.ltb t 1).
  - simpl. eapply same_closures_trans;
      [| apply same_closures_modify; intros; split; reflexivity].
    apply (same_closures_trans _ _ _ Q3). closures_fields.
  - eapply same_closures_trans; [|apply same_closures_onDone].
    eapply same_closures_trans; [|apply same_closures_playSound].
    eapply same_closures_trans; [|apply same_closures_setData].
    eapply same_closures_trans;
      [| apply same_closures_modify; intros; split; reflexivity].
    exact Q3.
Qed.

Lemma same_closures_onMoveEnd (sid : nat) (clock : R) (w : World) :
  same_closures w (onMoveEnd sid clock w).
Proof.
  unfold onMoveEnd.
  destruct (nth_error (sessions w) sid) as [s|]; [|apply same_closures_refl].
  set (w1 := with_route_source (Some (progressCoords s)) (remove_route w)).
  assert (Q1 : same_closures w w1) by closures_fields.
  set (w2 := modify sid (set_routeSourceAdded true) w1).
  assert (Q2 : same_closures w w2).
  { apply (same_closures_trans _ _ _ Q1).
    apply same_closures_modify. intros. split; reflexivity. }
  set (w3 := with_route_layer (Some (2, 3)%nat) w2).
  assert (Q3 : same_closures w w3)
    by (apply (same_closures_trans _ _ _ Q2); closures_fields).
  set (w4 := modify sid (set_routeLayerAdded true) w3).
  assert (Q4 : same_closures w w4).
  { apply (same_closures_trans _ _ _ Q3).
    apply same_closures_modify. intros. split; reflexivity. }
  set (w5 := animateRoute sid clock w4).
  assert (Q5 : same_closures w w5)
    by exact (same_closures_trans _ _ _ Q4 (same_closures_animateRoute _ _ _)).
  apply (same_closures_trans _ _ _ Q5). closures_fields.
Qed.

Lemma same_closures_moveEnd_fold (clock : R) (l : list nat) (w : World) :
  same_closures w (fold_left (fun w sid => onMoveEnd sid clock w) l w).
Proof.
  revert w. induction l as [|x l IH]; intros w; simpl.
  - apply same_closures_refl.
  - exact (same_closures_trans _ _ _ (same_closures_onMoveEnd x clock w)
             (IH _)).
Qed.

Lemma take_frame_counts (id : nat) (q rest : list (nat * nat)) (sid : nat) :
  take_frame id q = Some (sid, rest) ->
  In (id, sid) q /\
  forall j, count (map snd q) j = count (sid :: map snd rest) j.
Proof.
  revert rest. induction q as [|[id' sid'] q IH]; intros rest H; simpl in H.
  - discriminate.
  - destruct (Nat.eqb_spec id' id) as [->|N].
    + injection H as <- <-. split; [now left | reflexivity].
    + destruct (take_frame id q) as [[sid0 rest0]|]; [|discriminate].
      injection H as <- <-. destruct (IH rest0 eq_refl) as [Hin C].
      split; [now right|]. intros j. specialize (C j). simpl in *.
      destruct (Nat.eq_dec sid' j); destruct (Nat.eq_dec sid0 j); lia.
Qed.

Lemma Inv_of_parts (w0 w : World) :
  Inv w0 -> same_closures w0 w -> Inv0 w -> Inv w.
Proof. intros I C I0. exact (Inv_same_closures _ _ C I0 I). Qed.

Lemma anim_Inv_step (w : World) (e : Event) : Inv w -> Inv (step w e).
Proof.
  intros I. pose proof (Inv_Inv0 _ I) as I0.
  destruct e as [|cs| | |k| |clock|id now clock]; simpl.
  - exact I.
  - apply Inv_animation_effect; [|reflexivity].
    match goal with |- Inv0 (with_held None ?x) => change (Inv0 x) end.
    apply (Inv0_quieter (match held w with
                         | Some sid => cleanup sid (setCoords cs w)
                         | None => setCoords cs w
                         end)).
    + apply (quieter_place_markers_effect _).
    + destruct (held w) as [sid|]; [|exact I0].
      exact (Inv0_quieter _ _ (quieter_cleanup sid (setCoords cs w)) I0).
  - destruct (negb (panel w) || animating w || (length (coords w) <? 2)%nat);
      [exact I|].
    destruct (animationRequested w); [exact I|].
    apply Inv_rerun_animation_effect. exact I0.
  - destruct (panel w && animating w); exact I.
  - destruct (panel w && negb (animating w) && has_stop k) eqn:G; [|exact I].
    destruct (Req_dec_T (speed_stop k) (animationSpeed w)); [exact I|].
    apply Inv_rerun_animation_effect. split; [exact (proj1 I0)|].
    exists k. split; [|reflexivity].
    apply andb_true_iff in G. tauto.
  - destruct (panel w); exact I.
  - apply (Inv_of_parts w); [exact I | apply same_closures_moveEnd_fold |].
    split.
    + apply moveEnd_fold_ok; [apply moveend_NoDup | auto |]; exact (proj1 I0).
    + rewrite (c_speed _ _ (same_closures_moveEnd_fold clock (moveend w) w)).
      exact (proj2 I0).
  - destruct (take_frame id (frames w)) as [[sid rest]|] eqn:T; [|exact I].
    destruct (take_frame_counts _ _ _ _ T) as [Hin C].
    set (w1 := with_frames rest w).
    assert (A1 : sessions_ok (sessions w1) (moveend w1)
                   (sid :: map snd (frames w1))).
    { generalize (proj1 I0). apply sessions_ok_mono; auto.
      - intros j s' H. exists s'. auto.
      - intros j. rewrite (C j). apply Nat.le_refl. }
    assert (I1 : Inv (frame sid now clock w1)).
    { apply (Inv_of_parts w); [exact I | |].
      - apply (same_closures_trans _ w1); [closures_fields|].
        apply same_closures_frame.
      - split; [exact (frame_ok sid now clock w1 A1)|].
        rewrite (c_speed _ _ (same_closures_frame sid now clock w1)).
        exact (proj2 I0). }
    unfold commit_after_frame.
    destruct (animationRequested w &&
              negb (animationRequested (frame sid now clock w1))); [|exact I1].
    apply Inv_rerun_animation_effect. exact (Inv_Inv0 _ I1).
Qed.

Lemma anim_Inv_initial : Inv initial.
Proof.
  split; [split | split].
  - intros sid s H. now destruct sid.
  - intros sid [].
  - exists 1%nat. unfold has_stop, speed_stop, speed_min, speed_step, speed_max.
    simpl. split; [|lra].
    destruct (Rle_dec (1 / 2 + 1 * (1 / 2)) 3); [reflexivity | lra].
  - intros sid H. discriminate H.
Qed.

Lemma anim_reachable_Inv (w : World) : reachable w -> Inv w.
Proof.
  induction 1; [apply anim_Inv_initial | now apply anim_Inv_step].
Qed.

Lemma anim_reachable_run (w : World) (es : list Event) :
  reachable w -> reachable (run w es).
Proof.
  revert w. induction es as [|e es IH]; intros w R; simpl; [exact R|].
  apply IH. now constructor.
Qed.

(** *** The branches of [frame] *)

(** The raw progress a frame computes. *)
Lemma frame_cases (sid : nat) (now clock : R) (w : World) (s : Session)
    (g : Segment) :
  nth_error (sessions w) sid = Some s -> segment s = Some g ->
  let w' := frame sid now clock w in
  let t := JsMath.min ((now - startTime g) / duration g) 1 in
  (* polling while paused *)
  (isPaused w = true /\
   sessions w' = sessions w /\
   frames w' = frames w ++ [(next_frame w, sid)] /\
   currentFrame w' = Some (next_frame w) /\
   animating w' = animating w /\
   animationRequested w' = animationRequested w) \/
  (* within the segment *)
  (isPaused w = false /\ JsMath.ltb t 1 = true /\
   frames w' = frames w ++ [(next_frame w, sid)] /\
   animating w' = animating w /\
   animationRequested w' = animationRequested w /\
   exists s', nth_error (sessions w') sid = Some s' /\
     segment s' = Some (set_t t g) /\
     animationFrame s' = Some (next_frame w) /\
     progressCoords s' = progressCoords s /\ i s' = i s /\
     s_coords s' = s_coords s) \/
  (* the segment ends, another follows *)
  (isPaused w = false /\ JsMath.ltb t 1 = false /\
   (i s + 1 <? length (s_coords s) - 1)%nat = true /\
   frames w' = frames w ++ [(next_frame w, sid)] /\
   animating w' = animating w /\
   animationRequested w' = animationRequested w /\
   exists s', nth_error (sessions w') sid = Some s' /\
     progressCoords s' = progressCoords s ++ [end_ g] /\
     i s' = (i s + 1)%nat /\ s_coords s' = s_coords s) \/
  (* the last segment ends *)
  (isPaused w = false /\ JsMath.ltb t 1 = false /\
   (i s + 1 <? length (s_coords s) - 1)%nat = false /\
   frames w' = frames w /\
   animating w' = false /\
   animationRequested w' = false /\
   exists s', nth_error (sessions w') sid = Some s' /\
     progressCoords s' = progressCoords s ++ [end_ g] /\
     i s' = (i s + 1)%nat /\ s_coords s' = s_coords s).
Proof.
  intros Hs Hg.
  unfold frame, frame_poll, frame_draw, frame_again, frame_arrive.
  rewrite Hs, Hg.
  destruct (isPaused w) eqn:P.
  { left. simpl. auto 10. }
  right.
  set (t := JsMath.min ((now - startTime g) / duration g) 1).
  set (lng := fst (start g) + _). set (lat := snd (start g) + _).
  destruct (JsMath.ltb t 1) eqn:Lt.
  { left. unfold setData. destruct (route_source w) eqn:Rs.
    all: repeat (progress (simpl; repeat rewrite update_nth_twice;
                 repeat rewrite (nth_error_update_nth_same _ _ _ _ Hs);
                 rewrite ?Rs)).
    all: repeat split; auto; eexists; split; [reflexivity|]; simpl; auto 10. }
  right.
  unfold onDone, setData, playSound.
  destruct (route_source w) eqn:Rs; destruct (s_sound s) eqn:Se.
  all: repeat (progress (simpl; repeat rewrite update_nth_twice;
                         repeat rewrite (nth_error_update_nth_same _ _ _ _ Hs);
                         rewrite ?Rs, ?Se)).
  all: destruct (i s + 1 <? Datatypes.length (s_coords s) - 1)%nat eqn:More;
    [left | right].
  1,3,5,7: unfold animateRoute, animateSegment.
  1,2,3,4: repeat (progress (simpl; repeat rewrite update_nth_twice;
                         repeat rewrite (nth_error_update_nth_same _ _ _ _ Hs);
                         rewrite ?Rs, ?Se, ?More)).
  1,2,3,4: repeat split; auto; eexists; split; [reflexivity|]; simpl; auto.
  all: unfold showAllMarkersAndRoute.
  all: repeat (progress (simpl; repeat rewrite update_nth_twice;
                         repeat rewrite (nth_error_update_nth_same _ _ _ _ Hs);
                         rewrite ?Rs, ?Se, ?More)).
  all: destruct (routeLayerAdded s); destruct (route_layer w); simpl.
  all: destruct (routeSourceAdded s); simpl.
  all: repeat (progress (simpl; repeat rewrite update_nth_twice;
                         repeat rewrite (nth_error_update_nth_same _ _ _ _ Hs);
                         rewrite ?Rs, ?Se, ?More)).
  all: repeat split; auto; eexists; split; [reflexivity|]; simpl; auto.
Qed.

(** *** The flags [animating] and [animationRequested] *)

Lemma flags_cleanup (sid : nat) (w : World) :
  animating (cleanup sid w) = animating w /\
  animationRequested (cleanup sid w) = animationRequested w /\
  held (cleanup sid w) = held w /\
  coords (cleanup sid w) = coords w /\
  map_ready (cleanup sid w) = map_ready w.
Proof.
  unfold cleanup.
  repeat match goal with
         | |- context [match ?x with _ => _ end] => destruct x; simpl
         end; auto.
Qed.

Lemma flags_place_markers_effect (w : World) :
  animating (place_markers_effect w) = animating w /\
  animationRequested (place_markers_effect w) = animationRequested w /\
  held (place_markers_effect w) = held w /\
  coords (place_markers_effect w) = coords w.
Proof.
  unfold place_markers_effect.
  destruct (negb (map_ready w) || (length (coords w) =? 0)%nat); simpl; auto.
Qed.

Lemma flags_onMoveEnd (sid : nat) (clock : R) (w : World) :
  animating (onMoveEnd sid clock w) = animating w /\
  animationRequested (onMoveEnd sid clock w) = animationRequested w.
Proof.
  unfold onMoveEnd, animateRoute, animateSegment.
  repeat match goal with
         | |- context [match ?x with _ => _ end] => destruct x; simpl
         end; auto.
Qed.

Lemma flags_moveEnd_fold (clock : R) (l : list nat) (w : World) :
  let w' := fold_left (fun w sid => onMoveEnd sid clock w) l w in
  animating w' = animating w /\ animationRequested w' = animationRequested w.
Proof.
  revert w. induction l as [|x l IH]; intros w; simpl; [auto|].
  destruct (IH (onMoveEnd x clock w)) as [A B].
  destruct (flags_onMoveEnd x clock w) as [A' B'].
  split; congruence.
Qed.

(** The effect body either declines and changes nothing, or starts a
    session with both flags up. *)
Lemma animation_effect_cases (seen : list nat) (w : World) :
  (animation_effect seen w = w /\
   (animationRequested w = false \/ map_ready w = false \/
    (length (coords w) < 2)%nat)) \/
  (animationRequested w = true /\ (2 <= length (coords w))%nat /\
   animating (animation_effect seen w) = true /\
   animationRequested (animation_effect seen w) = true /\
   held (animation_effect seen w) = Some (length (sessions w)) /\
   length (sessions (animation_effect seen w)) = S (length (sessions w))).
Proof.
  unfold animation_effect.
  destruct (animationRequested w) eqn:Rq; cbn [negb orb];
    [|left; split; [reflexivity | now left]].
  destruct (map_ready w) eqn:Mr; cbn [negb orb];
    [|left; split; [reflexivity | right; now left]].
  destruct (Nat.ltb_spec (length (coords w)) 2) as [Lt|Ge];
    [left; split; [reflexivity | right; now right]|].
  right. unfold playSound.
  split; [reflexivity|]. split; [exact Ge|].
  simpl. destruct (soundEnabled w); simpl; rewrite length_app; simpl.
  all: split; [reflexivity|]; split; [exact Rq|]; split; [reflexivity | lia].
Qed.

Lemma held_flags_animation_effect (seen : list nat) (w : World) :
  held w = None -> held_flags (animation_effect seen w).
Proof.
  intros Hh. destruct (animation_effect_cases seen w) as [[E _]|C].
  - rewrite E. intros N. congruence.
  - intros _. tauto.
Qed.

Lemma held_flags_rerun (seen : list nat) (w : World) :
  held_flags (rerun_animation_effect seen w).
Proof.
  unfold rerun_animation_effect. now apply held_flags_animation_effect.
Qed.

Lemma frame_flags (sid : nat) (now clock : R) (w : World) :
  let w' := frame sid now clock w in
  (animating w' = animating w /\
   animationRequested w' = animationRequested w) \/
  (animating w' = false /\ animationRequested w' = false).
Proof.
  simpl. destruct (nth_error (sessions w) sid) as [s|] eqn:Hs.
  - destruct (segment s) as [g|] eqn:Hg.
    + destruct (frame_cases sid now clock w s g Hs Hg)
        as [C|[C|[C|C]]]; simpl in C; intuition.
    + unfold frame. rewrite Hs, Hg. auto.
  - unfold frame. rewrite Hs. auto.
Qed.

Lemma held_flags_step (w : World) (e : Event) :
  held_flags w -> held_flags (step w e).
Proof.
  intros H. destruct e as [|cs| | |k| |clock|id now clock]; simpl.
  - exact H.
  - now apply held_flags_animation_effect.
  - destruct (negb (panel w) || animating w || (length (coords w) <? 2)%nat);
      [exact H|].
    destruct (animationRequested w); [exact H|]. apply held_flags_rerun.
  - destruct (panel w && animating w); exact H.
  - destruct (panel w && negb (animating w) && has_stop k); [|exact H].
    destruct (Req_dec_T (speed_stop k) (animationSpeed w)); [exact H|].
    apply held_flags_rerun.
  - destruct (panel w); exact H.
  - intros N.
    rewrite (c_held _ _ (same_closures_moveEnd_fold clock (moveend w) w)) in N.
    destruct (flags_moveEnd_fold clock (moveend w) w) as [A B].
    rewrite A, B. exact (H N).
  - destruct (take_frame id (frames w)) as [[sid rest]|]; [|exact H].
    set (w1 := with_frames rest w).
    pose proof (c_held _ _ (same_closures_frame sid now clock w1)) as Eh.
    destruct (frame_flags sid now clock w1) as [[A B]|[A B]];
      simpl in A, B; change (animationRequested w1) with (animationRequested w) in B;
      change (animating w1) with (animating w) in A;
      change (held w1) with (held w) in Eh.
    + unfold commit_after_frame. fold w1. rewrite B, andb_negb_r.
      intros N. rewrite Eh in N. rewrite A, B. exact (H N).
    + unfold commit_after_frame. fold w1.
      rewrite B. destruct (animationRequested w) eqn:Rq; simpl.
      * apply held_flags_rerun.
      * intros N. rewrite Eh in N. destruct (H N) as [_ F]. congruence.
Qed.

Lemma reachable_held_flags (w : World) : reachable w -> held_flags w.
Proof.
  induction 1; [intros N; now elim N | now apply held_flags_step].
Qed.

(** *** The start button *)

(** What the Start button guards against.  In every state the
    component can reach, a click on Start with fewer than two
    coordinates, or while [animating] is set, or while React holds the
    cleanup of a session, changes nothing at all: no session is
    created, and the flags stay as they were; and with fewer than two
    coordinates the body of the animation effect itself does nothing,
    whatever [animationRequested] is. *)
Theorem start_request_noop (w : World) :
  reachable w ->
  (length (coords w) < 2)%nat \/ animating w = true \/ held w <> None ->
  step w ClickStart = w /\
  ((length (coords w) < 2)%nat -> forall seen, animation_effect seen w = w).
Proof.
  intros R H. split.
  - simpl. destruct H as [H|[H|H]].
    + apply Nat.ltb_lt in H. rewrite H. now rewrite !orb_true_r.
    + rewrite H. now rewrite orb_true_r.
    + destruct (reachable_held_flags w R H) as [A _]. rewrite A.
      now rewrite orb_true_r.
  - intros L seen. unfold animation_effect.
    apply Nat.ltb_lt in L. rewrite L. now rewrite orb_true_r.
Qed.

(** *** The speed slider *)

Lemma speed_stop_values (k : nat) :
  has_stop k = true -> (k <= 5)%nat.
Proof.
  unfold has_stop, speed_stop, speed_min, speed_step, speed_max.
  destruct (Rle_dec (1 / 2 + INR k * (1 / 2)) 3) as [L|]; [|discriminate].
  intros _. apply INR_le. replace (INR 5) with 5 by (simpl; lra). lra.
Qed.

Lemma is_stop_values (v : R) :
  is_stop v -> In v [1 / 2; 1; 3 / 2; 2; 5 / 2; 3].
Proof.
  intros (k & Hk & ->). apply speed_stop_values in Hk.
  unfold speed_stop, speed_min, speed_step.
  do 6 (destruct k as [|k]; [simpl; intuition lra|]). lia.
Qed.

Lemma has_stop_le_5 (k : nat) : (k <= 5)%nat -> has_stop k = true.
Proof.
  intros L. unfold has_stop, speed_stop, speed_min, speed_step, speed_max.
  destruct (Rle_dec (1 / 2 + INR k * (1 / 2)) 3) as [|N]; [reflexivity|].
  exfalso. apply N. apply le_INR in L.
  replace (INR 5) with 5 in L by (simpl; lra). lra.
Qed.

(** C8, as the code has it.  The slider puts the speed on one of the six
    stops 0.5, 1, 1.5, 2, 2.5, 3, and each of them is a stop; while
    [animating] is set the slider changes nothing; and a frame callback
    that is due belongs to a segment whose duration is 3500 divided by
    the speed its session was started with, one of the six, which for
    the session whose cleanup React holds is the speed now selected. *)
Theorem speed_contract (w : World) :
  reachable w ->
  In (animationSpeed w) [1 / 2; 1; 3 / 2; 2; 5 / 2; 3] /\
  (forall k, (k <= 5)%nat -> has_stop k = true /\
     In (speed_stop k) [1 / 2; 1; 3 / 2; 2; 5 / 2; 3]) /\
  (forall k, animating w = true -> step w (SlideSpeed k) = w) /\
  (forall id sid s,
     In (id, sid) (frames w) -> nth_error (sessions w) sid = Some s ->
     exists g, segment s = Some g /\
               duration g = 3500 / s_speed s /\
               In (s_speed s) [1 / 2; 1; 3 / 2; 2; 5 / 2; 3] /\
               (held w = Some sid -> s_speed s = animationSpeed w)).
Proof.
  intros R. pose proof (anim_reachable_Inv w R) as ((A & B) & S & H).
  split; [|split; [|split]].
  - now apply is_stop_values.
  - intros k L. pose proof (has_stop_le_5 k L) as Hk. split; [exact Hk|].
    apply is_stop_values. now exists k.
  - intros k An. simpl. rewrite An. now rewrite andb_false_r.
  - intros id sid s Hin Hs.
    destruct (A sid s Hs) as [K1 K2 K3 K4 K5 K6 K7].
    destruct K6 as (g & Hg & _ & _ & _ & D).
    { apply in_map_iff. now exists (id, sid). }
    exists g. repeat split; auto.
    + now apply is_stop_values.
    + intros Hh. destruct (H sid Hh) as (s0 & Hs0 & _ & E). congruence.
Qed.

Lemma has_stop_4 : has_stop 4 = true.
Proof. apply has_stop_le_5. lia. Qed.

Lemma speed_stop_4 : speed_stop 4 = 5 / 2.
Proof. unfold speed_stop, speed_min, speed_step. simpl. lra. Qed.

(** The slider has a stop at 2.5, which is not in {0.5, 1, 1.5, 2, 3}. *)
Lemma speed_set_counterexample :
  let w := run initial [CoordsArrive [paris; tokyo]; SlideSpeed 4] in
  reachable w /\
  animationSpeed w = 5 / 2 /\
  ~ In (animationSpeed w) [1 / 2; 1; 3 / 2; 2; 3].
Proof.
  intros w.
  assert (E : animationSpeed w = 5 / 2).
  { subst w. unfold run. cbn [fold_left].
    change (step initial (CoordsArrive [paris; tokyo]))
      with (setCoords [paris; tokyo] initial).
    cbn [step panel coords setCoords initial length Nat.ltb Nat.leb
         animating negb andb].
    rewrite has_stop_4.
    destruct (Req_dec_T (speed_stop 4) _) as [E|N].
    - simpl in E. rewrite speed_stop_4 in E. lra.
    - cbn. apply speed_stop_4. }
  split; [|split].
  - subst w. apply anim_reachable_run. constructor.
  - exact E.
  - rewrite E. simpl. intuition lra.
Qed.

(** *** Natural completion *)

Lemma rerun_declines (seen : list nat) (w : World) :
  animationRequested w = false ->
  rerun_animation_effect seen w =
  with_held None (match held w with
                  | Some sid => cleanup sid w
                  | None => w
                  end).
Proof.
  intros Rq. unfold rerun_animation_effect, animation_effect.
  assert (E : animationRequested
                (with_held None (match held w with
                                 | Some sid => cleanup sid w
                                 | None => w
                                 end)) = false).
  { simpl. destruct (held w) as [sid|]; [|exact Rq].
    now rewrite (proj1 (proj2 (flags_cleanup sid w))). }
  now rewrite E.
Qed.

Lemma quieter_rerun_declines (seen : list nat) (w : World) :
  animationRequested w = false ->
  quieter w (rerun_animation_effect seen w) /\
  animating (rerun_animation_effect seen w) = animating w /\
  animationRequested (rerun_animation_effect seen w) = false.
Proof.
  intros Rq. rewrite (rerun_declines seen w Rq).
  destruct (held w) as [sid|].
  - destruct (flags_cleanup sid w) as (A & B & _).
    split; [|split]; simpl; try congruence.
    apply (quieter_trans _ _ _ (quieter_cleanup sid w)). quieter_fields.
  - split; [|split]; simpl; auto. quieter_fields.
Qed.

Lemma animating_kept_by_effect (seen : list nat) (w : World) :
  animating w = true -> animating (animation_effect seen w) = true.
Proof.
  intros A. destruct (animation_effect_cases seen w) as [[E _]|C].
  - now rewrite E.
  - tauto.
Qed.

Lemma animating_kept_by_rerun (seen : list nat) (w : World) :
  animating w = true -> animating (rerun_animation_effect seen w) = true.
Proof.
  intros A. unfold rerun_animation_effect. apply animating_kept_by_effect.
  simpl. destruct (held w) as [sid|]; [|exact A].
  now rewrite (proj1 (flags_cleanup sid w)).
Qed.

(** C7.  In every state the component can reach, the only step that
    takes [animating] from set to clear is the frame callback that ends
    the last segment of a session; after it the session's
    [progressCoords] is exactly the coordinate list the session was
    started on (which has at least two entries, and is the current
    [coords] when React holds the session's cleanup), and
    [animationRequested] is clear as well. *)
Theorem completion_confirmed_prefix (w : World) (e : Event) :
  reachable w -> animating w = true -> animating (step w e) = false ->
  exists id now clock sid s s',
    e = Frame id now clock /\ In (id, sid) (frames w) /\
    nth_error (sessions w) sid = Some s /\
    nth_error (sessions (step w e)) sid = Some s' /\
    s_coords s' = s_coords s /\
    (2 <= length (s_coords s'))%nat /\
    progressCoords s' = s_coords s' /\
    (held w = Some sid -> s_coords s' = coords w) /\
    animationRequested (step w e) = false.
Proof.
  intros R An Fl. pose proof (anim_reachable_Inv w R) as ((A & B) & S & H).
  destruct e as [|cs| | |k| |clock|id now clock];
    simpl in Fl; unfold commit_after_frame in Fl.
  - congruence.
  - rewrite animating_kept_by_effect in Fl; [discriminate|].
    simpl. rewrite (proj1 (flags_place_markers_effect _)).
    destruct (held w) as [sid|]; [|exact An].
    now rewrite (proj1 (flags_cleanup sid _)).
  - rewrite An, orb_true_r in Fl. simpl in Fl. congruence.
  - destruct (panel w && animating w); simpl in Fl; congruence.
  - rewrite An, andb_false_r in Fl. simpl in Fl. congruence.
  - destruct (panel w); simpl in Fl; congruence.
  - rewrite (proj1 (flags_moveEnd_fold clock (moveend w) w)) in Fl.
    congruence.
  - simpl. unfold commit_after_frame.
    destruct (take_frame id (frames w)) as [[sid rest]|] eqn:T;
      [|congruence].
    destruct (take_frame_counts _ _ _ _ T) as [Hin C].
    set (w1 := with_frames rest w) in *.
    assert (Ls : (sid < length (sessions w))%nat).
    { apply B. apply in_or_app. right. apply in_map_iff. now exists (id, sid). }
    destruct (nth_error (sessions w) sid) as [s|] eqn:Hs;
      [|apply nth_error_None in Hs; lia].
    assert (Ks : session_ok (moveend w) (sid :: map snd rest) sid s).
    { generalize (A sid s Hs). apply session_ok_mono; auto.
      rewrite (C sid). apply Nat.le_refl. }
    destruct (ok_running _ _ _ _ Ks (or_introl eq_refl))
      as (g & Hg & _).
    destruct (running_facts _ _ _ _ _ Ks Hg) as (Ri & Re & Rd & Rp & _).
    destruct (frame_cases sid now clock w1 s g Hs Hg)
      as [(_ & _ & _ & _ & Ea & Er)|[(_ & _ & _ & Ea & Er & _)|
          [(_ & _ & _ & _ & Ea & Er & _)|
           (_ & _ & More & _ & Ea & Er & s' & Hs' & Ep & Ei & Ec)]]];
      simpl in Ea, Er.
    1,2,3: rewrite Er, andb_negb_r in Fl; congruence.
    rewrite Er. rewrite Er in Fl.
    apply Nat.ltb_ge in More.
    assert (Full : progressCoords s' = s_coords s').
    { rewrite Ep, Rp, Ec. apply firstn_all2. lia. }
    destruct (animationRequested w) eqn:Rq;
      cbn [negb andb] in *.
    + destruct (quieter_rerun_declines (markers (frame sid now clock w1))
                  (frame sid now clock w1) Er) as ([L Q _ _ _] & _ & Rq').
      destruct (nth_error
                  (sessions (rerun_animation_effect
                               (markers (frame sid now clock w1))
                               (frame sid now clock w1))) sid)
        as [s''|] eqn:Hs''.
      * destruct (Q sid s'' Hs'') as (s0 & Hs0 & Co).
        assert (s0 = s') by congruence. subst s0.
        destruct (core_fields _ _ Co) as (E1 & _ & E3 & _).
        exists id, now, clock, sid, s, s''.
        repeat split; auto; try congruence.
        -- rewrite E1, Ec. exact (ok_coords _ _ _ _ Ks).
        -- intros Hh. destruct (H sid Hh) as (s1 & Hs1 & E & _). congruence.
      * exfalso. apply nth_error_None in Hs''.
        assert (sid < length (sessions (frame sid now clock w1)))%nat
          by (apply nth_error_Some; congruence).
        lia.
    + exists id, now, clock, sid, s, s'.
      repeat split; auto.
      * rewrite Ec. exact (ok_coords _ _ _ _ Ks).
      * intros Hh. destruct (H sid Hh) as (s1 & Hs1 & E & _). congruence.
Qed.

(** *** Running the model on given frames *)

#[local] Arguments IZR _ : simpl never.

Lemma ltb_true (x y : R) : x < y -> JsMath.ltb x y = true.
Proof.
  intros H. unfold JsMath.ltb.
  destruct (Rlt_dec x y); [reflexivity | contradiction].
Qed.

Lemma ltb_false (x y : R) : y <= x -> JsMath.ltb x y = false.
Proof.
  intros H. unfold JsMath.ltb. destruct (Rlt_dec x y); [lra | reflexivity].
Qed.

Lemma min_left (x y : R) : x <= y -> JsMath.min x y = x.
Proof.
  intros H. unfold JsMath.min.
  destruct (Rle_dec x y); [reflexivity | contradiction].
Qed.

Lemma min_right (x y : R) : y <= x -> JsMath.min x y = y.
Proof.
  intros H. unfold JsMath.min. destruct (Rle_dec x y); [lra | reflexivity].
Qed.

Lemma step_frame (w : World) (id sid : nat) (rest : list (nat * nat))
    (now clock : R) :
  take_frame id (frames w) = Some (sid, rest) ->
  step w (Frame id now clock) =
  commit_after_frame w (frame sid now clock (with_frames rest w)).
Proof. intros T. simpl. now rewrite T. Qed.

Lemma frame_paused_eq (sid : nat) (now clock : R) (w : World) (s : Session)
    (g : Segment) :
  nth_error (sessions w) sid = Some s -> segment s = Some g ->
  isPaused w = true ->
  frame sid now clock w = frame_poll sid w.
Proof. intros Hs Hg P. unfold frame. now rewrite Hs, Hg, P. Qed.

Lemma frame_within_eq (sid : nat) (now clock : R) (w : World) (s : Session)
    (g : Segment) :
  nth_error (sessions w) sid = Some s -> segment s = Some g ->
  isPaused w = false ->
  (now - startTime g) / duration g < 1 ->
  frame sid now clock w =
  frame_again sid
    (frame_draw sid s g ((now - startTime g) / duration g) w).
Proof.
  intros Hs Hg P L. unfold frame. rewrite Hs, Hg, P.
  rewrite min_left by lra. cbv zeta. now rewrite ltb_true by lra.
Qed.

Lemma frame_arrive_eq (sid : nat) (now clock : R) (w : World) (s : Session)
    (g : Segment) :
  nth_error (sessions w) sid = Some s -> segment s = Some g ->
  isPaused w = false ->
  1 <= (now - startTime g) / duration g ->
  frame sid now clock w =
  frame_arrive sid s g clock (frame_draw sid s g 1 w).
Proof.
  intros Hs Hg P L. unfold frame. rewrite Hs, Hg, P.
  rewrite min_right by lra. cbv zeta. now rewrite ltb_false by lra.
Qed.

Ltac eval_world :=
  cbv - [Rplus Rmult Rminus Rdiv Rinv Ropp IZR JsMath.min JsMath.ltb
         Easing.easeInOutCubic zoom_at Rle_dec Rlt_dec Req_dec_T INR].

Ltac eval_world_in H :=
  cbv - [Rplus Rmult Rminus Rdiv Rinv Ropp IZR JsMath.min JsMath.ltb
         Easing.easeInOutCubic zoom_at Rle_dec Rlt_dec Req_dec_T INR] in H.

(** Runs the innermost frame step of the goal whose world holds no
    frame step of its own. *)
Ltac run_innermost_frame :=
  match goal with
  | |- context [step ?w (Frame ?id ?now ?clock)] =>
      lazymatch w with
      | context [Frame] => fail
      | _ =>
          let w0 := fresh "w0" in
          set (w0 := w); eval_world_in w0;
          erewrite (step_frame w0 id _ _ now clock) by reflexivity;
          first
            [ erewrite frame_paused_eq;
              [| reflexivity | reflexivity | reflexivity ]
            | erewrite frame_within_eq;
              [| reflexivity | reflexivity | reflexivity | simpl; lra ]
            | erewrite frame_arrive_eq;
              [| reflexivity | reflexivity | reflexivity | simpl; lra ] ];
          subst w0
      end
  end.

Ltac run_trace :=
  unfold overtaken, finished, requested, resumed, paused, at_1400, started,
    run;
  cbn [fold_left];
  repeat run_innermost_frame; eval_world.

(** C1.  The scenario of the specification, run on the code.  Segment 0
    starts at clock 0 and lasts 3500 ms.  The frame at 1400 ms computes
    t = 0.4.  The animation is then paused, and two frames pass (at 1416
    and 2784 ms) with t frozen at 0.4.  It is resumed, and the next
    frame, at 2816 ms, comes 16 ms of running time later: it computes
    t = 0.4 + (1400 + 16) / 3500, not 0.4 + 16 / 3500: the 1400 ms spent
    paused are counted.  [frame] measures from the [startTime] of the
    segment, and nothing moves [startTime] or keeps account of the time
    spent paused. *)
Theorem pause_counts_paused_time :
  raw_t at_1400 0 = Some (2 / 5) /\
  raw_t paused 0 = Some (2 / 5) /\
  raw_t resumed 0 = Some (2 / 5 + (1400 + 16) / 3500) /\
  2 / 5 + (1400 + 16) / 3500 <> 2 / 5 + 16 / 3500.
Proof.
  split; [|split; [|split]].
  - run_trace. f_equal. field.
  - run_trace. f_equal. field.
  - run_trace. f_equal. field.
  - lra.
Qed.

(** C5.  A change of the coordinate list (here to the one coordinate of
    Paris) in the states of a session:

    - while the session is paused: the frame callback that is pending
      (id 4, kept in [animationStateRef.current.currentFrame]) is still
      pending afterwards, since [cleanup] cancels [animationFrame]
      (id 2); it runs and asks for the next one (id 5); and the flags
      [animating] and [animationRequested] stay set;
    - while the session waits for the camera: its [onMoveEnd] stays
      registered, and on the next [moveend] it adds the route layer and
      asks for a frame;
    - while the session runs: the frame is cancelled and the route is
      removed, but [animating] and [animationRequested] stay set;
    - while the session runs again after a pause: the pending frame
      callback is the one asked for while paused (id 4), and it stays
      pending, whether the new list has one coordinate or two. *)
Theorem teardown_is_incomplete :
  (animationPaused paused = true /\
   frames paused = [(4, 0)]%nat /\
   frames (step paused (CoordsArrive [paris])) = [(4, 0)]%nat /\
   animating (step paused (CoordsArrive [paris])) = true /\
   animationRequested (step paused (CoordsArrive [paris])) = true /\
   frames (run paused [CoordsArrive [paris]; Frame 4 3000 3000]) =
     [(5, 0)]%nat) /\
  (moveend requested = [O] /\ frames requested = [] /\
   moveend (step requested (CoordsArrive [paris])) = [O] /\
   frames (run requested [CoordsArrive [paris]; MoveEnd 0]) = [(1, 0)]%nat /\
   route_layer (run requested [CoordsArrive [paris]; MoveEnd 0]) =
     Some (2, 3)%nat) /\
  (frames at_1400 = [(2, 0)]%nat /\
   frames (step at_1400 (CoordsArrive [paris])) = [] /\
   route_layer (step at_1400 (CoordsArrive [paris])) = None /\
   animating (step at_1400 (CoordsArrive [paris])) = true /\
   animationRequested (step at_1400 (CoordsArrive [paris])) = true) /\
  (isPaused (step paused ClickPause) = false /\
   frames (step paused ClickPause) = [(4, 0)]%nat /\
   frames (run paused [ClickPause; CoordsArrive [paris]]) = [(4, 0)]%nat /\
   frames (run paused [ClickPause; CoordsArrive [tokyo; paris]]) =
     [(4, 0)]%nat).
Proof.
  repeat split; run_trace; reflexivity.
Qed.

(** C6.  A click on Start while a session is under way.  In the state
    [overtaken] the coordinates changed while the first session was
    paused, and its frame callback, never cancelled, has since ended
    its segment and cleared [animating] and [animationRequested]; the
    session that the change started still waits for the camera, its
    [onMoveEnd] registered.  The Start button is enabled.  A click
    creates a third session, and the next ['moveend'] starts both: two
    sessions ask for frames side by side. *)
Theorem start_with_listener_pending :
  animating overtaken = false /\ animationRequested overtaken = false /\
  held overtaken = None /\ panel overtaken = true /\
  length (sessions overtaken) = 2%nat /\ moveend overtaken = [1%nat] /\
  length (sessions (step overtaken ClickStart)) = 3%nat /\
  moveend (step overtaken ClickStart) = [1; 2]%nat /\
  frames (run overtaken [ClickStart; MoveEnd 6000]) = [(5, 1); (6, 2)]%nat.
Proof.
  repeat split; run_trace; reflexivity.
Qed.

Lemma reachable_started : reachable started.
Proof. unfold started. apply anim_reachable_run. constructor. Qed.

Lemma completion_confirmed_prefix_witness :
  exists id now clock sid s s',
    Frame 1 3500 3500 = Frame id now clock /\ In (id, sid) (frames started) /\
    nth_error (sessions started) sid = Some s /\
    nth_error (sessions (step started (Frame 1 3500 3500))) sid = Some s' /\
    s_coords s' = s_coords s /\
    (2 <= length (s_coords s'))%nat /\
    progressCoords s' = s_coords s' /\
    (held started = Some sid -> s_coords s' = coords started) /\
    animationRequested (step started (Frame 1 3500 3500)) = false.
Proof.
  apply (completion_confirmed_prefix started (Frame 1 3500 3500)).
  - exact reachable_started.
  - reflexivity.
  - run_trace. reflexivity.
Defined.

(** The run of the examples ends with [progressCoords] on both
    coordinates. *)
Lemma finished_state :
  animating finished = false /\ animationRequested finished = false /\
  frames finished = [] /\
  option_map progressCoords (nth_error (sessions finished) 0) =
    Some [paris; tokyo].
Proof. repeat split; run_trace; reflexivity. Qed.

Lemma start_request_noop_witness :
  step (run initial [MapCreated; CoordsArrive [paris]]) ClickStart =
  run initial [MapCreated; CoordsArrive [paris]].
Proof.
  refine (proj1 (start_request_noop
                   (run initial [MapCreated; CoordsArrive [paris]]) _ _)).
  - apply anim_reachable_run. constructor.
  - left. simpl. lia.
Defined.

Lemma speed_contract_witness :
  In (animationSpeed (run initial [CoordsArrive [paris; tokyo]; SlideSpeed 4]))
     [1 / 2; 1; 3 / 2; 2; 5 / 2; 3].
Proof.
  refine (proj1 (speed_contract
                   (run initial [CoordsArrive [paris; tokyo]; SlideSpeed 4])
                   _)).
  apply anim_reachable_run. constructor.
Defined.

(** *** Pausing *)

(** A frame callback that runs while paused changes no session. *)
Lemma paused_frame_step (w : World) (id : nat) (now clock : R) :
  isPaused w = true ->
  let w' := step w (Frame id now clock) in
  sessions w' = sessions w /\ isPaused w' = true /\
  animationPaused w' = animationPaused w /\
  animating w' = animating w /\ coords w' = coords w.
Proof.
  intros P. simpl.
  destruct (take_frame id (frames w)) as [[sid rest]|]; [|auto].
  unfold commit_after_frame, frame. simpl. rewrite P.
  destruct (nth_error (sessions w) sid) as [s|];
    [destruct (segment s) as [g|]|]; simpl;
    rewrite andb_negb_r; auto.
Qed.

Lemma paused_frames_run (polls : list Event) (w : World) :
  Forall (fun e => exists id now clock, e = Frame id now clock) polls ->
  isPaused w = true ->
  sessions (run w polls) = sessions w /\ isPaused (run w polls) = true /\
  animationPaused (run w polls) = animationPaused w /\
  animating (run w polls) = animating w /\
  coords (run w polls) = coords w.
Proof.
  intros F. revert w. induction F as [|e polls (id & now & clock & ->) F IH];
    intros w P; [simpl; auto|].
  destruct (paused_frame_step w id now clock P) as (A & B & C & D & E).
  destruct (IH _ B) as (A' & B' & C' & D' & E').
  change (run w (Frame id now clock :: polls))
    with (run (step w (Frame id now clock)) polls).
  repeat split; congruence.
Qed.

(** A frame callback that runs while not paused and before the
    segment's end leaves [t] at the wall-clock ratio. *)
Lemma running_frame_step (w : World) (id sid : nat) (rest : list (nat * nat))
    (s : Session) (g : Segment) (now clock : R) :
  take_frame id (frames w) = Some (sid, rest) ->
  nth_error (sessions w) sid = Some s -> segment s = Some g ->
  isPaused w = false ->
  (now - startTime g) / duration g < 1 ->
  raw_t (step w (Frame id now clock)) sid =
    Some ((now - startTime g) / duration g).
Proof.
  intros T Hs Hg P L. rewrite (step_frame _ _ _ _ _ _ T).
  set (w1 := with_frames rest w).
  destruct (frame_cases sid now clock w1 s g Hs Hg)
    as [(P' & _)|[(_ & _ & _ & _ & Er & s' & Hs' & Sg & _)|
        [(_ & Lt & _)|(_ & Lt & _)]]].
  - simpl in P'. congruence.
  - unfold commit_after_frame. simpl in Er. rewrite Er, andb_negb_r.
    unfold raw_t. rewrite Hs', Sg. simpl. f_equal. apply min_left. lra.
  - rewrite min_left, ltb_true in Lt by lra. discriminate.
  - rewrite min_left, ltb_true in Lt by lra. discriminate.
Qed.

(** The same for any pause.  A session is in a segment that started at
    [startTime] and lasts [duration], its last computed progress being
    [t]; Pause is clicked; any number of frames pass; Pause is clicked
    again; the session's frame callback runs at [now].  While paused,
    [t] stayed as it was; the frame after resuming computes
    t = (now - startTime) / duration (when that is below 1) from the
    wall clock: if [t] had been computed at [now0], the new value is
    t + (now - now0) / duration, where [now - now0] holds the whole time
    spent paused. *)
Theorem raw_t_is_wall_clock (w : World) (polls : list Event) (id sid : nat)
    (rest : list (nat * nat)) (s : Session) (g : Segment) (now clock : R) :
  panel w = true -> animating w = true -> animationPaused w = false ->
  Forall (fun e => exists id now clock, e = Frame id now clock) polls ->
  nth_error (sessions w) sid = Some s -> segment s = Some g ->
  take_frame id (frames (step (run (step w ClickPause) polls) ClickPause)) =
    Some (sid, rest) ->
  (now - startTime g) / duration g < 1 ->
  raw_t (run (step w ClickPause) polls) sid = Some (t g) /\
  raw_t (step (step (run (step w ClickPause) polls) ClickPause)
              (Frame id now clock)) sid =
    Some ((now - startTime g) / duration g) /\
  (forall now0, duration g <> 0 ->
     t g = (now0 - startTime g) / duration g ->
     (now - startTime g) / duration g = t g + (now - now0) / duration g).
Proof.
  intros Pn An Ap F Hs Hg T L.
  set (w1 := step w ClickPause) in *.
  assert (E1 : sessions w1 = sessions w /\ isPaused w1 = true /\
               animationPaused w1 = true /\ animating w1 = true /\
               coords w1 = coords w).
  { subst w1. simpl. rewrite Pn, An, Ap. simpl. auto. }
  destruct E1 as (S1 & P1 & A1 & N1 & C1).
  destruct (paused_frames_run polls w1 F P1) as (S2 & P2 & A2 & N2 & C2).
  set (w2 := run w1 polls) in *.
  set (w3 := step w2 ClickPause) in *.
  assert (E3 : sessions w3 = sessions w /\ isPaused w3 = false).
  { subst w3. simpl. unfold panel. rewrite C2, C1. fold (panel w).
    rewrite Pn, N2, N1, A2, A1. simpl. split; congruence. }
  destruct E3 as (S3 & P3).
  split; [|split].
  - unfold raw_t. rewrite S2, S1, Hs, Hg. reflexivity.
  - apply (running_frame_step w3 id sid rest s g now clock T); auto.
    congruence.
  - intros now0 D E. rewrite E. field. exact D.
Qed.

Lemma raw_t_is_wall_clock_witness :
  raw_t (step (step (run (step at_1400 ClickPause)
                         [Frame 2 1416 1416; Frame 3 2784 2784])
                    ClickPause)
              (Frame 4 2816 2816)) 0 =
    Some ((2816 - 0) / (3500 / 1)).
Proof.
  refine (proj1 (proj2
    (raw_t_is_wall_clock at_1400 [Frame 2 1416 1416; Frame 3 2784 2784]
       4%nat O []
       (mkSession [paris; tokyo] 1 false (Some 2%nat) _ true true true false
                  [paris] 0 _)
       (mkSegment paris tokyo (3500 / 1) 0 ((1400 - 0) / (3500 / 1)))
       2816 2816 _ _ _ _ _ _ _ _))).
  - run_trace. reflexivity.
  - run_trace. reflexivity.
  - run_trace. reflexivity.
  - repeat constructor; eexists; eexists; eexists; reflexivity.
  - run_trace. reflexivity.
  - reflexivity.
  - run_trace. reflexivity.
  - simpl. lra.
Defined.

(** *** Invalidation *)

Lemma map_ready_animation_effect (seen : list nat) (w : World) :
  map_ready (animation_effect seen w) = map_ready w.
Proof.
  destruct (animation_effect_cases seen w) as [[E _]|_]; [now rewrite E|].
  unfold animation_effect.
  destruct (negb (animationRequested w) || negb (map_ready w) ||
            (length (coords w) <? 2)%nat); [reflexivity|].
  unfold playSound. simpl. destruct (soundEnabled w); reflexivity.
Qed.

Lemma map_ready_place_markers_effect (w : World) :
  map_ready (place_markers_effect w) = map_ready w.
Proof.
  unfold place_markers_effect.
  destruct (negb (map_ready w) || (length (coords w) =? 0)%nat); reflexivity.
Qed.

Lemma map_ready_rerun (seen : list nat) (w : World) :
  map_ready (rerun_animation_effect seen w) = map_ready w.
Proof.
  unfold rerun_animation_effect. rewrite map_ready_animation_effect. simpl.
  destruct (held w) as [sid|]; [|reflexivity].
  apply (flags_cleanup sid w).
Qed.

Lemma map_ready_step (w : World) (e : Event) :
  map_ready w = true -> map_ready (step w e) = true.
Proof.
  intros M. destruct e as [|cs| | |k| |clock|id now clock]; simpl.
  - reflexivity.
  - rewrite map_ready_animation_effect. simpl.
    rewrite map_ready_place_markers_effect.
    destruct (held w) as [sid|]; [|exact M].
    now rewrite (proj2 (proj2 (proj2 (proj2 (flags_cleanup sid _))))).
  - destruct (negb (panel w) || animating w || (length (coords w) <? 2)%nat);
      [exact M|].
    destruct (animationRequested w); [exact M|].
    now rewrite map_ready_rerun.
  - destruct (panel w && animating w); exact M.
  - destruct (panel w && negb (animating w) && has_stop k); [|exact M].
    destruct (Req_dec_T (speed_stop k) (animationSpeed w)); [exact M|].
    now rewrite map_ready_rerun.
  - destruct (panel w); exact M.
  - now rewrite (c_map_ready _ _
                   (same_closures_moveEnd_fold clock (moveend w) w)).
  - destruct (take_frame id (frames w)) as [[sid rest]|]; [|exact M].
    unfold commit_after_frame.
    destruct (animationRequested w && negb _);
      rewrite ?map_ready_rerun;
      now rewrite (c_map_ready _ _ (same_closures_frame sid now clock _)).
Qed.

(** A session exists only once the map does. *)
Lemma sessions_need_map (w : World) :
  reachable w -> sessions w <> [] -> map_ready w = true.
Proof.
  induction 1 as [|w e R IH]; [intros N; now elim N|].
  intros N. destruct (map_ready w) eqn:M; [now apply map_ready_step|].
  assert (E : sessions w = []).
  { destruct (sessions w) eqn:S; [reflexivity|].
    assert (false = true) by (apply IH; discriminate).
    discriminate. }
  pose proof (anim_reachable_Inv w R) as ((_ & B) & _).
  assert (Em : moveend w = [] /\ frames w = []).
  { rewrite E in B. destruct (moveend w) as [|x mv].
    - destruct (frames w) as [|[x y] fr]; [auto|].
      specialize (B y (or_introl eq_refl)). simpl in B. lia.
    - specialize (B x (or_introl eq_refl)). simpl in B. lia. }
  destruct Em as [Em Ef].
  assert (Eff : forall seen w0, map_ready w0 = false -> sessions w0 = [] ->
                  sessions (animation_effect seen w0) = []).
  { intros seen w0 M0 S0. unfold animation_effect. rewrite M0.
    now rewrite orb_true_r. }
  exfalso. apply N. clear N.
  destruct e as [|cs| | |k| |clock|id now clock]; simpl.
  - exact E.
  - apply Eff.
    + simpl. rewrite map_ready_place_markers_effect.
      destruct (held w) as [sid|]; [|exact M].
      now rewrite (proj2 (proj2 (proj2 (proj2 (flags_cleanup sid _))))).
    + simpl.
      pose proof (q_len _ _ (quieter_place_markers_effect
        (match held w with
         | Some sid => cleanup sid (setCoords cs w)
         | None => setCoords cs w
         end))) as L1.
      apply length_zero_iff_nil. rewrite L1.
      destruct (held w) as [sid|].
      * rewrite (q_len _ _ (quieter_cleanup sid (setCoords cs w))).
        simpl. now rewrite E.
      * simpl. now rewrite E.
  - destruct (negb (panel w) || animating w || (length (coords w) <? 2)%nat);
      [exact E|].
    destruct (animationRequested w); [exact E|].
    unfold rerun_animation_effect. apply Eff; simpl.
    + destruct (held w) as [sid|]; [|exact M].
      now rewrite (proj2 (proj2 (proj2 (proj2 (flags_cleanup sid _))))).
    + apply length_zero_iff_nil. destruct (held w) as [sid|].
      * rewrite (q_len _ _ (quieter_cleanup sid _)). simpl. now rewrite E.
      * simpl. now rewrite E.
  - destruct (panel w && animating w); exact E.
  - destruct (panel w && negb (animating w) && has_stop k); [|exact E].
    destruct (Req_dec_T (speed_stop k) (animationSpeed w)); [exact E|].
    unfold rerun_animation_effect. apply Eff; simpl.
    + destruct (held w) as [sid|]; [|exact M].
      now rewrite (proj2 (proj2 (proj2 (proj2 (flags_cleanup sid _))))).
    + apply length_zero_iff_nil. destruct (held w) as [sid|].
      * rewrite (q_len _ _ (quieter_cleanup sid _)). simpl. now rewrite E.
      * simpl. now rewrite E.
  - destruct (panel w); exact E.
  - rewrite Em. exact E.
  - rewrite Ef. exact E.
Qed.

(** [cleanup] of a session whose pending callback is the one recorded
    in [animationFrame], and which has added its route. *)
Lemma cleanup_running (w : World) (sid id : nat) (s : Session) :
  nth_error (sessions w) sid = Some s ->
  cleanupDone s = false ->
  routeLayerAdded s = true -> routeSourceAdded s = true ->
  animationFrame s = Some id -> id <> O ->
  let w' := cleanup sid w in
  frames w' = filter (fun p => negb (fst p =? id)%nat) (frames w) /\
  sessions w' =
    update_nth sid (fun s => set_marker_shown false (set_cleanupDone true s))
               (sessions w) /\
  route_layer w' = None /\ route_source w' = None /\
  markers w' = markers w.
Proof.
  intros Hs Hd Hl Hr Hf N. unfold cleanup. rewrite Hs, Hd, Hl, Hr, Hf.
  apply Nat.eqb_neq in N. rewrite N.
  destruct (route_layer w) eqn:L; destruct (route_source w) eqn:S;
    simpl; rewrite ?L, ?S; simpl; rewrite ?S; simpl;
    rewrite update_nth_twice; auto.
Qed.

Lemma place_markers_effect_keeps (w : World) :
  let w' := place_markers_effect w in
  frames w' = frames w /\ sessions w' = sessions w /\
  route_layer w' = route_layer w /\ route_source w' = route_source w.
Proof.
  unfold place_markers_effect.
  destruct (negb (map_ready w) || (length (coords w) =? 0)%nat); simpl; auto.
Qed.

Lemma animation_effect_starts (seen : list nat) (w : World) :
  animationRequested w = true -> map_ready w = true ->
  (2 <= length (coords w))%nat ->
  let w' := animation_effect seen w in
  frames w' = frames w /\
  sessions w' =
    sessions w ++
    [mkSession (coords w) (animationSpeed w) (soundEnabled w) None
               (nth 0 (coords w) origin) true false false false
               [nth 0 (coords w) origin] 0 None] /\
  route_layer w' = None /\ route_source w' = None /\
  held w' = Some (length (sessions w)) /\
  isPaused w' = false /\ animationPaused w' = false /\
  currentSegment w' = O /\ coords w' = coords w.
Proof.
  intros Rq Mr L. unfold animation_effect. rewrite Rq, Mr.
  apply Nat.ltb_ge in L. rewrite L. unfold playSound. simpl.
  destruct (soundEnabled w); simpl; auto 10.
Qed.

(** What [cleanup] does achieve.  React holds the cleanup of a session
    that has added its route and whose pending frame callback is the
    one recorded in [animationFrame] (the session runs and has not been
    paused since that callback was asked for), and the coordinate list
    changes.  Then no frame callback of the
    session is pending any more, its marker is off the map, and the
    route layer and source are gone; [animating] and
    [animationRequested] stay set; with fewer than two coordinates no
    session is started, and with two or more a new session is started
    at once on the new list, from its first coordinate, not paused. *)
Theorem invalidation_while_running (w : World) (cs : list Coordinate)
    (sid id : nat) (s : Session) :
  reachable w ->
  held w = Some sid -> nth_error (sessions w) sid = Some s ->
  cleanupDone s = false ->
  routeLayerAdded s = true -> routeSourceAdded s = true ->
  animationFrame s = Some id -> id <> O ->
  (forall id', In (id', sid) (frames w) -> id' = id) ->
  let w' := step w (CoordsArrive cs) in
  (forall id', ~ In (id', sid) (frames w')) /\
  (exists s', nth_error (sessions w') sid = Some s' /\
              marker_shown s' = false /\ cleanupDone s' = true) /\
  route_layer w' = None /\ route_source w' = None /\
  animating w' = true /\ animationRequested w' = true /\
  coords w' = cs /\
  ((length cs < 2)%nat ->
     held w' = None /\ length (sessions w') = length (sessions w)) /\
  ((2 <= length cs)%nat ->
     held w' = Some (length (sessions w)) /\
     isPaused w' = false /\ currentSegment w' = O /\
     exists s1, nth_error (sessions w') (length (sessions w)) = Some s1 /\
                s_coords s1 = cs /\ i s1 = O /\
                progressCoords s1 = [nth 0 cs origin]).
Proof.
  intros R Hh Hs Hd Hl Hr Hf N Only.
  assert (Hne : held w <> None) by congruence.
  destruct (reachable_held_flags w R Hne) as [An Rq].
  assert (Mr : map_ready w = true).
  { apply (sessions_need_map w R). intros E. rewrite E in Hs. now destruct sid. }
  simpl. rewrite Hh.
  set (w1 := cleanup sid (setCoords cs w)).
  destruct (cleanup_running (setCoords cs w) sid id s Hs Hd Hl Hr Hf N)
    as (F1 & S1 & L1 & O1 & _).
  destruct (flags_cleanup sid (setCoords cs w)) as (A1 & R1 & _ & C1 & M1).
  fold w1 in F1, S1, L1, O1, A1, R1, C1, M1. simpl in F1, S1, A1, R1, C1, M1.
  set (w2 := place_markers_effect w1).
  destruct (place_markers_effect_keeps w1) as (F2 & S2 & L2 & O2).
  destruct (flags_place_markers_effect w1) as (A2 & R2 & _ & C2).
  pose proof (map_ready_place_markers_effect w1) as M2.
  fold w2 in F2, S2, L2, O2, A2, R2, C2, M2.
  set (w3 := with_held None w2).
  assert (NoFrame : forall id', ~ In (id', sid) (frames w3)).
  { intros id' Hin. simpl in Hin. rewrite F2, F1 in Hin.
    apply filter_In in Hin. destruct Hin as [Hin Ne].
    rewrite (Only id' Hin) in Ne. simpl in Ne.
    now rewrite Nat.eqb_refl in Ne. }
  assert (Old : nth_error (sessions w3) sid =
                Some (set_marker_shown false (set_cleanupDone true s))).
  { simpl. rewrite S2, S1.
    now rewrite (nth_error_update_nth_same _ _ _ _ Hs). }
  assert (Len : length (sessions w3) = length (sessions w)).
  { simpl. rewrite S2, S1. apply length_update_nth. }
  assert (L3 : route_layer w3 = None) by (simpl; congruence).
  assert (O3 : route_source w3 = None) by (simpl; congruence).
  assert (A3 : animating w3 = true) by (simpl; congruence).
  assert (R3 : animationRequested w3 = true) by (simpl; congruence).
  assert (C3 : coords w3 = cs) by (simpl; congruence).
  assert (M3 : map_ready w3 = true) by (simpl; congruence).
  destruct (Nat.lt_ge_cases (length cs) 2) as [Lt|Ge].
  - assert (E : animation_effect (markers w) w3 = w3).
    { unfold animation_effect. rewrite C3.
      apply Nat.ltb_lt in Lt. rewrite Lt. now rewrite !orb_true_r. }
    rewrite E.
    split; [exact NoFrame|].
    split; [eexists; split; [exact Old | now split]|].
    do 5 (split; [assumption|]).
    split; [intros _; split; [reflexivity | exact Len] | intros G; lia].
  - destruct (animation_effect_starts (markers w) w3 R3 M3) as
      (F4 & S4 & L4 & O4 & H4 & P4 & _ & G4 & C4).
    { rewrite C3. exact Ge. }
    destruct (animation_effect_cases (markers w) w3)
      as [[_ [D|[D|D]]]|(_ & _ & A4 & R4 & _)].
    { congruence. }
    { congruence. }
    { rewrite C3 in D. lia. }
    split; [intros id'; rewrite F4; apply NoFrame|].
    split.
    { eexists. split.
      - rewrite S4. rewrite nth_error_app1; [exact Old|].
        apply nth_error_Some. congruence.
      - now split. }
    split; [exact L4|]. split; [exact O4|]. split; [exact A4|].
    split; [exact R4|]. split; [congruence|].
    split; [intros G; lia|]. intros _.
    split; [congruence|]. split; [exact P4|]. split; [exact G4|].
    eexists. split.
    + rewrite S4, nth_error_app2 by lia.
      rewrite Len, Nat.sub_diag. reflexivity.
    + rewrite C3. simpl. auto.
Qed.

Lemma invalidation_while_running_witness :
  (forall id', ~ In (id', O) (frames (step at_1400 (CoordsArrive [tokyo; paris])))) /\
  animating (step at_1400 (CoordsArrive [tokyo; paris])) = true /\
  held (step at_1400 (CoordsArrive [tokyo; paris])) = Some 1%nat.
Proof.
  assert (H : exists s, nth_error (sessions at_1400) 0 = Some s /\
            cleanupDone s = false /\ routeLayerAdded s = true /\
            routeSourceAdded s = true /\ animationFrame s = Some 2%nat).
  { run_trace. eexists. split; [reflexivity|]. auto. }
  destruct H as (s & Hs & Hd & Hl & Hr & Hf).
  assert (Hh : held at_1400 = Some O) by (run_trace; reflexivity).
  assert (Only : forall id', In (id', O) (frames at_1400) -> id' = 2%nat).
  { run_trace. intros id' [E|[]]. congruence. }
  assert (R : reachable at_1400).
  { unfold at_1400. constructor. exact reachable_started. }
  assert (Len : length (sessions at_1400) = 1%nat) by (run_trace; reflexivity).
  destruct (invalidation_while_running at_1400 [tokyo; paris] O 2%nat s
              R Hh Hs Hd Hl Hr Hf (Nat.neq_succ_0 1) Only)
    as (A & _ & _ & _ & B & _ & _ & _ & C).
  destruct (C (le_n 2)) as (D & _).
  rewrite Len in D. auto.
Defined.

(** *** Running to completion *)

(** The frame that ends a segment which is not the last one. *)
Lemma frame_arrive_more (sid : nat) (now clock : R) (w : World) (s : Session)
    (g : Segment) :
  nth_error (sessions w) sid = Some s -> segment s = Some g ->
  isPaused w = false ->
  1 <= (now - startTime g) / duration g ->
  (i s + 1 <? length (s_coords s) - 1)%nat = true ->
  let w' := frame sid now clock w in
  frames w' = frames w ++ [(next_frame w, sid)] /\
  next_frame w' = S (next_frame w) /\
  isPaused w' = false /\
  animating w' = animating w /\
  animationRequested w' = animationRequested w /\
  exists s', nth_error (sessions w') sid = Some s' /\
    s_coords s' = s_coords s /\ s_speed s' = s_speed s /\
    i s' = (i s + 1)%nat /\
    progressCoords s' = progressCoords s ++ [end_ g] /\
    segment s' =
      Some (mkSegment (nth (i s + 1) (s_coords s) origin)
                      (nth (i s + 1 + 1) (s_coords s) origin)
                      (3500 / s_speed s) clock 0).
Proof.
  intros Hs Hg P L More. cbv zeta.
  rewrite (frame_arrive_eq sid now clock w s g Hs Hg P L).
  unfold frame_arrive, frame_draw, onDone, setData, playSound.
  destruct (route_source w) eqn:Rs; destruct (s_sound s) eqn:Se.
  all: repeat (progress (simpl; repeat rewrite update_nth_twice;
                         repeat rewrite (nth_error_update_nth_same _ _ _ _ Hs);
                         rewrite ?Rs, ?Se, ?More)).
  all: unfold animateRoute, animateSegment.
  all: repeat (progress (simpl; repeat rewrite update_nth_twice;
                         repeat rewrite (nth_error_update_nth_same _ _ _ _ Hs);
                         rewrite ?Rs, ?Se, ?More, ?P)).
  all: do 5 (split; [reflexivity || assumption|]).
  all: eexists; split; [reflexivity|]; simpl; auto 10.
Qed.

Lemma started_running (cs : list Coordinate) :
  (2 <= length cs)%nat -> running_at (run initial (start_events cs)) cs 0.
Proof.
  intros L. destruct cs as [|c0 [|c1 cs]]; simpl in L; try lia.
  unfold start_events. constructor.
  1,2,3,4: eval_world; reflexivity.
  eval_world. do 2 eexists. split; [reflexivity|].
  repeat (split; [reflexivity|]).
  split; [simpl; lra | split; reflexivity].
Qed.

Lemma arrival_ratio (k : nat) (g : Segment) :
  startTime g = 3500 * INR k -> duration g = 3500 / 1 ->
  (3500 * INR (S k) - startTime g) / duration g = 1.
Proof. intros -> ->. rewrite S_INR. field. Qed.

Lemma arrival_more (w : World) (cs : list Coordinate) (k : nat) :
  running_at w cs k -> (k + 1 < length cs - 1)%nat ->
  running_at (step w (arrival k)) cs (S k).
Proof.
  intros [Fr Nx Pa Rq (s & g & Hs & Ec & Es & Ei & Ep & Hg & St & Du & En)] M.
  unfold arrival.
  assert (T : take_frame (S k) (frames w) = Some (O, []))
    by (rewrite Fr; simpl; now rewrite Nat.eqb_refl).
  rewrite (step_frame _ _ _ _ _ _ T).
  set (w1 := with_frames [] w).
  destruct (frame_arrive_more 0 (3500 * INR (S k)) (3500 * INR (S k)) w1 s g
              Hs Hg Pa)
    as (F' & N' & P' & _ & R' & s' & Hs' & Ec' & Es' & Ei' & Ep' & Sg').
  { rewrite (arrival_ratio k g St Du). lra. }
  { apply Nat.ltb_lt. rewrite Ei, Ec. exact M. }
  unfold commit_after_frame. fold w1. rewrite R'.
  change (animationRequested w1) with (animationRequested w).
  rewrite andb_negb_r.
  constructor.
  - rewrite F'. simpl. now rewrite Nx.
  - rewrite N'. simpl. now rewrite Nx.
  - exact P'.
  - rewrite R'. exact Rq.
  - exists s'. eexists. split; [exact Hs'|].
    split; [congruence|]. split; [congruence|].
    split; [rewrite Ei'; lia|].
    split.
    { rewrite Ep', Ep, En, Nat.add_1_r. apply firstn_snoc_nth. lia. }
    split; [exact Sg'|]. simpl.
    split; [reflexivity|]. split; [now rewrite Es|].
    rewrite Ei, Ec. f_equal. lia.
Qed.

Lemma arrival_last (w : World) (cs : list Coordinate) (k : nat) :
  running_at w cs k -> (k + 1 = length cs - 1)%nat -> (2 <= length cs)%nat ->
  let w' := step w (arrival k) in
  animating w' = false /\ animationRequested w' = false /\
  exists s, nth_error (sessions w') 0 = Some s /\
            s_coords s = cs /\ progressCoords s = cs.
Proof.
  intros [Fr Nx Pa Rq (s & g & Hs & Ec & Es & Ei & Ep & Hg & St & Du & En)] M L.
  unfold arrival. cbv zeta.
  assert (T : take_frame (S k) (frames w) = Some (O, []))
    by (rewrite Fr; simpl; now rewrite Nat.eqb_refl).
  rewrite (step_frame _ _ _ _ _ _ T).
  set (w1 := with_frames [] w).
  pose proof (arrival_ratio k g St Du) as Ra.
  destruct (frame_cases 0 (3500 * INR (S k)) (3500 * INR (S k)) w1 s g Hs Hg)
    as [(P' & _)|[(_ & Lt & _)|[(_ & _ & More & _)|
        (_ & _ & _ & _ & Ea & Er & s' & Hs' & Ep' & Ei' & Ec')]]].
  - simpl in P'. congruence.
  - rewrite Ra, min_left, ltb_false in Lt by lra. discriminate.
  - apply Nat.ltb_lt in More. rewrite Ei, Ec in More. lia.
  - unfold commit_after_frame. fold w1. rewrite Er, Rq. cbn [negb andb].
    destruct (quieter_rerun_declines
                (markers (frame 0 (3500 * INR (S k)) (3500 * INR (S k)) w1))
                (frame 0 (3500 * INR (S k)) (3500 * INR (S k)) w1) Er)
      as ([Len Q _ _ _] & An' & Rq').
    split; [congruence|]. split; [exact Rq'|].
    destruct (nth_error (sessions (rerun_animation_effect _ _)) 0)
      as [s''|] eqn:Hs''.
    + destruct (Q 0%nat s'' Hs'') as (s0 & Hs0 & Co).
      assert (s0 = s') by congruence. subst s0.
      destruct (core_fields _ _ Co) as (E1 & _ & E3 & _).
      exists s''. split; [reflexivity|]. split; [congruence|].
      rewrite E3, Ep', Ep, En, Nat.add_1_r, firstn_snoc_nth by lia.
      apply firstn_all2. lia.
    + exfalso. apply nth_error_None in Hs''.
      assert (0 < length (sessions (frame 0 (3500 * INR (S k))
                                          (3500 * INR (S k)) w1)))%nat
        by (apply nth_error_Some; congruence).
      lia.
Qed.

Lemma arrivals_complete (cs : list Coordinate) (m k : nat) (w : World) :
  running_at w cs k -> (k + S m = length cs - 1)%nat ->
  let w' := run w (arrivals k (S m)) in
  animating w' = false /\ animationRequested w' = false /\
  exists s, nth_error (sessions w') 0 = Some s /\
            s_coords s = cs /\ progressCoords s = cs.
Proof.
  revert k w. induction m as [|m IH]; intros k w Ra E.
  - apply (arrival_last w cs k Ra); lia.
  - change (run w (arrivals k (S (S m))))
      with (run (step w (arrival k)) (arrivals (S k) (S m))).
    apply IH; [|lia]. apply arrival_more; [exact Ra | lia].
Qed.

Lemma run_app (w : World) (es es' : list Event) :
  run w (es ++ es') = run (run w es) es'.
Proof. apply fold_left_app. Qed.

(** Every coordinate list of two entries or more can be played to its
    end: after the start and one segment-ending frame per segment,
    [animating] and [animationRequested] are clear and [progressCoords]
    is the whole list. *)
Theorem run_to_completion (cs : list Coordinate) :
  (2 <= length cs)%nat ->
  let w := run initial (start_events cs ++ arrivals 0 (length cs - 1)) in
  reachable w /\
  animating w = false /\ animationRequested w = false /\
  exists s, nth_error (sessions w) 0 = Some s /\
            s_coords s = cs /\ progressCoords s = cs.
Proof.
  intros L. cbv zeta. split; [apply anim_reachable_run; constructor|].
  rewrite run_app.
  destruct (length cs - 1)%nat as [|m] eqn:E; [lia|].
  exact (arrivals_complete cs m 0 _ (started_running cs L) (eq_sym E)).
Qed.

(** *** The states a session can be left in *)

Lemma remove_all_static (ids : list nat) (cs : list Coordinate) :
  filter (fun p : nat * Coordinate => negb (existsb (Nat.eqb (fst p)) ids))
         (combine ids cs) = [].
Proof.
  assert (H : forall l, (forall p, In p l -> In (fst p) ids) ->
            filter (fun p : nat * Coordinate =>
                      negb (existsb (Nat.eqb (fst p)) ids)) l = []).
  { induction l as [|p l IH]; intros H; [reflexivity|]. simpl.
    assert (E : existsb (Nat.eqb (fst p)) ids = true).
    { apply existsb_exists. exists (fst p). split; [apply H; now left|].
      apply Nat.eqb_refl. }
    rewrite E. simpl. apply IH. intros q Q. apply H. now right. }
  apply H. intros [a b] I. simpl. exact (in_combine_l _ _ _ _ I).
Qed.

Lemma cleanup_keeps (sid : nat) (w : World) :
  static_markers (cleanup sid w) = static_markers w /\
  camera (cleanup sid w) = camera w /\
  cues (cleanup sid w) = cues w /\
  moveend (cleanup sid w) = moveend w /\
  soundEnabled (cleanup sid w) = soundEnabled w /\
  length (sessions (cleanup sid w)) = length (sessions w).
Proof.
  unfold cleanup.
  repeat match goal with
         | |- context [match ?x with _ => _ end] => destruct x; simpl
         end; rewrite ?length_update_nth; auto 10.
Qed.

(** The frame that ends the last segment: what the callback leaves
    behind, before React commits the state changes. *)
Lemma frame_arrive_last_fields (sid : nat) (now clock : R) (w : World)
    (s : Session) (g : Segment) :
  nth_error (sessions w) sid = Some s -> segment s = Some g ->
  isPaused w = false ->
  1 <= (now - startTime g) / duration g ->
  (i s + 1 <? length (s_coords s) - 1)%nat = false ->
  let w' := frame sid now clock w in
  route_source w' = Some (s_coords s) /\
  route_layer w' = Some (2, 4)%nat /\
  static_markers w' =
    static_markers w ++
    combine (seq (next_marker w) (length (s_coords s))) (s_coords s) /\
  markers w' = seq (next_marker w) (length (s_coords s)) /\
  camera w' = FitBounds (s_coords s) /\
  frames w' = frames w /\ moveend w' = moveend w /\ held w' = held w /\
  animating w' = false /\ animationRequested w' = false /\
  cues w' = cues w ++ (if s_sound s then [CueSegment; CueComplete] else []) /\
  sessions w' =
    update_nth sid
      (fun s => set_marker_shown false
                  (set_i (i s + 1)
                     (set_marker_at (end_ g)
                        (set_progressCoords (progressCoords s ++ [end_ g])
                           (set_segment (Some (set_t 1 g)) s)))))
      (sessions w).
Proof.
  intros Hs Hg P L More. cbv zeta.
  rewrite (frame_arrive_eq sid now clock w s g Hs Hg P L).
  unfold frame_arrive, frame_draw, onDone, setData, playSound.
  destruct (route_source w) eqn:Sc; destruct (s_sound s) eqn:Se.
  all: repeat (progress (simpl; repeat rewrite update_nth_twice;
                         repeat rewrite (nth_error_update_nth_same _ _ _ _ Hs);
                         rewrite ?Sc, ?Se, ?More)).
  all: unfold showAllMarkersAndRoute, add_static.
  all: repeat (progress (simpl; repeat rewrite update_nth_twice;
                         repeat rewrite (nth_error_update_nth_same _ _ _ _ Hs);
                         rewrite ?Sc, ?Se, ?More, ?P)).
  all: destruct (routeLayerAdded s); destruct (route_layer w); simpl.
  all: destruct (routeSourceAdded s); simpl.
  all: repeat (progress (simpl; repeat rewrite update_nth_twice;
                         repeat rewrite (nth_error_update_nth_same _ _ _ _ Hs);
                         rewrite ?Sc, ?Se, ?More, ?P)).
  all: do 10 (split; [reflexivity|]).
  all: split; [now rewrite <- ?app_assoc, ?app_nil_r|].
  all: apply f_equal2; reflexivity.
Qed.

Lemma map_snd_combine {A B : Type} (l : list A) (l' : list B) :
  length l = length l' -> map snd (combine l l') = l'.
Proof.
  revert l'. induction l as [|a l IH]; intros [|b l'] E; simpl in *;
    try discriminate; [reflexivity|].
  f_equal. apply IH. lia.
Qed.

Lemma place_markers_effect_more (w : World) :
  let w' := place_markers_effect w in
  moveend w' = moveend w /\ map_ready w' = map_ready w /\
  animationSpeed w' = animationSpeed w /\ isPaused w' = isPaused w /\
  animationPaused w' = animationPaused w.
Proof.
  unfold place_markers_effect.
  destruct (negb (map_ready w) || (length (coords w) =? 0)%nat); simpl; auto.
Qed.

(** [cleanup] cancels the callback whose id is in [animationFrame]. *)
Lemma cleanup_cancels (w : World) (sid id : nat) (s : Session) :
  nth_error (sessions w) sid = Some s -> cleanupDone s = false ->
  animationFrame s = Some id -> id <> O ->
  frames (cleanup sid w) = filter (fun p => negb (fst p =? id)%nat) (frames w).
Proof.
  intros Hs Hd Hf N. unfold cleanup. rewrite Hs, Hd, Hf.
  apply Nat.eqb_neq in N. rewrite N.
  destruct (routeLayerAdded s && is_some _);
    destruct (routeSourceAdded s && is_some _); reflexivity.
Qed.

(** X18.  A coordinate list of fewer than two entries that arrives
    while [animating] is set and React holds the cleanup of a session
    whose one pending callback is the frame callback recorded in its
    [animationFrame] (the session runs, and has not been paused since
    that callback was asked for; no [onMoveEnd] is registered).
    Afterwards [animating] is still set and there is nothing left to
    clear it: no cleanup is held, no callback and no listener is
    pending, the panel is not rendered, and each of the events Start,
    Pause, speed, sound, ['moveend'] and frame callback leaves the state
    as it is. *)
Theorem invalidation_below_two_sticks (w : World) (cs : list Coordinate)
    (sid id : nat) (s : Session) (e : Event) :
  animating w = true ->
  held w = Some sid -> nth_error (sessions w) sid = Some s ->
  cleanupDone s = false ->
  animationFrame s = Some id -> id <> O ->
  frames w = [(id, sid)] -> moveend w = [] ->
  (length cs < 2)%nat ->
  (forall cs', e <> CoordsArrive cs') -> e <> MapCreated ->
  let w' := step w (CoordsArrive cs) in
  animating w' = true /\ panel w' = false /\ held w' = None /\
  frames w' = [] /\ moveend w' = [] /\
  step w' e = w'.
Proof.
  intros An Hh Hs Hd Hf N Fr Mv Lt NC NM.
  cbv zeta. cbn [step]. change (held (setCoords cs w)) with (held w).
  rewrite Hh.
  set (w1 := cleanup sid (setCoords cs w)).
  set (w2 := place_markers_effect w1).
  pose proof (cleanup_cancels (setCoords cs w) sid id s Hs Hd Hf N) as F1.
  destruct (flags_cleanup sid (setCoords cs w)) as (A1 & _ & _ & C1 & _).
  destruct (cleanup_keeps sid (setCoords cs w)) as (_ & _ & _ & M1 & _).
  destruct (place_markers_effect_keeps w1) as (F2 & _).
  destruct (flags_place_markers_effect w1) as (A2 & _ & _ & C2).
  destruct (place_markers_effect_more w1) as (M2 & _).
  fold w1 in F1, A1, C1, M1. fold w2 in F2, A2, C2, M2.
  assert (C3 : coords (with_held None w2) = cs).
  { cbn [coords with_held]. rewrite C2, C1. reflexivity. }
  destruct (animation_effect_cases (markers w) (with_held None w2))
    as [[E _]|(_ & Ge & _)]; [|rewrite C3 in Ge; lia].
  rewrite E.
  assert (An' : animating (with_held None w2) = true).
  { cbn [animating with_held]. rewrite A2, A1. exact An. }
  assert (Pn : panel (with_held None w2) = false).
  { unfold panel. rewrite C3. apply Nat.ltb_ge. lia. }
  assert (Fr' : frames (with_held None w2) = []).
  { cbn [frames with_held]. rewrite F2, F1. cbn [frames setCoords].
    rewrite Fr. cbn [filter fst]. now rewrite Nat.eqb_refl. }
  assert (Mv' : moveend (with_held None w2) = []).
  { cbn [moveend with_held]. rewrite M2, M1. exact Mv. }
  split; [exact An'|]. split; [exact Pn|]. split; [reflexivity|].
  split; [exact Fr'|]. split; [exact Mv'|].
  destruct e as [|cs'| | |k| |clock|id' now clock]; cbn [step].
  - contradiction.
  - now destruct (NC cs').
  - now rewrite Pn.
  - now rewrite Pn.
  - now rewrite Pn.
  - now rewrite Pn.
  - now rewrite Mv'.
  - now rewrite Fr'.
Qed.

Lemma no_map_no_session (w : World) :
  reachable w -> map_ready w = false -> sessions w = [] /\ held w = None.
Proof.
  intros R M.
  assert (S : sessions w = []).
  { destruct (sessions w) eqn:E; [reflexivity|].
    assert (X : sessions w <> []) by (rewrite E; discriminate).
    pose proof (sessions_need_map w R X). congruence. }
  split; [exact S|].
  destruct (held w) as [sid|] eqn:H; [|reflexivity].
  destruct (anim_reachable_Inv w R) as (_ & _ & Hd).
  destruct (Hd sid H) as (s & Hs & _). rewrite S in Hs. now destruct sid.
Qed.

(** X19.  A click on Start before the map exists starts nothing, but it
    is not lost: [animationRequested] stays set (a second click changes
    nothing), and once the map is there the next change of the speed or
    of the coordinates starts the animation without a click. *)
Theorem start_before_map_is_remembered (w : World) (k : nat)
    (cs : list Coordinate) :
  reachable w -> map_ready w = false -> (2 <= length (coords w))%nat ->
  animating w = false -> animationRequested w = false ->
  let w1 := step w ClickStart in
  let w2 := step w1 MapCreated in
  animationRequested w1 = true /\ animating w1 = false /\ sessions w1 = [] /\
  step w1 ClickStart = w1 /\
  (has_stop k = true -> speed_stop k <> animationSpeed w ->
     animating (step w2 (SlideSpeed k)) = true /\
     length (sessions (step w2 (SlideSpeed k))) = 1%nat) /\
  ((2 <= length cs)%nat ->
     animating (step w2 (CoordsArrive cs)) = true /\
     length (sessions (step w2 (CoordsArrive cs))) = 1%nat).
Proof.
  intros R M L An Rq. cbv zeta.
  destruct (no_map_no_session w R M) as [S H].
  assert (Pn : panel w = true) by (unfold panel; apply Nat.ltb_lt; lia).
  assert (L2 : (length (coords w) <? 2)%nat = false) by (apply Nat.ltb_ge; lia).
  assert (E1 : step w ClickStart = with_held None (setAnimationRequested true w)).
  { cbn [step]. rewrite Pn, An, L2, Rq. cbn [negb orb].
    unfold rerun_animation_effect. cbn [held setAnimationRequested]. rewrite H.
    unfold animation_effect. cbn [map_ready with_held setAnimationRequested
                                  animationRequested].
    rewrite M. cbn [negb orb]. reflexivity. }
  rewrite E1. set (w1 := with_held None (setAnimationRequested true w)).
  assert (P1 : panel w1 = true) by exact Pn.
  assert (A1 : animating w1 = false) by exact An.
  assert (R1 : animationRequested w1 = true) by reflexivity.
  assert (L1 : (length (coords w1) <? 2)%nat = false) by exact L2.
  assert (S1 : sessions w1 = []) by exact S.
  set (w2 := step w1 MapCreated).
  assert (P2 : panel w2 = true) by exact Pn.
  assert (A2 : animating w2 = false) by exact An.
  assert (R2 : animationRequested w2 = true) by reflexivity.
  assert (M2 : map_ready w2 = true) by reflexivity.
  assert (H2 : held w2 = None) by reflexivity.
  assert (S2 : sessions w2 = []) by exact S.
  assert (C2 : coords w2 = coords w) by reflexivity.
  assert (V2 : animationSpeed w2 = animationSpeed w) by reflexivity.
  clearbody w2. clearbody w1.
  split; [exact R1|]. split; [exact A1|]. split; [exact S1|]. split.
  - cbn [step]. rewrite P1, A1, L1, R1. reflexivity.
  - split.
    + intros Hk Ne. cbn [step]. rewrite P2, A2, Hk, V2. cbn [negb andb].
      destruct (Req_dec_T (speed_stop k) (animationSpeed w)); [contradiction|].
      unfold rerun_animation_effect.
      change (held (setAnimationSpeed (speed_stop k) w2)) with (held w2).
      rewrite H2.
      match goal with
      | |- context [animation_effect ?seen ?x] =>
          destruct (animation_effect_cases seen x)
            as [[_ [F|[F|F]]]|(_ & _ & A & _ & _ & Len)]
      end.
      * cbn [animationRequested with_held setAnimationSpeed] in F. congruence.
      * cbn [map_ready with_held setAnimationSpeed] in F. congruence.
      * cbn [coords with_held setAnimationSpeed] in F. rewrite C2 in F. lia.
      * split; [exact A|]. rewrite Len.
        cbn [sessions with_held setAnimationSpeed]. now rewrite S2.
    + intros Lc. cbn [step].
      change (held (setCoords cs w2)) with (held w2). rewrite H2.
      match goal with
      | |- context [animation_effect ?seen ?x] =>
          destruct (animation_effect_cases seen x)
            as [[_ [F|[F|F]]]|(_ & _ & A & _ & _ & Len)]
      end.
      * cbn [animationRequested with_held] in F.
        rewrite (proj1 (proj2 (flags_place_markers_effect _))) in F.
        cbn [animationRequested setCoords] in F. congruence.
      * cbn [map_ready with_held] in F.
        rewrite (proj1 (proj2 (place_markers_effect_more _))) in F.
        cbn [map_ready setCoords] in F. congruence.
      * cbn [coords with_held] in F.
        rewrite (proj2 (proj2 (proj2 (flags_place_markers_effect _)))) in F.
        cbn [coords setCoords] in F. lia.
      * split; [exact A|]. rewrite Len. cbn [sessions with_held].
        rewrite (proj1 (proj2 (place_markers_effect_keeps _))).
        cbn [sessions setCoords]. now rewrite S2.
Qed.

Lemma pause_cleanup (sid : nat) (w : World) :
  isPaused (cleanup sid w) = isPaused w /\
  animationPaused (cleanup sid w) = animationPaused w.
Proof.
  unfold cleanup.
  repeat match goal with
         | |- context [match ?x with _ => _ end] => destruct x; simpl
         end; auto.
Qed.

Lemma pause_onMoveEnd (sid : nat) (clock : R) (w : World) :
  isPaused (onMoveEnd sid clock w) = isPaused w /\
  animationPaused (onMoveEnd sid clock w) = animationPaused w.
Proof.
  unfold onMoveEnd, animateRoute, animateSegment.
  repeat match goal with
         | |- context [match ?x with _ => _ end] => destruct x; simpl
         end; auto.
Qed.

Lemma pause_moveEnd_fold (clock : R) (l : list nat) (w : World) :
  let w' := fold_left (fun w sid => onMoveEnd sid clock w) l w in
  isPaused w' = isPaused w /\ animationPaused w' = animationPaused w.
Proof.
  revert w. induction l as [|x l IH]; intros w; simpl; [auto|].
  destruct (IH (onMoveEnd x clock w)) as [A B].
  destruct (pause_onMoveEnd x clock w) as [A' B'].
  split; congruence.
Qed.

Lemma pause_frame (sid : nat) (now clock : R) (w : World) :
  isPaused (frame sid now clock w) = isPaused w /\
  animationPaused (frame sid now clock w) = animationPaused w.
Proof.
  unfold frame, frame_poll, frame_draw, frame_again, frame_arrive, onDone,
    animateRoute, animateSegment, showAllMarkersAndRoute, playSound, setData.
  repeat match goal with
         | |- context [match ?x with _ => _ end] => destruct x eqn:?; simpl
         end; auto.
Qed.

Lemma pause_animation_effect (seen : list nat) (w : World) :
  isPaused w = animationPaused w ->
  isPaused (animation_effect seen w) = animationPaused (animation_effect seen w).
Proof.
  intros E. unfold animation_effect, playSound.
  repeat match goal with
         | |- context [match ?x with _ => _ end] => destruct x eqn:?; simpl
         end; auto.
Qed.

Lemma pause_rerun (seen : list nat) (w : World) :
  isPaused w = animationPaused w ->
  isPaused (rerun_animation_effect seen w) =
  animationPaused (rerun_animation_effect seen w).
Proof.
  intros E. unfold rerun_animation_effect. apply pause_animation_effect.
  cbn [isPaused animationPaused with_held].
  destruct (held w) as [sid|]; [|exact E].
  destruct (pause_cleanup sid w) as [A B]. congruence.
Qed.

(** [animationStateRef.current.isPaused] mirrors [animationPaused]. *)
Lemma pause_mirror (w : World) :
  reachable w -> isPaused w = animationPaused w.
Proof.
  induction 1 as [|w e R IH]; [reflexivity|].
  destruct e as [|cs| | |k| |clock|id now clock]; cbn [step].
  - exact IH.
  - apply pause_animation_effect. cbn [isPaused animationPaused with_held].
    destruct (place_markers_effect_more
                match held (setCoords cs w) with
                | Some sid => cleanup sid (setCoords cs w)
                | None => setCoords cs w
                end) as (_ & _ & _ & A & B).
    rewrite A, B. change (held (setCoords cs w)) with (held w).
    destruct (held w) as [sid|]; [|exact IH].
    destruct (pause_cleanup sid (setCoords cs w)) as [A' B'].
    rewrite A', B'. exact IH.
  - destruct (negb (panel w) || animating w || (length (coords w) <? 2)%nat);
      [exact IH|].
    destruct (animationRequested w); [exact IH|]. now apply pause_rerun.
  - destruct (panel w && animating w); [reflexivity | exact IH].
  - destruct (panel w && negb (animating w) && has_stop k); [|exact IH].
    destruct (Req_dec_T (speed_stop k) (animationSpeed w)); [exact IH|].
    now apply pause_rerun.
  - destruct (panel w); exact IH.
  - destruct (pause_moveEnd_fold clock (moveend w) w) as [A B]. congruence.
  - destruct (take_frame id (frames w)) as [[sid rest]|]; [|exact IH].
    unfold commit_after_frame.
    destruct (pause_frame sid now clock (with_frames rest w)) as [A B].
    destruct (animationRequested w && negb _).
    + apply pause_rerun. rewrite A, B. exact IH.
    + rewrite A, B. exact IH.
Qed.

Lemma take_frame_length (id : nat) (q rest : list (nat * nat)) (sid : nat) :
  take_frame id q = Some (sid, rest) -> length q = S (length rest).
Proof.
  revert rest. induction q as [|[id' sid'] q IH]; intros rest H; simpl in H.
  - discriminate.
  - destruct (id' =? id)%nat.
    + injection H as <- <-. reflexivity.
    + destruct (take_frame id q) as [[sid0 rest0]|]; [|discriminate].
      injection H as <- <-. simpl. f_equal. now apply IH.
Qed.

(** X20.  Pause and resume, in every state the component can reach:
    the flag the frame callback reads equals [animationPaused]; a click
    on the button flips it; two clicks bring the component back to the
    state it was in; and while paused a frame callback changes no
    session, camera or route, and leaves as many callbacks pending as
    there were. *)
Theorem pause_and_resume (w : World) (id : nat) (now clock : R) :
  reachable w ->
  isPaused w = animationPaused w /\
  step (step w ClickPause) ClickPause = w /\
  (panel w = true -> animating w = true ->
     isPaused (step w ClickPause) = negb (isPaused w)) /\
  (isPaused w = true ->
     let w' := step w (Frame id now clock) in
     sessions w' = sessions w /\ camera w' = camera w /\
     route_source w' = route_source w /\ route_layer w' = route_layer w /\
     length (frames w') = length (frames w) /\ isPaused w' = true).
Proof.
  intros R. pose proof (pause_mirror w R) as M.
  split; [exact M|]. split; [|split].
  - cbn [step]. destruct (panel w && animating w) eqn:E.
    + change (panel (with_isPaused (negb (animationPaused w))
                (setAnimationPaused (negb (animationPaused w)) w)))
        with (panel w).
      change (animating (with_isPaused (negb (animationPaused w))
                (setAnimationPaused (negb (animationPaused w)) w)))
        with (animating w).
      rewrite E. destruct w. cbn in *. subst.
      now rewrite negb_involutive.
    + now rewrite E.
  - intros P A. cbn [step]. rewrite P, A. cbn [andb isPaused with_isPaused].
    now rewrite M.
  - intros P. cbv zeta. cbn [step].
    destruct (take_frame id (frames w)) as [[sid rest]|] eqn:T; [|auto 10].
    pose proof (take_frame_length _ _ _ _ T) as Len.
    destruct (take_frame_counts _ _ _ _ T) as [Hin _].
    destruct (anim_reachable_Inv w R) as ((Ok & Bound) & _).
    assert (Hfr : In sid (map snd (frames w)))
      by (apply in_map_iff; exists (id, sid); auto).
    assert (Hlt : (sid < length (sessions w))%nat)
      by (apply Bound; apply in_or_app; now right).
    destruct (nth_error (sessions w) sid) as [s|] eqn:Hs;
      [|apply nth_error_None in Hs; lia].
    destruct (ok_running _ _ _ _ (Ok sid s Hs) Hfr) as (g & Hg & _).
    unfold commit_after_frame, frame. cbn [sessions isPaused with_frames].
    rewrite Hs, Hg, P. cbn. rewrite andb_negb_r. cbn.
    rewrite length_app. cbn. rewrite Len, Nat.add_1_r. auto 10.
Qed.

(** X21.  A frame of a segment under way (not paused, raw progress in
    [0, 1)): the marker is put on the straight line from the segment's
    start to its end, at a fraction between 0 and 1; the confirmed
    coordinates and the segment index stay; the route, when its source
    exists, is the confirmed coordinates followed by the marker's
    position; the camera eases to the marker at a zoom between 8 and
    10; and the session's next frame is asked for. *)
Theorem frame_moves_marker_along_segment (w : World) (id sid : nat)
    (rest : list (nat * nat)) (s : Session) (g : Segment) (now clock : R) :
  take_frame id (frames w) = Some (sid, rest) ->
  nth_error (sessions w) sid = Some s -> segment s = Some g ->
  isPaused w = false ->
  0 <= (now - startTime g) / duration g < 1 ->
  let w' := step w (Frame id now clock) in
  exists (s' : Session) (lam zoom : R),
    nth_error (sessions w') sid = Some s' /\
    0 <= lam <= 1 /\
    marker_at s' = (fst (start g) + (fst (end_ g) - fst (start g)) * lam,
                    snd (start g) + (snd (end_ g) - snd (start g)) * lam) /\
    progressCoords s' = progressCoords s /\ i s' = i s /\
    camera w' = EaseTo (marker_at s') zoom /\ 8 <= zoom <= 10 /\
    route_source w' =
      option_map (fun _ => progressCoords s ++ [marker_at s']) (route_source w) /\
    frames w' = rest ++ [(next_frame w, sid)] /\
    animating w' = animating w.
Proof.
  intros T Hs Hg P [L0 L1]. cbv zeta.
  rewrite (step_frame _ _ _ _ _ _ T).
  set (w1 := with_frames rest w).
  set (t0 := (now - startTime g) / duration g) in *.
  assert (E : frame sid now clock w1 =
              frame_again sid (frame_draw sid s g t0 w1))
    by (apply frame_within_eq; assumption).
  rewrite E. unfold commit_after_frame.
  assert (Rq : animationRequested (frame_again sid (frame_draw sid s g t0 w1)) =
               animationRequested w).
  { unfold frame_again, frame_draw, setData.
    destruct (route_source (modify sid _ w1)); reflexivity. }
  rewrite Rq. change (animationRequested w1) with (animationRequested w).
  rewrite andb_negb_r.
  pose proof (ease_range t0 (conj L0 (Rlt_le _ _ L1))) as Er.
  assert (Zr : 8 <= zoom_at t0 <= 10).
  { destruct (zoom_at_cases t0) as [[Z ->]|[[Z ->]|[Z ->]]]; lra. }
  unfold frame_again, frame_draw, setData.
  destruct (route_source w) eqn:Rs.
  all: repeat (progress (simpl; repeat rewrite update_nth_twice;
                         repeat rewrite (nth_error_update_nth_same _ _ _ _ Hs);
                         rewrite ?Rs)).
  all: eexists; exists (Easing.easeInOutCubic t0), (zoom_at t0).
  all: split; [reflexivity|]; split; [exact Er|]; simpl; auto 10.
Qed.

Lemma stop_positive (v : R) : is_stop v -> 0 < v.
Proof.
  intros H. apply is_stop_values in H. simpl in H.
  destruct H as [<-|[<-|[<-|[<-|[<-|[<-|[]]]]]]]; lra.
Qed.

(** X22.  When a segment ends: in every state the component can reach,
    an unpaused frame of a session started at speed v leaves the
    segment as it is while its time stamp is less than 3500 / v ms
    after the segment's start, and ends it (the destination joins the
    confirmed coordinates, the index moves on) from then on. *)
Theorem segment_ends_on_time (w : World) (id sid : nat)
    (rest : list (nat * nat)) (s : Session) (g : Segment) (now clock : R) :
  reachable w ->
  take_frame id (frames w) = Some (sid, rest) ->
  nth_error (sessions w) sid = Some s -> segment s = Some g ->
  isPaused w = false ->
  exists s',
    nth_error (sessions (step w (Frame id now clock))) sid = Some s' /\
    0 < 3500 / s_speed s /\
    (now < startTime g + 3500 / s_speed s ->
       i s' = i s /\ progressCoords s' = progressCoords s) /\
    (startTime g + 3500 / s_speed s <= now ->
       i s' = (i s + 1)%nat /\
       progressCoords s' =
         progressCoords s ++ [nth (i s + 1) (s_coords s) origin]).
Proof.
  intros R T Hs Hg P.
  destruct (anim_reachable_Inv w R) as ((A & B) & _).
  destruct (take_frame_counts _ _ _ _ T) as [Hin C].
  assert (Ks : session_ok (moveend w) (sid :: map snd rest) sid s).
  { generalize (A sid s Hs). apply session_ok_mono; auto.
    rewrite (C sid). apply Nat.le_refl. }
  destruct (running_facts _ _ _ _ _ Ks Hg) as (Ri & Re & Rd & Rp & _).
  pose proof (stop_positive _ (ok_speed _ _ _ _ Ks)) as Vp.
  assert (Dp : 0 < 3500 / s_speed s) by (apply Rdiv_lt_0_compat; lra).
  rewrite (step_frame _ _ _ _ _ _ T).
  set (w1 := with_frames rest w).
  assert (Ratio : forall x, (now - startTime g) / duration g < x <->
                            now < startTime g + x * (3500 / s_speed s)).
  { intros x. rewrite Rd. split; intros H.
    - apply (Rmult_lt_compat_r (3500 / s_speed s)) in H; [|exact Dp].
      unfold Rdiv at 1 in H. rewrite Rmult_assoc, Rinv_l in H by lra. lra.
    - apply (Rmult_lt_reg_r (3500 / s_speed s)); [exact Dp|].
      unfold Rdiv at 1. rewrite Rmult_assoc, Rinv_l by lra. lra. }
  destruct (frame_cases sid now clock w1 s g Hs Hg)
    as [(P' & _)|[(_ & Lt & _ & _ & Er & s' & Hs' & _ & _ & Ep & Ei & _)|
        [(_ & Ge & _ & _ & _ & Er & s' & Hs' & Ep & Ei & _)|
         (_ & Ge & _ & _ & _ & Er & s' & Hs' & Ep & Ei & _)]]].
  - simpl in P'. congruence.
  - unfold commit_after_frame. fold w1. rewrite Er.
    change (animationRequested w1) with (animationRequested w).
    rewrite andb_negb_r. exists s'. split; [exact Hs'|]. split; [exact Dp|].
    split; [auto|]. intros Late. exfalso.
    unfold JsMath.ltb in Lt.
    destruct (Rlt_dec (JsMath.min ((now - startTime g) / duration g) 1) 1)
      as [X|]; [|discriminate].
    unfold JsMath.min in X.
    destruct (Rle_dec ((now - startTime g) / duration g) 1); [|lra].
    apply Ratio in X. lra.
  - unfold commit_after_frame. fold w1. rewrite Er.
    change (animationRequested w1) with (animationRequested w).
    rewrite andb_negb_r. exists s'. split; [exact Hs'|]. split; [exact Dp|].
    split.
    + intros Early. exfalso.
      assert (X : (now - startTime g) / duration g < 1)
        by (apply Ratio; lra).
      rewrite min_left, ltb_true in Ge by lra. discriminate.
    + intros _. rewrite Ep, Re. auto.
  - assert (Early_no : now < startTime g + 3500 / s_speed s -> False).
    { intros Early.
      assert (X : (now - startTime g) / duration g < 1)
        by (apply Ratio; lra).
      rewrite min_left, ltb_true in Ge by lra. discriminate. }
    unfold commit_after_frame. fold w1. rewrite Er.
    change (animationRequested w1) with (animationRequested w).
    destruct (animationRequested w); cbn [negb andb].
    + destruct (quieter_rerun_declines (markers (frame sid now clock w1))
                  (frame sid now clock w1) Er) as ([L Q _ _ _] & _ & _).
      destruct (nth_error
                  (sessions (rerun_animation_effect
                               (markers (frame sid now clock w1))
                               (frame sid now clock w1))) sid)
        as [s''|] eqn:Hs''.
      * destruct (Q sid s'' Hs'') as (s0 & Hs0 & Co).
        assert (s0 = s') by congruence. subst s0.
        destruct (core_fields _ _ Co) as (_ & _ & E3 & E4 & _).
        exists s''. split; [reflexivity|]. split; [exact Dp|].
        split; [intros Early; now destruct (Early_no Early)|].
        intros _. rewrite E3, E4, Ep, Ei, Re. auto.
      * exfalso. apply nth_error_None in Hs''.
        assert (sid < length (sessions (frame sid now clock w1)))%nat
          by (apply nth_error_Some; congruence).
        lia.
    + exists s'. split; [exact Hs'|]. split; [exact Dp|].
      split; [intros Early; now destruct (Early_no Early)|].
      intros _. rewrite Ep, Ei, Re. auto.
Qed.

Lemma onMoveEnd_frames (sid : nat) (clock : R) (w : World) (s : Session) :
  nth_error (sessions w) sid = Some s ->
  frames (onMoveEnd sid clock w) =
  frames w ++ (if (i s <? length (s_coords s) - 1)%nat
               then [(next_frame w, sid)] else []).
Proof.
  intros Hs. unfold onMoveEnd. rewrite Hs. unfold animateRoute.
  repeat (progress (simpl; repeat rewrite update_nth_twice;
                    repeat rewrite (nth_error_update_nth_same _ _ _ _ Hs))).
  destruct (i s <? length (s_coords s) - 1)%nat.
  - unfold animateSegment.
    repeat (progress (simpl; repeat rewrite update_nth_twice;
                      repeat rewrite (nth_error_update_nth_same _ _ _ _ Hs))).
    reflexivity.
  - simpl. now rewrite app_nil_r.
Qed.

Lemma moveEnd_fold_clears (clock : R) (l : list nat) :
  forall w : World,
  NoDup l -> (forall x, In x l -> In x (moveend w)) ->
  sessions_ok (sessions w) (moveend w) (map snd (frames w)) ->
  let w' := fold_left (fun w sid => onMoveEnd sid clock w) l w in
  (forall y, In y (moveend w') -> In y (moveend w) /\ ~ In y l) /\
  (forall x, In x l -> In x (map snd (frames w'))) /\
  (forall y, In y (map snd (frames w)) -> In y (map snd (frames w'))).
Proof.
  induction l as [|x l IH]; intros w ND Sub A; cbn [fold_left].
  - split; [auto|]. split; [intros x []|auto].
  - inversion ND as [|? ? Nx ND']; subst.
    destruct (onMoveEnd_ok x clock w (Sub x (or_introl eq_refl)) A) as [A' E].
    assert (Sub' : forall y, In y l -> In y (moveend (onMoveEnd x clock w))).
    { intros y Hy. rewrite E. apply filter_In. split.
      - apply Sub. now right.
      - apply negb_true_iff, Nat.eqb_neq. intros ->. contradiction. }
    destruct (IH (onMoveEnd x clock w) ND' Sub' A') as (I1 & I2 & I3).
    assert (Lx : (x < length (sessions w))%nat).
    { apply (proj2 A). apply in_or_app. left. apply Sub. now left. }
    destruct (nth_error (sessions w) x) as [s|] eqn:Hs;
      [|apply nth_error_None in Hs; lia].
    pose proof (proj1 A x s Hs) as Ok.
    assert (I0 : i s = O) by (apply (ok_waiting _ _ _ _ Ok), Sub; now left).
    pose proof (ok_coords _ _ _ _ Ok) as Lc.
    pose proof (onMoveEnd_frames x clock w s Hs) as Fx.
    rewrite I0 in Fx.
    destruct (Nat.ltb_spec 0 (length (s_coords s) - 1)) as [_|]; [|lia].
    split; [|split].
    + intros y Hy. destruct (I1 y Hy) as [H1 H2].
      rewrite E in H1. apply filter_In in H1. destruct H1 as [H1 H3].
      split; [exact H1|]. intros [->|H4]; [|contradiction].
      rewrite Nat.eqb_refl in H3. discriminate.
    + intros y [->|Hy]; [|now apply I2].
      apply I3. rewrite Fx, map_app. apply in_or_app. right. now left.
    + intros y Hy. apply I3. rewrite Fx, map_app. apply in_or_app. now left.
Qed.

(** X23.  The ['moveend'] listeners, in every state the component can
    reach: when the map fires the event, every session whose listener
    is registered (whether or not its cleanup has run since) gets its
    first frame asked for, and every listener is taken off; a second
    event changes nothing. *)
Theorem moveend_listeners_run_once (w : World) (clock clock' : R) :
  reachable w ->
  let w' := step w (MoveEnd clock) in
  moveend w' = [] /\
  (forall sid, In sid (moveend w) -> In sid (map snd (frames w'))) /\
  step w' (MoveEnd clock') = w'.
Proof.
  intros R. cbv zeta. cbn [step].
  destruct (anim_reachable_Inv w R) as (A & _).
  destruct (moveEnd_fold_clears clock (moveend w) w (moveend_NoDup w A)
              (fun x H => H) A) as (I1 & I2 & _).
  set (w' := fold_left _ (moveend w) w) in *.
  assert (E : moveend w' = []).
  { destruct (moveend w') as [|y l] eqn:M; [reflexivity|].
    destruct (I1 y (or_introl eq_refl)) as [H1 H2]. contradiction. }
  split; [exact E|]. split; [exact I2|]. now rewrite E.
Qed.

Lemma cleanup_keeps_more (sid : nat) (w : World) :
  animationSpeed (cleanup sid w) = animationSpeed w /\
  next_marker (cleanup sid w) = next_marker w /\
  markers (cleanup sid w) = markers w.
Proof.
  unfold cleanup.
  repeat match goal with
         | |- context [match ?x with _ => _ end] => destruct x; simpl
         end; auto.
Qed.

Lemma frame_sessions_length (sid : nat) (now clock : R) (w : World) :
  length (sessions (frame sid now clock w)) = length (sessions w) /\
  soundEnabled (frame sid now clock w) = soundEnabled w.
Proof.
  unfold frame, frame_poll, frame_draw, frame_again, frame_arrive, onDone,
    animateRoute, animateSegment, showAllMarkersAndRoute, playSound, setData.
  repeat match goal with
         | |- context [match ?x with _ => _ end] => destruct x eqn:?; simpl
         end; rewrite ?length_update_nth; auto.
Qed.

(** *** Blue markers and the restart of the animation *)

Lemma marker_ids_add_static (cs : list Coordinate) (w : World) :
  Forall (fun id => (id < next_marker (add_static cs w))%nat)
         (markers (add_static cs w)).
Proof.
  unfold add_static. cbn [markers next_marker setMarkers with_next_marker].
  apply Forall_forall. intros id I. apply in_seq in I. lia.
Qed.

Lemma marker_ids_animation_effect (seen : list nat) (w : World) :
  next_marker (animation_effect seen w) = next_marker w /\
  markers (animation_effect seen w) = markers w.
Proof.
  unfold animation_effect, playSound.
  repeat match goal with
         | |- context [match ?x with _ => _ end] => destruct x; simpl
         end; auto.
Qed.

Lemma marker_ids_rerun (seen : list nat) (w : World) :
  next_marker (rerun_animation_effect seen w) = next_marker w /\
  markers (rerun_animation_effect seen w) = markers w.
Proof.
  unfold rerun_animation_effect.
  destruct (marker_ids_animation_effect seen
              (with_held None match held w with
                              | Some sid => cleanup sid w
                              | None => w
                              end)) as [A B].
  rewrite A, B. cbn [next_marker markers with_held].
  destruct (held w) as [h|]; [|auto].
  destruct (cleanup_keeps_more h w) as (_ & C & D). auto.
Qed.

Lemma marker_ids_onMoveEnd (sid : nat) (clock : R) (w : World) :
  next_marker (onMoveEnd sid clock w) = next_marker w /\
  markers (onMoveEnd sid clock w) = markers w.
Proof.
  unfold onMoveEnd, animateRoute, animateSegment.
  repeat match goal with
         | |- context [match ?x with _ => _ end] => destruct x; simpl
         end; auto.
Qed.

Lemma marker_ids_moveEnd_fold (clock : R) (l : list nat) (w : World) :
  let w' := fold_left (fun w sid => onMoveEnd sid clock w) l w in
  next_marker w' = next_marker w /\ markers w' = markers w.
Proof.
  revert w. induction l as [|x l IH]; intros w; simpl; [auto|].
  destruct (IH (onMoveEnd x clock w)) as [A B].
  destruct (marker_ids_onMoveEnd x clock w) as [A' B'].
  split; congruence.
Qed.

Lemma marker_ids_animateRoute (sid : nat) (clock : R) (w : World) :
  next_marker (animateRoute sid clock w) = next_marker w /\
  markers (animateRoute sid clock w) = markers w.
Proof.
  unfold animateRoute, animateSegment.
  repeat match goal with
         | |- context [match ?x with _ => _ end] => destruct x; simpl
         end; auto.
Qed.

Lemma marker_ids_showAllMarkersAndRoute (sid : nat) (w : World) :
  Forall (fun id => (id < next_marker w)%nat) (markers w) ->
  Forall (fun id => (id < next_marker (showAllMarkersAndRoute sid w))%nat)
         (markers (showAllMarkersAndRoute sid w)).
Proof.
  intros H. unfold showAllMarkersAndRoute.
  destruct (nth_error (sessions w) sid) as [s|]; [|exact H].
  cbn [markers next_marker with_camera]. apply marker_ids_add_static.
Qed.

Lemma marker_ids_onDone (sid : nat) (clock : R) (w : World) :
  Forall (fun id => (id < next_marker w)%nat) (markers w) ->
  Forall (fun id => (id < next_marker (onDone sid clock w))%nat)
         (markers (onDone sid clock w)).
Proof.
  intros H. unfold onDone.
  set (w1 := modify sid (fun s => set_i (i s + 1) s) w).
  change (Forall (fun id => (id < next_marker w1)%nat) (markers w1)) in H.
  clearbody w1.
  destruct (nth_error (sessions w1) sid) as [s|]; [|exact H].
  destruct (i s <? length (s_coords s) - 1)%nat.
  - destruct (marker_ids_animateRoute sid clock w1) as [A B].
    now rewrite A, B.
  - apply marker_ids_showAllMarkersAndRoute. unfold playSound.
    destruct (s_sound s); exact H.
Qed.

Lemma marker_ids_frame (sid : nat) (now clock : R) (w : World) :
  Forall (fun id => (id < next_marker w)%nat) (markers w) ->
  Forall (fun id => (id < next_marker (frame sid now clock w))%nat)
         (markers (frame sid now clock w)).
Proof.
  intros H. unfold frame.
  destruct (nth_error (sessions w) sid) as [s|]; [|exact H].
  destruct (segment s) as [g|]; [|exact H].
  destruct (isPaused w); [exact H|].
  cbv zeta.
  set (t := JsMath.min ((now - startTime g) / duration g) 1).
  assert (D : Forall (fun id => (id < next_marker (frame_draw sid s g t w))%nat)
                (markers (frame_draw sid s g t w))).
  { unfold frame_draw, setData. cbv zeta.
    cbn [route_source modify with_sessions].
    destruct (route_source w); exact H. }
  destruct (JsMath.ltb t 1); [exact D|].
  unfold frame_arrive. apply marker_ids_onDone.
  unfold playSound, setData.
  repeat match goal with
         | |- context [match ?x with _ => _ end] => destruct x
         end; exact D.
Qed.

(** The marker objects named by [markers] were all created before the
    next one. *)
Lemma marker_ids_reachable (w : World) :
  reachable w -> Forall (fun id => (id < next_marker w)%nat) (markers w).
Proof.
  induction 1 as [|w e R IH]; [constructor|].
  destruct e as [|cs| | |k| |clock|id now clock]; cbn [step].
  - exact IH.
  - destruct (marker_ids_animation_effect (markers w)
      (with_held None (place_markers_effect
         match held (setCoords cs w) with
         | Some sid => cleanup sid (setCoords cs w)
         | None => setCoords cs w
         end))) as [A B].
    rewrite A, B. cbn [next_marker markers with_held].
    set (w1 := match held (setCoords cs w) with
               | Some sid => cleanup sid (setCoords cs w)
               | None => setCoords cs w
               end).
    assert (E : next_marker w1 = next_marker w /\ markers w1 = markers w).
    { unfold w1. destruct (held (setCoords cs w)) as [h|]; [|auto].
      destruct (cleanup_keeps_more h (setCoords cs w)) as (_ & C & D). auto. }
    destruct E as [E1 E2].
    unfold place_markers_effect.
    destruct (negb (map_ready w1) || (length (coords w1) =? 0)%nat).
    + now rewrite E1, E2.
    + cbn [next_marker markers with_camera]. apply marker_ids_add_static.
  - destruct (negb (panel w) || animating w || (length (coords w) <? 2)%nat);
      [exact IH|].
    destruct (animationRequested w); [exact IH|].
    destruct (marker_ids_rerun (markers w) (setAnimationRequested true w))
      as [A B].
    now rewrite A, B.
  - destruct (panel w && animating w); exact IH.
  - destruct (panel w && negb (animating w) && has_stop k); [|exact IH].
    destruct (Req_dec_T (speed_stop k) (animationSpeed w)); [exact IH|].
    destruct (marker_ids_rerun (markers w)
                (setAnimationSpeed (speed_stop k) w)) as [A B].
    now rewrite A, B.
  - destruct (panel w); exact IH.
  - destruct (marker_ids_moveEnd_fold clock (moveend w) w) as [A B].
    cbv zeta in A, B. now rewrite A, B.
  - destruct (take_frame id (frames w)) as [[sid rest]|]; [|exact IH].
    pose proof (marker_ids_frame sid now clock (with_frames rest w) IH) as F.
    unfold commit_after_frame.
    destruct (animationRequested w && negb _); [|exact F].
    destruct (marker_ids_rerun
                (markers (frame sid now clock (with_frames rest w)))
                (frame sid now clock (with_frames rest w))) as [A B].
    now rewrite A, B.
Qed.

Lemma filter_static_twice (ids : list nat) (l : list (nat * Coordinate)) :
  filter (fun p : nat * Coordinate => negb (existsb (Nat.eqb (fst p)) ids))
    (filter (fun p : nat * Coordinate => negb (existsb (Nat.eqb (fst p)) ids))
       l) =
  filter (fun p : nat * Coordinate => negb (existsb (Nat.eqb (fst p)) ids)) l.
Proof.
  induction l as [|p l IH]; [reflexivity|]. simpl.
  destruct (negb (existsb (Nat.eqb (fst p)) ids)) eqn:E; [|exact IH].
  simpl. rewrite E. now rewrite IH.
Qed.

Lemma filter_static_later (ids : list nat) (n : nat)
    (l : list (nat * Coordinate)) :
  Forall (fun id => (id < n)%nat) ids ->
  (forall p, In p l -> (n <= fst p)%nat) ->
  filter (fun p : nat * Coordinate => negb (existsb (Nat.eqb (fst p)) ids)) l
  = l.
Proof.
  intros F. induction l as [|p l IH]; intros H; [reflexivity|]. simpl.
  assert (E : existsb (Nat.eqb (fst p)) ids = false).
  { destruct (existsb (Nat.eqb (fst p)) ids) eqn:E; [|reflexivity].
    apply existsb_exists in E. destruct E as (x & I & E).
    apply Nat.eqb_eq in E. rewrite Forall_forall in F.
    pose proof (F x I). pose proof (H p (or_introl eq_refl)). lia. }
  rewrite E. simpl. f_equal. apply IH. intros q Q. apply H. now right.
Qed.

(** What the place-markers effect puts on the map. *)
Lemma place_markers_effect_places (w : World) :
  map_ready w = true -> (length (coords w) =? 0)%nat = false ->
  let w' := place_markers_effect w in
  markers w' = seq (next_marker w) (length (coords w)) /\
  static_markers w' =
    filter (fun p : nat * Coordinate =>
              negb (existsb (Nat.eqb (fst p)) (markers w)))
           (static_markers w) ++
    combine (seq (next_marker w) (length (coords w))) (coords w) /\
  animationRequested w' = animationRequested w /\ coords w' = coords w.
Proof.
  intros M L. unfold place_markers_effect. rewrite M, L. cbn. auto.
Qed.

(** What a start of the animation effect does to the markers and the
    camera. *)
Lemma animation_effect_markers (seen : list nat) (w : World) :
  animationRequested w = true -> map_ready w = true ->
  (2 <= length (coords w))%nat ->
  let w' := animation_effect seen w in
  animating w' = true /\
  camera w' = FlyTo (nth 0 (coords w) origin) 10 /\
  markers w' = markers w /\
  static_markers w' =
    filter (fun p : nat * Coordinate => negb (existsb (Nat.eqb (fst p)) seen))
           (static_markers w).
Proof.
  intros Rq Mr L. unfold animation_effect. rewrite Rq, Mr.
  apply Nat.ltb_ge in L. rewrite L. unfold playSound. simpl.
  destruct (soundEnabled w); simpl; auto 10.
Qed.

(** X25.  Coordinates that arrive while an animation is requested (a place
    added just before Start whose coordinates come in after it): the
    animation is started again on the new list, with the camera flying
    to its first coordinate, but the blue markers that the
    place-markers effect has just put on every coordinate stay on the
    map during it: the animation effect removes the marker objects of
    the [markers] state of its render, which are the old ones. *)
Theorem restart_keeps_blue_markers (w : World) (cs : list Coordinate) :
  reachable w -> map_ready w = true -> animationRequested w = true ->
  (2 <= length cs)%nat ->
  let w' := step w (CoordsArrive cs) in
  let kept := filter (fun p : nat * Coordinate =>
                        negb (existsb (Nat.eqb (fst p)) (markers w)))
                     (static_markers w) in
  animating w' = true /\ held w' = Some (length (sessions w)) /\
  camera w' = FlyTo (nth 0 cs origin) 10 /\
  length (markers w') = length cs /\
  static_markers w' = kept ++ combine (markers w') cs /\
  map snd (static_markers w') = map snd kept ++ cs.
Proof.
  intros R M Q L. cbv zeta. cbn [step].
  pose proof (marker_ids_reachable w R) as F.
  set (w1 := match held (setCoords cs w) with
             | Some sid => cleanup sid (setCoords cs w)
             | None => setCoords cs w
             end).
  assert (E : map_ready w1 = true /\ animationRequested w1 = true /\
              coords w1 = cs /\ markers w1 = markers w /\
              next_marker w1 = next_marker w /\
              static_markers w1 = static_markers w /\
              length (sessions w1) = length (sessions w)).
  { unfold w1. destruct (held (setCoords cs w)) as [h|];
      [|repeat split; assumption].
    destruct (flags_cleanup h (setCoords cs w)) as (_ & A1 & _ & A2 & A3).
    destruct (cleanup_keeps h (setCoords cs w)) as (B1 & _ & _ & _ & _ & B2).
    destruct (cleanup_keeps_more h (setCoords cs w)) as (_ & C1 & C2).
    rewrite A1, A2, A3, B1, B2, C1, C2. repeat split; assumption. }
  destruct E as (E1 & E2 & E3 & E4 & E5 & E6 & E7).
  assert (L0 : (length (coords w1) =? 0)%nat = false)
    by (rewrite E3; apply Nat.eqb_neq; lia).
  destruct (place_markers_effect_places w1 E1 L0) as (P1 & P2 & P3 & P4).
  destruct (place_markers_effect_keeps w1) as (_ & P5 & _).
  destruct (place_markers_effect_more w1) as (_ & P6 & _).
  cbv zeta in P1, P2, P3, P4, P5, P6.
  set (w2 := place_markers_effect w1) in *.
  assert (Q3 : animationRequested (with_held None w2) = true)
    by (change (animationRequested w2 = true); now rewrite P3).
  assert (M3 : map_ready (with_held None w2) = true)
    by (change (map_ready w2 = true); now rewrite P6).
  assert (L3 : (2 <= length (coords (with_held None w2)))%nat)
    by (change (2 <= length (coords w2))%nat; now rewrite P4, E3).
  destruct (animation_effect_markers (markers w) _ Q3 M3 L3)
    as (G1 & G2 & G3 & G4).
  destruct (animation_effect_starts (markers w) _ Q3 M3 L3)
    as (_ & _ & _ & _ & G5 & _).
  cbv zeta in G1, G2, G3, G4, G5.
  change (coords (with_held None w2)) with (coords w2) in G2.
  change (markers (with_held None w2)) with (markers w2) in G3.
  change (static_markers (with_held None w2)) with (static_markers w2) in G4.
  change (sessions (with_held None w2)) with (sessions w2) in G5.
  rewrite P4, E3 in G2. rewrite P1, E3, E5 in G3.
  rewrite P2, E3, E4, E5, E6 in G4. rewrite P5, E7 in G5.
  rewrite filter_app, filter_static_twice in G4.
  assert (Hc : forall p : nat * Coordinate,
            In p (combine (seq (next_marker w) (length cs)) cs) ->
            (next_marker w <= fst p)%nat).
  { intros [a b] I. apply in_combine_l in I. apply in_seq in I.
    simpl. lia. }
  rewrite (filter_static_later (markers w) (next_marker w) _ F Hc) in G4.
  rewrite G1, G2, G3, G4, G5, length_seq, map_app.
  rewrite (map_snd_combine (seq (next_marker w) (length cs)) cs
             (length_seq _ _)).
  do 5 (split; [reflexivity|]); reflexivity.
Qed.

(** X26.  Coordinates that arrive while no animation is requested, the
    usual case of a place added or removed.  No session is started and
    [animating] stays as it is.  With a map and a list that is not
    empty, the blue markers named by [markers] are removed, one is put
    on every coordinate and the camera flies to the last one.  With an
    empty list (the last place removed), or without a map, the effect
    returns before it removes anything: the blue markers stay on the
    map where they were. *)
Theorem coords_change_places_markers (w : World) (cs : list Coordinate) :
  animationRequested w = false ->
  let w' := step w (CoordsArrive cs) in
  let kept := filter (fun p : nat * Coordinate =>
                        negb (existsb (Nat.eqb (fst p)) (markers w)))
                     (static_markers w) in
  coords w' = cs /\ animating w' = animating w /\
  length (sessions w') = length (sessions w) /\
  (map_ready w = false \/ cs = [] ->
     static_markers w' = static_markers w /\ markers w' = markers w /\
     camera w' = camera w) /\
  (map_ready w = true -> cs <> [] ->
     camera w' = FlyTo (last cs origin) 10 /\
     length (markers w') = length cs /\
     static_markers w' = kept ++ combine (markers w') cs).
Proof.
  intros Q. cbv zeta. cbn [step].
  set (w1 := match held (setCoords cs w) with
             | Some sid => cleanup sid (setCoords cs w)
             | None => setCoords cs w
             end).
  assert (E : map_ready w1 = map_ready w /\ animationRequested w1 = false /\
              coords w1 = cs /\ markers w1 = markers w /\
              next_marker w1 = next_marker w /\
              static_markers w1 = static_markers w /\
              length (sessions w1) = length (sessions w) /\
              animating w1 = animating w /\ camera w1 = camera w).
  { unfold w1. destruct (held (setCoords cs w)) as [h|];
      [|repeat split; assumption].
    destruct (flags_cleanup h (setCoords cs w)) as (A0 & A1 & _ & A2 & A3).
    destruct (cleanup_keeps h (setCoords cs w)) as (B1 & B0 & _ & _ & _ & B2).
    destruct (cleanup_keeps_more h (setCoords cs w)) as (_ & C1 & C2).
    rewrite A0, A1, A2, A3, B0, B1, B2, C1, C2. repeat split; assumption. }
  destruct E as (E1 & E2 & E3 & E4 & E5 & E6 & E7 & E8 & E9).
  destruct (flags_place_markers_effect w1) as (P1 & P2 & _ & P3).
  destruct (place_markers_effect_keeps w1) as (_ & P4 & _).
  cbv zeta in P4.
  assert (D : animation_effect (markers w)
                (with_held None (place_markers_effect w1)) =
              with_held None (place_markers_effect w1)).
  { unfold animation_effect.
    change (animationRequested (with_held None (place_markers_effect w1)))
      with (animationRequested (place_markers_effect w1)).
    now rewrite P2, E2. }
  rewrite D. cbn [coords animating sessions static_markers markers camera
                  with_held].
  rewrite P1, P3, P4, E3, E7, E8.
  do 3 (split; [reflexivity|]). split.
  - intros C. unfold place_markers_effect. rewrite E1, E3.
    assert (G : negb (map_ready w) || (length cs =? 0)%nat = true).
    { destruct C as [C|C]; [now rewrite C|]. rewrite C. apply orb_true_r. }
    rewrite G. auto.
  - intros M N.
    assert (L0 : (length (coords w1) =? 0)%nat = false).
    { rewrite E3. apply Nat.eqb_neq. destruct cs; [now elim N|discriminate]. }
    rewrite <- E1 in M.
    destruct (place_markers_effect_places w1 M L0) as (G1 & G2 & _).
    cbv zeta in G1, G2. rewrite G2, G1, E3, E4, E5, E6, length_seq.
    split; [|auto]. unfold place_markers_effect. rewrite M, L0, E3.
    reflexivity.
Qed.

(** *** What the callbacks do to the sessions *)

Lemma update_nth_id {A : Type} (l : list A) (k : nat) :
  update_nth k (fun x => x) l = l.
Proof.
  revert k. induction l as [|x l IH]; intros [|k]; simpl; auto.
  now rewrite IH.
Qed.

(** A frame callback changes its own session only, and leaves it the
    sound switch it closed over, its route flags and its cleanup
    flag. *)
Lemma frame_touches (sid : nat) (now clock : R) (w : World) (s : Session)
    (g : Segment) :
  nth_error (sessions w) sid = Some s -> segment s = Some g ->
  exists F : Session -> Session,
    sessions (frame sid now clock w) = update_nth sid F (sessions w) /\
    s_sound (F s) = s_sound s /\ cleanupDone (F s) = cleanupDone s /\
    routeLayerAdded (F s) = routeLayerAdded s /\
    routeSourceAdded (F s) = routeSourceAdded s.
Proof.
  intros Hs Hg.
  unfold frame, frame_poll, frame_draw, frame_again, frame_arrive.
  rewrite Hs, Hg.
  destruct (isPaused w) eqn:P.
  { exists (fun x => x). simpl. rewrite update_nth_id. auto. }
  set (t := JsMath.min ((now - startTime g) / duration g) 1).
  set (lng := fst (start g) + _). set (lat := snd (start g) + _).
  destruct (JsMath.ltb t 1) eqn:Lt.
  { unfold setData. destruct (route_source w) eqn:Rs.
    all: repeat (progress (simpl; repeat rewrite update_nth_twice;
                 repeat rewrite (nth_error_update_nth_same _ _ _ _ Hs);
                 rewrite ?Rs)).
    all: eexists; split; [reflexivity|]; simpl; auto. }
  unfold onDone, setData, playSound.
  destruct (route_source w) eqn:Rs; destruct (s_sound s) eqn:Se.
  all: repeat (progress (simpl; repeat rewrite update_nth_twice;
                         repeat rewrite (nth_error_update_nth_same _ _ _ _ Hs);
                         rewrite ?Rs, ?Se)).
  all: destruct (i s + 1 <? Datatypes.length (s_coords s) - 1)%nat eqn:More.
  1,3,5,7: unfold animateRoute, animateSegment.
  1,2,3,4: repeat (progress (simpl; repeat rewrite update_nth_twice;
                         repeat rewrite (nth_error_update_nth_same _ _ _ _ Hs);
                         rewrite ?Rs, ?Se, ?More)).
  1,2,3,4: eexists; split; [reflexivity|]; simpl; auto.
  all: unfold showAllMarkersAndRoute.
  all: repeat (progress (simpl; repeat rewrite update_nth_twice;
                         repeat rewrite (nth_error_update_nth_same _ _ _ _ Hs);
                         rewrite ?Rs, ?Se, ?More)).
  all: destruct (routeLayerAdded s) eqn:Rl; destruct (route_layer w); simpl.
  all: destruct (routeSourceAdded s) eqn:Ra; simpl.
  all: repeat (progress (simpl; repeat rewrite update_nth_twice;
                         repeat rewrite (nth_error_update_nth_same _ _ _ _ Hs);
                         rewrite ?Rs, ?Se, ?More)).
  all: eexists; split; [reflexivity|]; simpl; auto.
Qed.

Lemma cleanup_touches (sid : nat) (w : World) :
  exists F : Session -> Session,
    sessions (cleanup sid w) = update_nth sid F (sessions w) /\
    forall s, s_sound (F s) = s_sound s /\ segment (F s) = segment s /\
              routeLayerAdded (F s) = routeLayerAdded s /\
              routeSourceAdded (F s) = routeSourceAdded s.
Proof.
  unfold cleanup.
  destruct (nth_error (sessions w) sid) as [s|] eqn:Hs.
  2:{ exists (fun x => x). rewrite update_nth_id. auto. }
  destruct (cleanupDone s).
  { exists (fun x => x). rewrite update_nth_id. auto. }
  exists (fun s => set_marker_shown false (set_cleanupDone true s)).
  split; [|intros s0; simpl; auto].
  unfold cancelAnimationFrame.
  repeat match goal with
         | |- context [match ?x with _ => _ end] => destruct x; simpl
         end; now rewrite update_nth_twice.
Qed.

Lemma onMoveEnd_touches (sid : nat) (clock : R) (w : World) (s : Session) :
  nth_error (sessions w) sid = Some s ->
  exists F : Session -> Session,
    sessions (onMoveEnd sid clock w) = update_nth sid F (sessions w) /\
    s_sound (F s) = s_sound s /\ cleanupDone (F s) = cleanupDone s /\
    routeLayerAdded (F s) = true /\ routeSourceAdded (F s) = true.
Proof.
  intros Hs. unfold onMoveEnd. rewrite Hs. unfold animateRoute.
  repeat (progress (simpl; repeat rewrite update_nth_twice;
                    repeat rewrite (nth_error_update_nth_same _ _ _ _ Hs))).
  destruct (i s <? length (s_coords s) - 1)%nat.
  - unfold animateSegment.
    repeat (progress (simpl; repeat rewrite update_nth_twice;
                      repeat rewrite (nth_error_update_nth_same _ _ _ _ Hs))).
    eexists; split; [reflexivity|]; simpl; auto.
  - simpl. repeat rewrite update_nth_twice.
    eexists; split; [reflexivity|]; simpl; auto.
Qed.

(** The invariant reads the sessions and the held cleanup only. *)
Lemma Kept_touch (w w' : World) (sid : nat) (F : Session -> Session) :
  Kept w ->
  sessions w' = update_nth sid F (sessions w) -> held w' = held w ->
  (forall s, nth_error (sessions w) sid = Some s ->
     (routed s -> routed (F s)) /\ cleanupDone (F s) = cleanupDone s) ->
  Kept w'.
Proof.
  intros [K1 K2] E H Q. split.
  - intros j s'. rewrite E, nth_error_update_nth.
    destruct (Nat.eqb_spec j sid) as [->|_]; [|apply K1].
    destruct (nth_error (sessions w) sid) as [s|] eqn:Hs; [|discriminate].
    intros [= <-]. apply (Q s eq_refl). exact (K1 sid s Hs).
  - intros j s'. rewrite E, H, nth_error_update_nth.
    destruct (Nat.eqb_spec j sid) as [->|_]; [|apply K2].
    destruct (nth_error (sessions w) sid) as [s|] eqn:Hs; [|discriminate].
    intros Hh [= <-]. rewrite (proj2 (Q s eq_refl)). exact (K2 sid s Hh Hs).
Qed.

Lemma Kept_same (w w' : World) :
  Kept w -> sessions w' = sessions w -> held w' = held w -> Kept w'.
Proof. intros [K1 K2] E H. split; rewrite E; [|rewrite H]; assumption. Qed.

(** After the cleanup React held, and with no cleanup held any more,
    the animation effect keeps the invariant. *)
Lemma Kept_animation_effect (seen : list nat) (w : World) :
  (forall sid s, nth_error (sessions w) sid = Some s -> routed s) ->
  held w = None ->
  Kept (animation_effect seen w).
Proof.
  intros K1 Hh.
  destruct (animation_effect_cases seen w) as [[E _]|(Rq & Ge & _ & _ & H & _)].
  { rewrite E. split; [exact K1|]. intros sid s N. congruence. }
  assert (Mr : map_ready w = true).
  { destruct (map_ready w) eqn:M; [reflexivity|].
    unfold animation_effect in H. rewrite Rq, M in H. simpl in H. congruence. }
  destruct (animation_effect_starts seen w Rq Mr Ge) as (_ & S & _).
  cbv zeta in S. split.
  - intros j s'. rewrite S. intros N.
    destruct (Nat.lt_ge_cases j (length (sessions w))) as [Lt|Ge'].
    + rewrite nth_error_app1 in N by exact Lt. exact (K1 j s' N).
    + rewrite nth_error_app2 in N by exact Ge'.
      destruct (j - length (sessions w))%nat as [|k]; [|now destruct k].
      injection N as <-. intros X. now elim X.
  - intros j s'. rewrite H, S. intros [= <-].
    rewrite nth_error_app2, Nat.sub_diag by lia. now intros [= <-].
Qed.

Lemma routed_cleanup (sid : nat) (w : World) :
  (forall j s, nth_error (sessions w) j = Some s -> routed s) ->
  forall j s, nth_error (sessions (cleanup sid w)) j = Some s -> routed s.
Proof.
  intros K1 j s'. destruct (cleanup_touches sid w) as (F & E & Q).
  rewrite E, nth_error_update_nth.
  destruct (Nat.eqb_spec j sid) as [->|_]; [|apply K1].
  destruct (nth_error (sessions w) sid) as [s|] eqn:Hs; [|discriminate].
  intros [= <-]. destruct (Q s) as (_ & Q1 & Q2 & Q3).
  unfold routed. rewrite Q1, Q2, Q3. exact (K1 sid s Hs).
Qed.

Lemma Kept_rerun (seen : list nat) (w : World) :
  (forall sid s, nth_error (sessions w) sid = Some s -> routed s) ->
  Kept (rerun_animation_effect seen w).
Proof.
  intros K1. unfold rerun_animation_effect.
  apply Kept_animation_effect; [|reflexivity].
  cbn [sessions with_held].
  destruct (held w) as [h|]; [now apply routed_cleanup | exact K1].
Qed.

Lemma Kept_onMoveEnd (sid : nat) (clock : R) (w : World) :
  Kept w -> Kept (onMoveEnd sid clock w).
Proof.
  intros K. destruct (nth_error (sessions w) sid) as [s|] eqn:Hs.
  - destruct (onMoveEnd_touches sid clock w s Hs) as (F & E & _ & Q1 & Q2 & Q3).
    apply (Kept_touch w _ sid F K E).
    + exact (c_held _ _ (same_closures_onMoveEnd sid clock w)).
    + intros s0 Hs0. assert (s0 = s) by congruence. subst s0.
      split; [intros _ _; auto | exact Q1].
  - unfold onMoveEnd. now rewrite Hs.
Qed.

Lemma Kept_moveEnd_fold (clock : R) (l : list nat) (w : World) :
  Kept w -> Kept (fold_left (fun w sid => onMoveEnd sid clock w) l w).
Proof.
  revert w. induction l as [|x l IH]; intros w K; [exact K|].
  simpl. apply IH. now apply Kept_onMoveEnd.
Qed.

Lemma Kept_frame (sid : nat) (now clock : R) (w : World) :
  Kept w -> Kept (frame sid now clock w).
Proof.
  intros K. destruct (nth_error (sessions w) sid) as [s|] eqn:Hs.
  2:{ unfold frame. now rewrite Hs. }
  destruct (segment s) as [g|] eqn:Hg.
  2:{ unfold frame. now rewrite Hs, Hg. }
  destruct (frame_touches sid now clock w s g Hs Hg)
    as (F & E & _ & Q1 & Q2 & Q3).
  apply (Kept_touch w _ sid F K E).
  - exact (c_held _ _ (same_closures_frame sid now clock w)).
  - intros s0 Hs0. assert (s0 = s) by congruence. subst s0.
    split; [|exact Q1].
    intros Rt _. rewrite Q2, Q3. apply Rt. congruence.
Qed.

Lemma Kept_step (w : World) (e : Event) : Kept w -> Kept (step w e).
Proof.
  intros K. destruct e as [|cs| | |k| |clock|id now clock]; cbn [step].
  - exact (Kept_same w _ K eq_refl eq_refl).
  - apply Kept_animation_effect; [|reflexivity].
    cbn [sessions with_held].
    rewrite (proj1 (proj2 (place_markers_effect_keeps _))).
    change (held (setCoords cs w)) with (held w).
    destruct (held w) as [h|]; [apply routed_cleanup|]; exact (proj1 K).
  - destruct (negb (panel w) || animating w || (length (coords w) <? 2)%nat);
      [exact K|].
    destruct (animationRequested w); [exact K|].
    apply Kept_rerun. exact (proj1 K).
  - destruct (panel w && animating w); [|exact K].
    exact (Kept_same w _ K eq_refl eq_refl).
  - destruct (panel w && negb (animating w) && has_stop k); [|exact K].
    destruct (Req_dec_T (speed_stop k) (animationSpeed w)); [exact K|].
    apply Kept_rerun. exact (proj1 K).
  - destruct (panel w); [|exact K].
    exact (Kept_same w _ K eq_refl eq_refl).
  - now apply Kept_moveEnd_fold.
  - destruct (take_frame id (frames w)) as [[sid rest]|]; [|exact K].
    assert (K' : Kept (frame sid now clock (with_frames rest w))).
    { apply Kept_frame. exact (Kept_same w _ K eq_refl eq_refl). }
    unfold commit_after_frame.
    destruct (animationRequested w && negb _); [|exact K'].
    apply Kept_rerun. exact (proj1 K').
Qed.

(** In every state the component can reach, a session in a segment has
    added its route, and the held cleanup has not run. *)
Lemma reachable_Kept (w : World) : reachable w -> Kept w.
Proof.
  induction 1 as [|w e R IH]; [|now apply Kept_step].
  split; intros sid s; [|discriminate]. now destruct sid.
Qed.

(** *** The blue markers on the map *)

Lemma static_fresh_same (w w' : World) :
  static_fresh w ->
  static_markers w' = static_markers w -> next_marker w' = next_marker w ->
  static_fresh w'.
Proof. unfold static_fresh. intros H A B. now rewrite A, B. Qed.

Lemma static_fresh_add_static (cs : list Coordinate) (w : World) :
  static_fresh w -> static_fresh (add_static cs w).
Proof.
  unfold static_fresh, add_static.
  cbn [static_markers next_marker setMarkers with_next_marker
       with_static_markers].
  intros H. apply Forall_app. split.
  - revert H. apply Forall_impl. intros p. lia.
  - apply Forall_forall. intros [a b] I. apply in_combine_l in I.
    apply in_seq in I. simpl. lia.
Qed.

Lemma static_fresh_remove_static (ids : list nat) (w : World) :
  static_fresh w -> static_fresh (remove_static ids w).
Proof.
  unfold static_fresh, remove_static.
  cbn [static_markers next_marker with_static_markers].
  intros H. apply Forall_forall. intros p I. apply filter_In in I.
  rewrite Forall_forall in H. now apply H.
Qed.

Lemma static_cleanup (sid : nat) (w : World) :
  static_markers (cleanup sid w) = static_markers w /\
  next_marker (cleanup sid w) = next_marker w.
Proof.
  destruct (cleanup_keeps sid w) as (A & _).
  destruct (cleanup_keeps_more sid w) as (_ & B & _). auto.
Qed.

Lemma static_fresh_animation_effect (seen : list nat) (w : World) :
  static_fresh w -> static_fresh (animation_effect seen w).
Proof.
  intros H. unfold animation_effect.
  destruct (negb (animationRequested w) || negb (map_ready w) ||
            (length (coords w) <? 2)%nat); [exact H|].
  cbv zeta. unfold playSound, remove_static, remove_route, static_fresh.
  cbn [with_held with_moveend with_camera
       setAnimating with_cues with_sessions with_static_markers
       with_route_source with_route_layer with_currentFrame
       with_isPaused setCurrentSegment setAnimationPaused
       soundEnabled].
  destruct (soundEnabled w).
  all: cbn [static_markers next_marker with_held with_moveend with_camera
            setAnimating with_cues with_sessions with_static_markers
            with_route_source with_route_layer with_currentFrame
            with_isPaused setCurrentSegment setAnimationPaused
            soundEnabled].
  all: apply Forall_forall; intros p I; apply filter_In in I.
  all: unfold static_fresh in H; rewrite Forall_forall in H; now apply H.
Qed.

Lemma static_fresh_rerun (seen : list nat) (w : World) :
  static_fresh w -> static_fresh (rerun_animation_effect seen w).
Proof.
  intros H. unfold rerun_animation_effect.
  apply static_fresh_animation_effect.
  destruct (held w) as [h|]; [|exact H].
  destruct (static_cleanup h w) as [A B].
  exact (static_fresh_same w _ H A B).
Qed.

Lemma static_fresh_place_markers_effect (w : World) :
  static_fresh w -> static_fresh (place_markers_effect w).
Proof.
  intros H. unfold place_markers_effect.
  destruct (negb (map_ready w) || (length (coords w) =? 0)%nat); [exact H|].
  assert (X : static_fresh (add_static (coords w)
                              (remove_static (markers w) w))).
  { apply static_fresh_add_static. now apply static_fresh_remove_static. }
  exact X.
Qed.

Lemma static_onMoveEnd (sid : nat) (clock : R) (w : World) :
  static_markers (onMoveEnd sid clock w) = static_markers w /\
  next_marker (onMoveEnd sid clock w) = next_marker w.
Proof.
  unfold onMoveEnd, animateRoute, animateSegment.
  repeat match goal with
         | |- context [match ?x with _ => _ end] => destruct x; simpl
         end; auto.
Qed.

Lemma static_moveEnd_fold (clock : R) (l : list nat) (w : World) :
  let w' := fold_left (fun w sid => onMoveEnd sid clock w) l w in
  static_markers w' = static_markers w /\ next_marker w' = next_marker w.
Proof.
  revert w. induction l as [|x l IH]; intros w; simpl; [auto|].
  destruct (IH (onMoveEnd x clock w)) as [A B].
  destruct (static_onMoveEnd x clock w) as [A' B'].
  split; congruence.
Qed.

Lemma static_animateRoute (sid : nat) (clock : R) (w : World) :
  static_markers (animateRoute sid clock w) = static_markers w /\
  next_marker (animateRoute sid clock w) = next_marker w.
Proof.
  unfold animateRoute, animateSegment.
  repeat match goal with
         | |- context [match ?x with _ => _ end] => destruct x; simpl
         end; auto.
Qed.

Lemma static_fresh_onDone (sid : nat) (clock : R) (w : World) :
  static_fresh w -> static_fresh (onDone sid clock w).
Proof.
  intros H. unfold onDone.
  set (w1 := modify sid (fun s => set_i (i s + 1) s) w).
  change (static_fresh w1) in H. clearbody w1.
  destruct (nth_error (sessions w1) sid) as [s|]; [|exact H].
  destruct (i s <? length (s_coords s) - 1)%nat.
  - destruct (static_animateRoute sid clock w1) as [A B].
    exact (static_fresh_same w1 _ H A B).
  - unfold showAllMarkersAndRoute, playSound.
    repeat match goal with
           | |- context [match ?x with _ => _ end] => destruct x
           end; try exact H.
    all: cbv zeta; exact (static_fresh_add_static _ _ H).
Qed.

Lemma static_fresh_frame (sid : nat) (now clock : R) (w : World) :
  static_fresh w -> static_fresh (frame sid now clock w).
Proof.
  intros H. unfold frame.
  destruct (nth_error (sessions w) sid) as [s|]; [|exact H].
  destruct (segment s) as [g|]; [|exact H].
  destruct (isPaused w); [exact H|].
  cbv zeta.
  set (t := JsMath.min ((now - startTime g) / duration g) 1).
  assert (D : static_fresh (frame_draw sid s g t w)).
  { unfold frame_draw, setData. cbv zeta.
    cbn [route_source modify with_sessions].
    destruct (route_source w); exact H. }
  destruct (JsMath.ltb t 1); [exact D|].
  unfold frame_arrive. apply static_fresh_onDone.
  unfold playSound, setData.
  repeat match goal with
         | |- context [match ?x with _ => _ end] => destruct x
         end; exact D.
Qed.

(** In every state the component can reach, the blue markers on the
    map are older than the next marker object. *)
Lemma reachable_static_fresh (w : World) : reachable w -> static_fresh w.
Proof.
  induction 1 as [|w e R IH]; [constructor|].
  destruct e as [|cs| | |k| |clock|id now clock]; cbn [step].
  - exact IH.
  - apply static_fresh_animation_effect.
    assert (X : static_fresh (place_markers_effect
                  match held (setCoords cs w) with
                  | Some sid => cleanup sid (setCoords cs w)
                  | None => setCoords cs w
                  end)).
    { apply static_fresh_place_markers_effect.
      destruct (held (setCoords cs w)) as [h|]; [|exact IH].
      destruct (static_cleanup h (setCoords cs w)) as [A B].
      exact (static_fresh_same w _ IH A B). }
    exact X.
  - destruct (negb (panel w) || animating w || (length (coords w) <? 2)%nat);
      [exact IH|].
    destruct (animationRequested w); [exact IH|].
    now apply static_fresh_rerun.
  - destruct (panel w && animating w); exact IH.
  - destruct (panel w && negb (animating w) && has_stop k); [|exact IH].
    destruct (Req_dec_T (speed_stop k) (animationSpeed w)); [exact IH|].
    now apply static_fresh_rerun.
  - destruct (panel w); exact IH.
  - destruct (static_moveEnd_fold clock (moveend w) w) as [A B].
    exact (static_fresh_same w _ IH A B).
  - destruct (take_frame id (frames w)) as [[sid rest]|]; [|exact IH].
    assert (F : static_fresh (frame sid now clock (with_frames rest w)))
      by now apply static_fresh_frame.
    unfold commit_after_frame.
    destruct (animationRequested w && negb _); [|exact F].
    now apply static_fresh_rerun.
Qed.

(** *** The frame that ends the play-through *)

(** What the invariant says of a frame callback that is due. *)
Lemma due_frame (w : World) (id sid : nat) (rest : list (nat * nat))
    (s : Session) (g : Segment) (now : R) :
  reachable w ->
  take_frame id (frames w) = Some (sid, rest) ->
  nth_error (sessions w) sid = Some s -> segment s = Some g ->
  (i s + 1 < length (s_coords s))%nat /\
  end_ g = nth (i s + 1) (s_coords s) origin /\
  duration g = 3500 / s_speed s /\ 0 < 3500 / s_speed s /\
  progressCoords s ++ [end_ g] = firstn (S (i s + 1)) (s_coords s) /\
  count (moveend w) sid = O /\ count (map snd rest) sid = O /\
  ((now - startTime g) / duration g < 1 <->
   now < startTime g + 3500 / s_speed s).
Proof.
  intros R T Hs Hg.
  destruct (anim_reachable_Inv w R) as ((A & B) & _).
  destruct (take_frame_counts _ _ _ _ T) as [Hin C].
  assert (Ks : session_ok (moveend w) (sid :: map snd rest) sid s).
  { generalize (A sid s Hs). apply session_ok_mono; auto.
    rewrite (C sid). apply Nat.le_refl. }
  destruct (running_facts _ _ _ _ _ Ks Hg) as (Ri & Re & Rd & Rp & Zm & Zf).
  pose proof (stop_positive _ (ok_speed _ _ _ _ Ks)) as Vp.
  assert (Dp : 0 < 3500 / s_speed s) by (apply Rdiv_lt_0_compat; lra).
  repeat (split; [assumption|]).
  rewrite Rd. split; intros H.
  - apply (Rmult_lt_compat_r (3500 / s_speed s)) in H; [|exact Dp].
    unfold Rdiv at 1 in H. rewrite Rmult_assoc, Rinv_l in H by lra. lra.
  - apply (Rmult_lt_reg_r (3500 / s_speed s)); [exact Dp|].
    unfold Rdiv at 1. rewrite Rmult_assoc, Rinv_l by lra. lra.
Qed.

(** The cleanup of a session that has added its route and has not been
    cleaned up before. *)
Lemma cleanup_routed (sid : nat) (w : World) (s : Session) :
  nth_error (sessions w) sid = Some s -> cleanupDone s = false ->
  routeLayerAdded s = true -> routeSourceAdded s = true ->
  let w' := cleanup sid w in
  route_layer w' = None /\ route_source w' = None /\
  sessions w' =
    update_nth sid (fun s => set_marker_shown false (set_cleanupDone true s))
               (sessions w) /\
  (forall p, In p (frames w') -> In p (frames w)).
Proof.
  intros Hs Hd Hl Hr. cbv zeta. unfold cleanup, cancelAnimationFrame.
  rewrite Hs, Hd, Hl, Hr.
  destruct (animationFrame s) as [id|]; [destruct (id =? 0)%nat|].
  all: destruct (route_layer w) eqn:L; destruct (route_source w) eqn:S;
    simpl; rewrite ?L, ?S; simpl; rewrite ?S, ?L; simpl;
    rewrite ?update_nth_twice, ?L, ?S.
  all: do 3 (split; [reflexivity|]).
  all: intros q I; try exact I.
  all: apply filter_In in I; tauto.
Qed.

(** The state after the frame that ends the play-through of the
    session React holds, the commit included. *)
Lemma completing_frame (w : World) (id sid : nat)
    (rest : list (nat * nat)) (s : Session) (g : Segment) (now clock : R) :
  reachable w ->
  take_frame id (frames w) = Some (sid, rest) ->
  held w = Some sid -> animationRequested w = true ->
  nth_error (sessions w) sid = Some s -> segment s = Some g ->
  isPaused w = false ->
  (i s + 2 = length (coords w))%nat ->
  startTime g + 3500 / animationSpeed w <= now ->
  let w' := step w (Frame id now clock) in
  (animating w' = false /\ animationRequested w' = false /\ held w' = None /\
   route_layer w' = None /\ route_source w' = None /\
   camera w' = FitBounds (coords w) /\
   markers w' = seq (next_marker w) (length (coords w)) /\
   static_markers w' =
     static_markers w ++
     combine (seq (next_marker w) (length (coords w))) (coords w)) /\
  ((forall id', ~ In (id', sid) (frames w')) /\
   moveend w' = moveend w /\ coords w' = coords w /\
   map_ready w' = true /\ animationSpeed w' = animationSpeed w /\
   soundEnabled w' = soundEnabled w /\
   length (sessions w') = length (sessions w)) /\
  exists s', nth_error (sessions w') sid = Some s' /\
    marker_shown s' = false /\ cleanupDone s' = true /\
    progressCoords s' = coords w.
Proof.
  intros R T Hh Rq Hs Hg P Last Late. cbv zeta.
  destruct (anim_reachable_Inv w R) as (_ & _ & Hd).
  destruct (Hd sid Hh) as (s0 & Hs0 & Ec & Ev).
  assert (s0 = s) by congruence. subst s0.
  destruct (reachable_Kept w R) as [K1 K2].
  destruct (K1 sid s Hs) as [Kl Kr]; [congruence|].
  pose proof (K2 sid s Hh Hs) as Kd.
  assert (Mr : map_ready w = true).
  { apply (sessions_need_map w R). intros N. rewrite N in Hs.
    now destruct sid. }
  destruct (due_frame w id sid rest s g now R T Hs Hg)
    as (Ri & Re & Rd & Dp & Rp & _ & Zf & Ratio).
  rewrite <- Ev in Late. rewrite <- Ec in Last.
  assert (L : 1 <= (now - startTime g) / duration g).
  { destruct (Rle_lt_dec 1 ((now - startTime g) / duration g)) as [X|X];
      [exact X|]. apply Ratio in X. lra. }
  assert (More : (i s + 1 <? length (s_coords s) - 1)%nat = false)
    by (apply Nat.ltb_ge; lia).
  rewrite (step_frame _ _ _ _ _ _ T).
  set (w1 := with_frames rest w).
  destruct (frame_arrive_last_fields sid now clock w1 s g Hs Hg P L More)
    as (F1 & F2 & F3 & F4 & F5 & F6 & F7 & F8 & F9 & F10 & _ & F12).
  pose proof (same_closures_frame sid now clock w1) as [_ _ Cc Cs Cm].
  destruct (frame_sessions_length sid now clock w1) as [Ln Se].
  cbv zeta in F1, F2, F3, F4, F5, F6, F7, F8, F9, F10, F12.
  set (w2 := frame sid now clock w1) in *.
  unfold commit_after_frame. rewrite F10, Rq. cbn [negb andb].
  rewrite (rerun_declines _ _ F10).
  change (held w1) with (held w) in F8. rewrite F8, Hh.
  assert (Hs2 : nth_error (sessions w2) sid =
                Some (set_marker_shown false
                        (set_i (i s + 1)
                           (set_marker_at (end_ g)
                              (set_progressCoords (progressCoords s ++ [end_ g])
                                 (set_segment (Some (set_t 1 g)) s)))))).
  { rewrite F12, nth_error_update_nth, Nat.eqb_refl.
    change (sessions w1) with (sessions w). now rewrite Hs. }
  destruct (cleanup_routed sid w2 _ Hs2 Kd Kl Kr) as (C1 & C2 & C3 & C4).
  destruct (flags_cleanup sid w2) as (A1 & A2 & _ & A4 & A5).
  destruct (cleanup_keeps sid w2) as (B1 & B2 & _ & B4 & B5 & B6).
  destruct (cleanup_keeps_more sid w2) as (B7 & _ & B3).
  cbv zeta in C1, C2, C3, C4.
  cbn [animating animationRequested held route_layer route_source camera
       markers static_markers frames sessions with_held moveend coords
       map_ready animationSpeed soundEnabled].
  rewrite A1, A2, A4, A5, C1, C2, B1, B2, B3, B4, B5, B6, B7.
  rewrite F3, F4, F5, F7, F9, F10, Ec, Cc, Cs, Cm, Ln, Se.
  split; [|split].
  - do 7 (split; [reflexivity|]). reflexivity.
  - split; [|split; [|split; [|split]]]; auto.
    intros id' I. apply C4 in I. rewrite F6 in I.
    cbn [frames w1 with_frames] in I.
    assert (X : In sid (map snd rest))
      by (apply in_map_iff; now exists (id', sid)).
    apply (count_occ_In Nat.eq_dec) in X. fold count in X. lia.
  - eexists. split.
    + rewrite C3, nth_error_update_nth, Nat.eqb_refl, Hs2. reflexivity.
    + cbn. split; [reflexivity|]. split; [reflexivity|].
      rewrite Rp, <- Ec. apply firstn_all2. lia.
Qed.

(** X16.  The frame that ends the play-through, in every state the
    component can reach.  The session whose cleanup React holds is in
    its last segment, and its frame callback runs, not paused, when the
    segment's time is up.  Afterwards [animating] and
    [animationRequested] are clear and no cleanup is held; a blue marker
    has been added on every coordinate and the camera is fitted to
    them; the yellow marker is off the map and no callback of the
    session is pending.  But the map has no route: the dashed line that
    [showAllMarkersAndRoute] adds is taken off again by the session's
    own cleanup, which React runs because [animationRequested]
    changed. *)
Theorem completed_overview (w : World) (id sid : nat)
    (rest : list (nat * nat)) (s : Session) (g : Segment) (now clock : R) :
  reachable w ->
  take_frame id (frames w) = Some (sid, rest) ->
  held w = Some sid -> animationRequested w = true ->
  nth_error (sessions w) sid = Some s -> segment s = Some g ->
  isPaused w = false ->
  (i s + 2 = length (coords w))%nat ->
  startTime g + 3500 / animationSpeed w <= now ->
  let w' := step w (Frame id now clock) in
  animating w' = false /\ animationRequested w' = false /\ held w' = None /\
  route_layer w' = None /\ route_source w' = None /\
  camera w' = FitBounds (coords w) /\
  length (markers w') = length (coords w) /\
  static_markers w' = static_markers w ++ combine (markers w') (coords w) /\
  (forall id', ~ In (id', sid) (frames w')) /\
  exists s', nth_error (sessions w') sid = Some s' /\
    marker_shown s' = false /\ cleanupDone s' = true /\
    progressCoords s' = coords w.
Proof.
  intros R T Hh Rq Hs Hg P Last Late.
  destruct (completing_frame w id sid rest s g now clock
              R T Hh Rq Hs Hg P Last Late)
    as ((A1 & A2 & A3 & A4 & A5 & A6 & A7 & A8) & (B2 & _) & C).
  cbv zeta in *. rewrite A7, length_seq. auto 12.
Qed.

Lemma filter_static_older (ids : list nat) (n : nat)
    (l : list (nat * Coordinate)) :
  Forall (fun p : nat * Coordinate => (fst p < n)%nat) l ->
  Forall (fun id => (n <= id)%nat) ids ->
  filter (fun p : nat * Coordinate => negb (existsb (Nat.eqb (fst p)) ids)) l
  = l.
Proof.
  intros F G. induction F as [|p l Hp F IH]; [reflexivity|]. simpl.
  assert (E : existsb (Nat.eqb (fst p)) ids = false).
  { destruct (existsb (Nat.eqb (fst p)) ids) eqn:E; [|reflexivity].
    apply existsb_exists in E. destruct E as (x & I & E).
    apply Nat.eqb_eq in E. rewrite Forall_forall in G.
    pose proof (G x I). lia. }
  rewrite E. simpl. now rewrite IH.
Qed.

(** What a start of the animation effect registers and plays. *)
Lemma animation_effect_listener (seen : list nat) (w : World) :
  animationRequested w = true -> map_ready w = true ->
  (2 <= length (coords w))%nat ->
  let w' := animation_effect seen w in
  moveend w' = moveend w ++ [length (sessions w)] /\
  cues w' = cues w ++ (if soundEnabled w then [CueStart] else []) /\
  animationRequested w' = true.
Proof.
  intros Rq Mr L. unfold animation_effect. rewrite Rq, Mr.
  apply Nat.ltb_ge in L. rewrite L. unfold playSound. simpl.
  destruct (soundEnabled w); simpl; rewrite ?app_nil_r; auto.
Qed.

(** X24.  Start after the end of a play-through, in every state the
    component can reach.  After the frame that ends the play-through of
    the session React holds, a click on Start starts a new session on
    the same coordinates, from the first one, with the speed and the
    sound switch as they are now; the camera flies to the first
    coordinate; the session waits for the camera (its [onMoveEnd] joins
    the registered ones, no frame is asked for).  The blue markers that
    the end of the play-through put on the coordinates are taken off
    again, and no other: the map shows the blue markers it showed
    before that frame. *)
Theorem replay_after_completion (w : World) (id sid : nat)
    (rest : list (nat * nat)) (s : Session) (g : Segment) (now clock : R) :
  reachable w ->
  take_frame id (frames w) = Some (sid, rest) ->
  held w = Some sid -> animationRequested w = true ->
  nth_error (sessions w) sid = Some s -> segment s = Some g ->
  isPaused w = false ->
  (i s + 2 = length (coords w))%nat ->
  startTime g + 3500 / animationSpeed w <= now ->
  let w1 := step w (Frame id now clock) in
  let w2 := step w1 ClickStart in
  animating w2 = true /\ animationRequested w2 = true /\
  held w2 = Some (length (sessions w)) /\
  static_markers w2 = static_markers w /\
  camera w2 = FlyTo (nth 0 (coords w) origin) 10 /\
  route_layer w2 = None /\ route_source w2 = None /\
  moveend w2 = moveend w ++ [length (sessions w)] /\
  frames w2 = frames w1 /\
  nth_error (sessions w2) (length (sessions w)) =
    Some (mkSession (coords w) (animationSpeed w) (soundEnabled w) None
            (nth 0 (coords w) origin) true false false false
            [nth 0 (coords w) origin] 0 None).
Proof.
  intros R T Hh Rq Hs Hg P Last Late.
  destruct (completing_frame w id sid rest s g now clock
              R T Hh Rq Hs Hg P Last Late)
    as ((A1 & A2 & A3 & A4 & A5 & A6 & A7 & A8) &
        (_ & B3 & B4 & B5 & B6 & B7 & B8) & _).
  cbv zeta in *. set (w1 := step w (Frame id now clock)) in *.
  pose proof (reachable_static_fresh w R) as Fr.
  assert (L2 : (2 <= length (coords w))%nat) by lia.
  assert (Pn : panel w1 = true)
    by (unfold panel; rewrite B4; apply Nat.ltb_lt; lia).
  assert (Lt : (length (coords w1) <? 2)%nat = false)
    by (rewrite B4; apply Nat.ltb_ge; lia).
  cbn [step]. rewrite Pn, A1, Lt, A2. cbn [negb orb].
  unfold rerun_animation_effect.
  change (held (setAnimationRequested true w1)) with (held w1). rewrite A3.
  cbn [markers setAnimationRequested]. rewrite A7.
  set (ids := seq (next_marker w) (length (coords w))) in *.
  set (u := with_held None (setAnimationRequested true w1)).
  assert (Uq : animationRequested u = true) by reflexivity.
  assert (Um : map_ready u = true) by exact B5.
  assert (Ul : (2 <= length (coords u))%nat)
    by (change (coords u) with (coords w1); now rewrite B4).
  destruct (animation_effect_starts ids u Uq Um Ul)
    as (S1 & S2 & S3 & S4 & S5 & _).
  destruct (animation_effect_markers ids u Uq Um Ul)
    as (M1 & M2 & _ & M4).
  destruct (animation_effect_listener ids u Uq Um Ul)
    as (L1 & _ & L3).
  cbv zeta in S1, S2, S3, S4, S5, M1, M2, M4, L1, L3.
  change (coords u) with (coords w1) in *.
  change (sessions u) with (sessions w1) in *.
  change (animationSpeed u) with (animationSpeed w1) in *.
  change (soundEnabled u) with (soundEnabled w1) in *.
  change (static_markers u) with (static_markers w1) in *.
  change (moveend u) with (moveend w1) in *.
  change (frames u) with (frames w1) in *.
  rewrite B4 in *. rewrite B6, B7 in S2. rewrite B8 in *. rewrite B3 in L1.
  rewrite A8, filter_app in M4. fold ids in M4.
  rewrite remove_all_static, app_nil_r in M4.
  rewrite (filter_static_older ids (next_marker w)) in M4.
  2:{ exact Fr. }
  2:{ apply Forall_forall. intros x I. apply in_seq in I. lia. }
  rewrite M1, M2, M4, L1, L3, S1, S3, S4, S5, S2.
  do 9 (split; [reflexivity|]).
  rewrite nth_error_app2 by lia. rewrite B8, Nat.sub_diag. reflexivity.
Qed.

(** *** The tones of a session *)

(** The tones a frame callback plays. *)
Lemma frame_cues (sid : nat) (now clock : R) (w : World) (s : Session)
    (g : Segment) :
  nth_error (sessions w) sid = Some s -> segment s = Some g ->
  cues (frame sid now clock w) =
  cues w ++
  (if isPaused w then []
   else if JsMath.ltb (JsMath.min ((now - startTime g) / duration g) 1) 1
   then []
   else if s_sound s
   then CueSegment ::
        (if (i s + 1 <? length (s_coords s) - 1)%nat then []
         else [CueComplete])
   else []).
Proof.
  intros Hs Hg.
  unfold frame, frame_poll, frame_draw, frame_again, frame_arrive.
  rewrite Hs, Hg.
  destruct (isPaused w) eqn:P.
  { simpl. now rewrite app_nil_r. }
  set (t := JsMath.min ((now - startTime g) / duration g) 1).
  set (lng := fst (start g) + _). set (lat := snd (start g) + _).
  destruct (JsMath.ltb t 1) eqn:Lt.
  { unfold setData. destruct (route_source w) eqn:Rs.
    all: repeat (progress (simpl; rewrite ?Rs)).
    all: now rewrite app_nil_r. }
  unfold onDone, setData, playSound.
  destruct (route_source w) eqn:Rs; destruct (s_sound s) eqn:Se.
  all: repeat (progress (simpl; repeat rewrite update_nth_twice;
                         repeat rewrite (nth_error_update_nth_same _ _ _ _ Hs);
                         rewrite ?Rs, ?Se)).
  all: destruct (i s + 1 <? Datatypes.length (s_coords s) - 1)%nat eqn:More.
  1,3,5,7: unfold animateRoute, animateSegment.
  1,2,3,4: repeat (progress (simpl; repeat rewrite update_nth_twice;
                         repeat rewrite (nth_error_update_nth_same _ _ _ _ Hs);
                         rewrite ?Rs, ?Se, ?More)).
  1,2,3,4: now rewrite ?app_nil_r.
  all: unfold showAllMarkersAndRoute.
  all: repeat (progress (simpl; repeat rewrite update_nth_twice;
                         repeat rewrite (nth_error_update_nth_same _ _ _ _ Hs);
                         rewrite ?Rs, ?Se, ?More)).
  all: destruct (routeLayerAdded s); destruct (route_layer w); simpl.
  all: destruct (routeSourceAdded s); simpl.
  all: repeat (progress (simpl; repeat rewrite update_nth_twice;
                         repeat rewrite (nth_error_update_nth_same _ _ _ _ Hs);
                         rewrite ?Rs, ?Se, ?More)).
  all: now rewrite <- ?app_assoc, ?app_nil_r.
Qed.

(** The commit after a frame callback plays nothing. *)
Lemma commit_cues (sid : nat) (now clock : R) (w0 w : World) :
  animationRequested w = animationRequested w0 ->
  cues (commit_after_frame w0 (frame sid now clock w)) =
  cues (frame sid now clock w) /\
  length (sessions (commit_after_frame w0 (frame sid now clock w))) =
  length (sessions (frame sid now clock w)).
Proof.
  intros E. unfold commit_after_frame.
  destruct (frame_flags sid now clock w) as [[_ B]|[_ B]]; cbv zeta in B.
  - rewrite B, E, andb_negb_r. auto.
  - rewrite B. destruct (animationRequested w0); cbn [negb andb]; [|auto].
    rewrite (rerun_declines _ _ B). cbn [cues sessions with_held].
    destruct (held (frame sid now clock w)) as [h|]; [|auto].
    destruct (cleanup_keeps h (frame sid now clock w))
      as (_ & _ & C & _ & _ & L). auto.
Qed.

(** What a run of the animation effect plays, and the sound switch the
    session it starts goes by. *)
Lemma animation_effect_tone (seen : list nat) (w : World) :
  let w' := animation_effect seen w in
  (length (sessions w') = length (sessions w) /\ cues w' = cues w) \/
  (length (sessions w') = S (length (sessions w)) /\
   cues w' = cues w ++ (if soundEnabled w then [CueStart] else []) /\
   exists s', nth_error (sessions w') (length (sessions w)) = Some s' /\
              s_sound s' = soundEnabled w).
Proof.
  cbv zeta. unfold animation_effect.
  destruct (negb (animationRequested w) || negb (map_ready w) ||
            (length (coords w) <? 2)%nat); [now left|].
  right. unfold playSound.
  destruct (soundEnabled w) eqn:Se; cbn; rewrite ?Se; cbn.
  all: rewrite length_app, Nat.add_1_r.
  all: split; [reflexivity|]; split; [now rewrite ?app_nil_r|].
  all: eexists; split;
    [rewrite nth_error_app2, Nat.sub_diag by lia; reflexivity|reflexivity].
Qed.

Lemma onMoveEnd_cues (sid : nat) (clock : R) (w : World) :
  cues (onMoveEnd sid clock w) = cues w /\
  length (sessions (onMoveEnd sid clock w)) = length (sessions w).
Proof.
  unfold onMoveEnd, animateRoute, animateSegment.
  repeat match goal with
         | |- context [match ?x with _ => _ end] => destruct x; simpl
         end; rewrite ?length_update_nth; auto.
Qed.

Lemma moveEnd_fold_cues (clock : R) (l : list nat) (w : World) :
  let w' := fold_left (fun w sid => onMoveEnd sid clock w) l w in
  cues w' = cues w /\ length (sessions w') = length (sessions w).
Proof.
  revert w. induction l as [|x l IH]; intros w; simpl; [auto|].
  destruct (IH (onMoveEnd x clock w)) as [A B].
  destruct (onMoveEnd_cues x clock w) as [A' B'].
  split; congruence.
Qed.

(** The sound switch a session closed over stays with it. *)
Lemma sound_touch (w w' : World) (sid : nat) (F : Session -> Session) :
  sessions w' = update_nth sid F (sessions w) ->
  (forall s, nth_error (sessions w) sid = Some s -> s_sound (F s) = s_sound s) ->
  forall j s, nth_error (sessions w) j = Some s ->
    exists s', nth_error (sessions w') j = Some s' /\ s_sound s' = s_sound s.
Proof.
  intros E Q j s Hs. rewrite E, nth_error_update_nth, Hs.
  destruct (Nat.eqb_spec j sid) as [->|_]; eexists; split;
    try reflexivity. now apply Q.
Qed.

Lemma sound_cleanup (sid : nat) (w : World) (j : nat) (s : Session) :
  nth_error (sessions w) j = Some s ->
  exists s', nth_error (sessions (cleanup sid w)) j = Some s' /\
             s_sound s' = s_sound s.
Proof.
  destruct (cleanup_touches sid w) as (F & E & Q).
  apply (sound_touch w _ sid F E). intros s0 _. apply Q.
Qed.

Lemma sound_animation_effect (seen : list nat) (w : World) (j : nat)
    (s : Session) :
  nth_error (sessions w) j = Some s ->
  nth_error (sessions (animation_effect seen w)) j = Some s.
Proof.
  intros Hs. unfold animation_effect, playSound.
  repeat match goal with
         | |- context [match ?x with _ => _ end] => destruct x; simpl
         end; try exact Hs.
  all: rewrite nth_error_app1; [exact Hs|].
  all: apply nth_error_Some; congruence.
Qed.

Lemma sound_rerun (seen : list nat) (w : World) (j : nat) (s : Session) :
  nth_error (sessions w) j = Some s ->
  exists s', nth_error (sessions (rerun_animation_effect seen w)) j = Some s' /\
             s_sound s' = s_sound s.
Proof.
  intros Hs. unfold rerun_animation_effect.
  assert (X : exists s', nth_error (sessions
                (with_held None match held w with
                                | Some sid => cleanup sid w
                                | None => w
                                end)) j = Some s' /\ s_sound s' = s_sound s).
  { cbn [sessions with_held]. destruct (held w) as [h|];
      [now apply sound_cleanup | now exists s]. }
  destruct X as (s' & Hs' & E). exists s'. split; [|exact E].
  now apply sound_animation_effect.
Qed.

Lemma sound_onMoveEnd (sid : nat) (clock : R) (w : World) (j : nat)
    (s : Session) :
  nth_error (sessions w) j = Some s ->
  exists s', nth_error (sessions (onMoveEnd sid clock w)) j = Some s' /\
             s_sound s' = s_sound s.
Proof.
  intros Hj. destruct (nth_error (sessions w) sid) as [s0|] eqn:Hs.
  - destruct (onMoveEnd_touches sid clock w s0 Hs) as (F & E & Q & _).
    apply (sound_touch w _ sid F E); [|exact Hj].
    intros s1 H1. assert (s1 = s0) by congruence. now subst s1.
  - unfold onMoveEnd. rewrite Hs. now exists s.
Qed.

Lemma sound_moveEnd_fold (clock : R) (l : list nat) (w : World) (j : nat)
    (s : Session) :
  nth_error (sessions w) j = Some s ->
  exists s',
    nth_error (sessions (fold_left (fun w sid => onMoveEnd sid clock w) l w)) j
      = Some s' /\ s_sound s' = s_sound s.
Proof.
  revert w s. induction l as [|x l IH]; intros w s Hj; [now exists s|].
  simpl. destruct (sound_onMoveEnd x clock w j s Hj) as (s1 & H1 & E1).
  destruct (IH _ _ H1) as (s2 & H2 & E2). exists s2. split; congruence.
Qed.

Lemma sound_frame (sid : nat) (now clock : R) (w : World) (j : nat)
    (s : Session) :
  nth_error (sessions w) j = Some s ->
  exists s', nth_error (sessions (frame sid now clock w)) j = Some s' /\
             s_sound s' = s_sound s.
Proof.
  intros Hj. destruct (nth_error (sessions w) sid) as [s0|] eqn:Hs.
  2:{ unfold frame. rewrite Hs. now exists s. }
  destruct (segment s0) as [g|] eqn:Hg.
  2:{ unfold frame. rewrite Hs, Hg. now exists s. }
  destruct (frame_touches sid now clock w s0 g Hs Hg) as (F & E & Q & _).
  apply (sound_touch w _ sid F E); [|exact Hj].
  intros s1 H1. assert (s1 = s0) by congruence. now subst s1.
Qed.

Lemma sound_step (w : World) (e : Event) (j : nat) (s : Session) :
  nth_error (sessions w) j = Some s ->
  exists s', nth_error (sessions (step w e)) j = Some s' /\
             s_sound s' = s_sound s.
Proof.
  intros Hj. destruct e as [|cs| | |k| |clock|id now clock]; cbn [step].
  - now exists s.
  - assert (X : exists s', nth_error (sessions
                  (with_held None (place_markers_effect
                     match held (setCoords cs w) with
                     | Some sid => cleanup sid (setCoords cs w)
                     | None => setCoords cs w
                     end))) j = Some s' /\ s_sound s' = s_sound s).
    { cbn [sessions with_held].
      rewrite (proj1 (proj2 (place_markers_effect_keeps _))).
      destruct (held (setCoords cs w)) as [h|];
        [now apply sound_cleanup | now exists s]. }
    destruct X as (s' & Hs' & E). exists s'. split; [|exact E].
    now apply sound_animation_effect.
  - destruct (negb (panel w) || animating w || (length (coords w) <? 2)%nat);
      [now exists s|].
    destruct (animationRequested w); [now exists s|].
    now apply sound_rerun.
  - destruct (panel w && animating w); now exists s.
  - destruct (panel w && negb (animating w) && has_stop k); [|now exists s].
    destruct (Req_dec_T (speed_stop k) (animationSpeed w)); [now exists s|].
    now apply sound_rerun.
  - destruct (panel w); now exists s.
  - now apply sound_moveEnd_fold.
  - destruct (take_frame id (frames w)) as [[sid rest]|]; [|now exists s].
    destruct (sound_frame sid now clock (with_frames rest w) j s Hj)
      as (s1 & H1 & E1).
    unfold commit_after_frame.
    destruct (animationRequested w && negb _); [|now exists s1].
    destruct (sound_rerun (markers (frame sid now clock (with_frames rest w)))
                _ j s1 H1) as (s2 & H2 & E2).
    exists s2. split; congruence.
Qed.

Lemma place_markers_effect_sound (w : World) :
  cues (place_markers_effect w) = cues w /\
  soundEnabled (place_markers_effect w) = soundEnabled w.
Proof.
  unfold place_markers_effect.
  destruct (negb (map_ready w) || (length (coords w) =? 0)%nat); simpl; auto.
Qed.

(** A commit that runs the cleanup React holds and then the animation
    effect: what it plays. *)
Lemma rerun_tone (seen : list nat) (w : World) :
  let w' := rerun_animation_effect seen w in
  (length (sessions w') = length (sessions w) /\ cues w' = cues w) \/
  (length (sessions w') = S (length (sessions w)) /\
   cues w' = cues w ++ (if soundEnabled w then [CueStart] else []) /\
   exists s', nth_error (sessions w') (length (sessions w)) = Some s' /\
              s_sound s' = soundEnabled w).
Proof.
  cbv zeta. unfold rerun_animation_effect.
  set (u := with_held None match held w with
                           | Some sid => cleanup sid w
                           | None => w
                           end).
  assert (E : length (sessions u) = length (sessions w) /\ cues u = cues w /\
              soundEnabled u = soundEnabled w).
  { unfold u. cbn [sessions cues soundEnabled with_held].
    destruct (held w) as [h|]; [|auto].
    destruct (cleanup_keeps h w) as (_ & _ & A & _ & B & C). auto. }
  destruct E as (E1 & E2 & E3).
  destruct (animation_effect_tone seen u) as [X|X]; cbv zeta in X;
    rewrite E1, E2, ?E3 in X; [now left | now right].
Qed.

(** X17.  The tones of the animation, in every state the component can
    reach.  An event other than a frame callback plays nothing, unless
    it starts a session: then it plays the start tone if the sound is
    switched on, and the session keeps that state of the switch.  A
    frame callback plays nothing while paused or before the segment's
    time is up; the one that ends a segment plays the segment tone,
    followed by the completion tone when the segment is the last, if
    the session's switch is on, and nothing if it is off.  The switch a
    session goes by never changes: the sound button does not reach a
    session that is under way. *)
Theorem session_tones (w : World) :
  reachable w ->
  (forall e, (forall id now clock, e <> Frame id now clock) ->
     (length (sessions (step w e)) = length (sessions w) /\
      cues (step w e) = cues w) \/
     (length (sessions (step w e)) = S (length (sessions w)) /\
      cues (step w e) = cues w ++ (if soundEnabled w then [CueStart] else []) /\
      exists s', nth_error (sessions (step w e)) (length (sessions w)) =
                   Some s' /\
                 s_sound s' = soundEnabled w)) /\
  (forall id now clock sid rest s g,
     take_frame id (frames w) = Some (sid, rest) ->
     nth_error (sessions w) sid = Some s -> segment s = Some g ->
     let w' := step w (Frame id now clock) in
     length (sessions w') = length (sessions w) /\
     (isPaused w = true \/ now < startTime g + 3500 / s_speed s ->
      cues w' = cues w) /\
     (isPaused w = false -> startTime g + 3500 / s_speed s <= now ->
      cues w' =
      cues w ++
      (if s_sound s
       then CueSegment ::
            (if (i s + 1 <? length (s_coords s) - 1)%nat then []
             else [CueComplete])
       else []))) /\
  (forall e j s, nth_error (sessions w) j = Some s ->
     exists s', nth_error (sessions (step w e)) j = Some s' /\
                s_sound s' = s_sound s).
Proof.
  intros R. split; [|split].
  - intros e NF. destruct e as [|cs| | |k| |clock|id now clock]; cbn [step].
    + now left.
    + set (u := with_held None (place_markers_effect
                  match held (setCoords cs w) with
                  | Some sid => cleanup sid (setCoords cs w)
                  | None => setCoords cs w
                  end)).
      assert (E : length (sessions u) = length (sessions w) /\
                  cues u = cues w /\ soundEnabled u = soundEnabled w).
      { unfold u. cbn [sessions cues soundEnabled with_held].
        rewrite (proj1 (proj2 (place_markers_effect_keeps _))).
        rewrite (proj1 (place_markers_effect_sound _)).
        rewrite (proj2 (place_markers_effect_sound _)).
        destruct (held (setCoords cs w)) as [h|]; [|auto].
        destruct (cleanup_keeps h (setCoords cs w))
          as (_ & _ & A & _ & B & C). auto. }
      destruct E as (E1 & E2 & E3).
      destruct (animation_effect_tone (markers w) u) as [X|X]; cbv zeta in X;
        rewrite E1, E2, ?E3 in X; [now left | now right].
    + destruct (negb (panel w) || animating w || (length (coords w) <? 2)%nat);
        [now left|].
      destruct (animationRequested w); [now left|].
      exact (rerun_tone (markers w) (setAnimationRequested true w)).
    + destruct (panel w && animating w); now left.
    + destruct (panel w && negb (animating w) && has_stop k); [|now left].
      destruct (Req_dec_T (speed_stop k) (animationSpeed w)); [now left|].
      exact (rerun_tone (markers w) (setAnimationSpeed (speed_stop k) w)).
    + destruct (panel w); now left.
    + left. destruct (moveEnd_fold_cues clock (moveend w) w) as [A B].
      auto.
    + now destruct (NF id now clock).
  - intros id now clock sid rest s g T Hs Hg. cbv zeta.
    destruct (due_frame w id sid rest s g now R T Hs Hg)
      as (_ & _ & Rd & Dp & _ & _ & _ & Ratio).
    rewrite (step_frame _ _ _ _ _ _ T).
    set (w1 := with_frames rest w).
    destruct (commit_cues sid now clock w w1 eq_refl) as [Cc Cl].
    rewrite Cc, Cl.
    destruct (frame_sessions_length sid now clock w1) as [Ln _].
    rewrite (frame_cues sid now clock w1 s g Hs Hg).
    change (isPaused w1) with (isPaused w). change (cues w1) with (cues w).
    split; [exact Ln|]. split.
    + intros [P|Early].
      * rewrite P. apply app_nil_r.
      * destruct (isPaused w); [apply app_nil_r|].
        apply Ratio in Early. rewrite min_left, ltb_true by lra.
        apply app_nil_r.
    + intros P Late. rewrite P.
      assert (L : 1 <= (now - startTime g) / duration g).
      { destruct (Rle_lt_dec 1 ((now - startTime g) / duration g)) as [X|X];
          [exact X|]. apply Ratio in X. lra. }
      rewrite min_right, ltb_false by lra. reflexivity.
  - intros e j s. apply sound_step.
Qed.

Lemma reachable_at_1400 : reachable at_1400.
Proof. unfold at_1400. constructor. exact reachable_started. Qed.

Lemma invalidation_below_two_sticks_witness :
  animating (step at_1400 (CoordsArrive [paris])) = true /\
  step (step at_1400 (CoordsArrive [paris])) ClickStart =
  step at_1400 (CoordsArrive [paris]).
Proof.
  assert (H : exists s, nth_error (sessions at_1400) 0 = Some s /\
            cleanupDone s = false /\ animationFrame s = Some 2%nat).
  { run_trace. eexists. split; [reflexivity|]. auto. }
  destruct H as (s & Hs & Hd & Hf).
  assert (An : animating at_1400 = true) by (run_trace; reflexivity).
  assert (Hh : held at_1400 = Some O) by (run_trace; reflexivity).
  assert (Fr : frames at_1400 = [(2, 0)]%nat) by (run_trace; reflexivity).
  assert (Mv : moveend at_1400 = []) by (run_trace; reflexivity).
  destruct (invalidation_below_two_sticks at_1400 [paris] O 2%nat s ClickStart
              An Hh Hs Hd Hf (Nat.neq_succ_0 1) Fr Mv)
    as (A & _ & _ & _ & _ & B).
  - simpl. lia.
  - intros cs'. discriminate.
  - discriminate.
  - split; assumption.
Defined.

Lemma start_before_map_is_remembered_witness :
  animationRequested
    (step (run initial [CoordsArrive [paris; tokyo]]) ClickStart) = true.
Proof.
  refine (proj1 (start_before_map_is_remembered
                   (run initial [CoordsArrive [paris; tokyo]]) 3
                   [paris; tokyo] _ _ _ _ _)).
  - apply anim_reachable_run. constructor.
  - reflexivity.
  - simpl. lia.
  - reflexivity.
  - reflexivity.
Defined.

Lemma pause_and_resume_witness :
  step (step at_1400 ClickPause) ClickPause = at_1400.
Proof.
  exact (proj1 (proj2 (pause_and_resume at_1400 0 0 0 reachable_at_1400))).
Defined.

Lemma frame_moves_marker_along_segment_witness :
  exists (s' : Session) (lam : R),
    nth_error (sessions at_1400) 0 = Some s' /\ 0 <= lam <= 1 /\
    marker_at s' = (fst paris + (fst tokyo - fst paris) * lam,
                    snd paris + (snd tokyo - snd paris) * lam).
Proof.
  destruct (frame_moves_marker_along_segment started 1 0 []
              (mkSession [paris; tokyo] 1 false (Some 1%nat) paris true true true
                 false [paris] 0
                 (Some (mkSegment paris tokyo (3500 / 1) 0 0)))
              (mkSegment paris tokyo (3500 / 1) 0 0) 1400 1400)
    as (s' & lam & zoom & A & B & C & _).
  - run_trace. reflexivity.
  - run_trace. reflexivity.
  - reflexivity.
  - run_trace. reflexivity.
  - simpl. lra.
  - exists s', lam. auto.
Defined.

Lemma segment_ends_on_time_witness :
  exists s',
    nth_error (sessions (step started (Frame 1 3500 3500))) 0 = Some s' /\
    i s' = 1%nat /\ progressCoords s' = [paris; tokyo].
Proof.
  destruct (segment_ends_on_time started 1 0 []
              (mkSession [paris; tokyo] 1 false (Some 1%nat) paris true true true
                 false [paris] 0
                 (Some (mkSegment paris tokyo (3500 / 1) 0 0)))
              (mkSegment paris tokyo (3500 / 1) 0 0) 3500 3500
              reachable_started)
    as (s' & A & _ & _ & B).
  - run_trace. reflexivity.
  - run_trace. reflexivity.
  - reflexivity.
  - run_trace. reflexivity.
  - exists s'. split; [exact A|]. apply B. simpl. lra.
Defined.

Lemma moveend_listeners_run_once_witness :
  moveend (step requested (MoveEnd 0)) = [].
Proof.
  refine (proj1 (moveend_listeners_run_once requested 0 0 _)).
  unfold requested. apply anim_reachable_run. constructor.
Defined.

Lemma restart_keeps_blue_markers_witness :
  map snd
    (static_markers
       (step (run initial [MapCreated; CoordsArrive [paris; tokyo]; ClickStart])
             (CoordsArrive [tokyo; paris]))) =
  [tokyo; paris].
Proof.
  assert (R : reachable
                (run initial [MapCreated; CoordsArrive [paris; tokyo];
                              ClickStart]))
    by (apply anim_reachable_run; constructor).
  assert (M : map_ready
                (run initial [MapCreated; CoordsArrive [paris; tokyo];
                              ClickStart]) = true)
    by (unfold run; cbn [fold_left]; eval_world; reflexivity).
  assert (Q : animationRequested
                (run initial [MapCreated; CoordsArrive [paris; tokyo];
                              ClickStart]) = true)
    by (unfold run; cbn [fold_left]; eval_world; reflexivity).
  destruct (restart_keeps_blue_markers _ [tokyo; paris] R M Q (le_n 2))
    as (_ & _ & _ & _ & _ & G).
  rewrite G. unfold run. cbn [fold_left]. eval_world. reflexivity.
Defined.

Lemma coords_change_places_markers_witness :
  static_markers
    (step (run initial [MapCreated; CoordsArrive [paris; tokyo]])
          (CoordsArrive [])) =
  static_markers (run initial [MapCreated; CoordsArrive [paris; tokyo]]).
Proof.
  refine (proj1 (proj1 (proj2 (proj2 (proj2
    (coords_change_places_markers
       (run initial [MapCreated; CoordsArrive [paris; tokyo]]) [] _)))) _)).
  - reflexivity.
  - right. reflexivity.
Defined.

Lemma completed_overview_witness :
  route_layer finished = None /\ route_source finished = None /\
  camera finished = FitBounds (coords started).
Proof.
  assert (Hs : nth_error (sessions started) 0 =
               Some (mkSession [paris; tokyo] 1 false (Some 1%nat) paris true
                       true true false [paris] 0
                       (Some (mkSegment paris tokyo (3500 / 1) 0 0))))
    by (run_trace; reflexivity).
  assert (T : take_frame 1 (frames started) = Some (O, []))
    by (run_trace; reflexivity).
  assert (Hh : held started = Some O) by (run_trace; reflexivity).
  assert (Rq : animationRequested started = true) by (run_trace; reflexivity).
  assert (P : isPaused started = false) by (run_trace; reflexivity).
  assert (Last : (0 + 2 = length (coords started))%nat)
    by (run_trace; reflexivity).
  assert (Late : 0 + 3500 / animationSpeed started <= 3500)
    by (run_trace; lra).
  destruct (completed_overview started 1 O [] _ _ 3500 3500
              reachable_started T Hh Rq Hs eq_refl P Last Late)
    as (_ & _ & _ & A & B & C & _).
  unfold finished. auto.
Defined.

Lemma replay_after_completion_witness :
  animating (step finished ClickStart) = true /\
  static_markers (step finished ClickStart) = static_markers started.
Proof.
  assert (Hs : nth_error (sessions started) 0 =
               Some (mkSession [paris; tokyo] 1 false (Some 1%nat) paris true
                       true true false [paris] 0
                       (Some (mkSegment paris tokyo (3500 / 1) 0 0))))
    by (run_trace; reflexivity).
  assert (T : take_frame 1 (frames started) = Some (O, []))
    by (run_trace; reflexivity).
  assert (Hh : held started = Some O) by (run_trace; reflexivity).
  assert (Rq : animationRequested started = true) by (run_trace; reflexivity).
  assert (P : isPaused started = false) by (run_trace; reflexivity).
  assert (Last : (0 + 2 = length (coords started))%nat)
    by (run_trace; reflexivity).
  assert (Late : 0 + 3500 / animationSpeed started <= 3500)
    by (run_trace; lra).
  destruct (replay_after_completion started 1 O [] _ _ 3500 3500
              reachable_started T Hh Rq Hs eq_refl P Last Late)
    as (A & _ & _ & B & _).
  unfold finished. auto.
Defined.

Lemma session_tones_witness :
  exists s',
    nth_error
      (sessions
         (step (run initial [MapCreated; CoordsArrive [paris; tokyo];
                             ToggleSound; ClickStart; MoveEnd 0])
               ToggleSound)) 0 = Some s' /\
    s_sound s' = true.
Proof.
  refine (proj2 (proj2 (session_tones
            (run initial [MapCreated; CoordsArrive [paris; tokyo];
                          ToggleSound; ClickStart; MoveEnd 0]) _))
          ToggleSound O
          (mkSession [paris; tokyo] 1 true (Some 1%nat) paris true true true
             false [paris] 0 (Some (mkSegment paris tokyo (3500 / 1) 0 0))) _).
  - apply anim_reachable_run. constructor.
  - unfold run. cbn [fold_left]. eval_world. reflexivity.
Defined.

End AnimationFacts.

Section GeocodingFacts.
Import Geocoding.

Lemma nth_error_middle {A : Type} (l : list A) (x : A) (r : list A) :
  nth_error (l ++ x :: r) (length l) = Some x.
Proof. rewrite nth_error_app2, Nat.sub_diag by lia. reflexivity. Qed.

Lemma update_nth_middle {A : Type} (f : A -> A) (l : list A) (x : A)
    (r : list A) :
  update_nth (length l) f (l ++ x :: r) = l ++ f x :: r.
Proof. induction l as [|a l IH]; simpl; [reflexivity | now rewrite IH]. Qed.

Lemma figures_follow_coords (st : State) :
  reachable st ->
  totalDistance st = Estimator.totalDistance (coords st) /\
  estimatedTime st = Estimator.estimatedTime (coords st).
Proof.
  induction 1 as [|st e R IH].
  - unfold Estimator.totalDistance, Estimator.estimatedTime. simpl. auto.
  - destruct e as [v|k features|k]; simpl.
    + unfold setPlaces. destruct v; [now split | exact IH].
    + unfold answered.
      destruct (nth_error (calls st) k) as [[c|]|]; try exact IH.
      destruct (tl (todo c)); [now split | exact IH].
    + unfold refused.
      destruct (nth_error (calls st) k) as [[c|]|]; exact IH.
Qed.

Lemma answered_eq (st : State) (k : nat) (c : Call)
    (features : option (list Resolver.Feature)) :
  nth_error (calls st) k = Some (Some c) ->
  answered k features st =
  match tl (todo c) with
  | [] => finish (Resolver.push_center features (results c))
            (set_calls (update_nth k (fun _ => None) (calls st)) st)
  | rest =>
      set_calls (update_nth k
                   (fun _ => Some (mkCall rest
                                     (Resolver.push_center features (results c))))
                   (calls st)) st
  end.
Proof. intros H. unfold answered. now rewrite H. Qed.

(** A call that is answered to its end. *)
Lemma call_runs_out (fs : list (option (list Resolver.Feature))) :
  forall (st : State) (k : nat) (c : Call),
  nth_error (calls st) k = Some (Some c) ->
  length fs = length (todo c) -> todo c <> [] ->
  let st' := run st (map (Answered k) fs) in
  coords st' =
    fold_left (fun r f => Resolver.push_center f r) fs (results c) /\
  places st' = places st /\
  calls st' = update_nth k (fun _ => None) (calls st).
Proof.
  induction fs as [|f fs IH]; intros st k c Hc L N; cbv zeta.
  - destruct (todo c); [contradiction | discriminate].
  - cbn [map run fold_left step]. rewrite (answered_eq st k c f Hc).
    destruct (todo c) as [|p rest] eqn:T; [contradiction|]. cbn [tl].
    destruct rest as [|q rest].
    + destruct fs; [|discriminate]. simpl. auto.
    + set (c1 := mkCall (q :: rest) (Resolver.push_center f (results c))).
      set (st1 := set_calls _ st).
      assert (H1 : nth_error (calls st1) k = Some (Some c1)).
      { unfold st1. cbn [calls set_calls].
        now rewrite (nth_error_update_nth_same _ _ _ _ Hc). }
      destruct (IH st1 k c1 H1) as (A & B & C).
      { simpl in *. lia. }
      { discriminate. }
      fold (run st1 (map (Answered k) fs)).
      rewrite A, B, C. unfold st1. cbn [calls set_calls places results c1].
      now rewrite update_nth_twice.
Qed.

Lemma geocoding_reachable_run (st : State) (es : list Event) :
  reachable st -> reachable (run st es).
Proof.
  revert st. induction es as [|e es IH]; intros st R; simpl; [exact R|].
  apply IH. now constructor.
Qed.

(** X9.  Two calls of [fetchCoords] that overlap, for two place lists
    set one after the other: when the answers to the first call come
    first, the coordinates are those of the second list; when the
    answers to the second call come first, the first call ends last and
    its coordinates replace those of the second, though the place list
    is the second one.  Either way the two figures are those of the
    coordinates that are shown. *)
Theorem geocoding_last_finished_wins (st : State) (ps1 ps2 : list string)
    (fs1 fs2 : list (option (list Resolver.Feature))) :
  reachable st ->
  ps1 <> [] -> ps2 <> [] ->
  length fs1 = length ps1 -> length fs2 = length ps2 ->
  let k := length (calls st) in
  let both := run st [SetPlaces ps1; SetPlaces ps2] in
  let in_order := run both (map (Answered k) fs1 ++ map (Answered (S k)) fs2) in
  let crossed := run both (map (Answered (S k)) fs2 ++ map (Answered k) fs1) in
  places in_order = ps2 /\
  coords in_order = fold_left (fun r f => Resolver.push_center f r) fs2 [] /\
  places crossed = ps2 /\
  coords crossed = fold_left (fun r f => Resolver.push_center f r) fs1 [] /\
  totalDistance crossed = Estimator.totalDistance (coords crossed) /\
  estimatedTime crossed = Estimator.estimatedTime (coords crossed).
Proof.
  intros R N1 N2 L1 L2. cbv zeta.
  assert (Fig : forall es,
            totalDistance (run (run st [SetPlaces ps1; SetPlaces ps2]) es) =
              Estimator.totalDistance
                (coords (run (run st [SetPlaces ps1; SetPlaces ps2]) es)) /\
            estimatedTime (run (run st [SetPlaces ps1; SetPlaces ps2]) es) =
              Estimator.estimatedTime
                (coords (run (run st [SetPlaces ps1; SetPlaces ps2]) es))).
  { intros es. apply figures_follow_coords.
    now do 2 apply geocoding_reachable_run. }
  split; [|split; [|split; [|split; [|exact (Fig _)]]]].
  all: clear Fig.
  all: destruct ps1 as [|p1 ps1]; [contradiction|].
  all: destruct ps2 as [|p2 ps2]; [contradiction|].
  all: unfold run at 2; cbn [fold_left step setPlaces].
  all: set (cs := calls st).
  all: set (c1 := mkCall (p1 :: ps1) []); set (c2 := mkCall (p2 :: ps2) []).
  all: set (both := set_calls _ _).
  all: assert (E : calls both = cs ++ Some c1 :: [Some c2])
         by (unfold both; cbn [calls set_calls]; now rewrite <- app_assoc).
  all: assert (H1 : nth_error (calls both) (length cs) = Some (Some c1))
         by (rewrite E; apply nth_error_middle).
  all: assert (H2 : nth_error (calls both) (S (length cs)) = Some (Some c2))
         by (rewrite E, nth_error_app2 by lia;
             replace (S (length cs) - length cs)%nat with 1%nat by lia;
             reflexivity).
  all: unfold run; rewrite !fold_left_app.
  all: fold (run both (map (Answered (length cs)) fs1)).
  all: fold (run both (map (Answered (S (length cs))) fs2)).
  all: destruct (call_runs_out fs1 both (length cs) c1 H1 L1
                   ltac:(discriminate)) as (A1 & B1 & C1).
  all: destruct (call_runs_out fs2 both (S (length cs)) c2 H2 L2
                   ltac:(discriminate)) as (A2 & B2 & C2).
  all: set (after1 := run both (map (Answered (length cs)) fs1)) in *.
  all: set (after2 := run both (map (Answered (S (length cs))) fs2)) in *.
  all: assert (H2' : nth_error (calls after1) (S (length cs)) = Some (Some c2))
         by (rewrite C1, nth_error_update_nth;
             destruct (Nat.eqb_spec (S (length cs)) (length cs));
             [lia | exact H2]).
  all: assert (H1' : nth_error (calls after2) (length cs) = Some (Some c1))
         by (rewrite C2, nth_error_update_nth;
             destruct (Nat.eqb_spec (length cs) (S (length cs)));
             [lia | exact H1]).
  all: destruct (call_runs_out fs2 after1 (S (length cs)) c2 H2' L2
                   ltac:(discriminate)) as (A3 & B3 & _).
  all: destruct (call_runs_out fs1 after2 (length cs) c1 H1' L1
                   ltac:(discriminate)) as (A4 & B4 & _).
  all: fold (run after1 (map (Answered (S (length cs))) fs2)).
  all: fold (run after2 (map (Answered (length cs)) fs1)).
  - rewrite B3, B1. reflexivity.
  - exact A3.
  - rewrite B4, B2. reflexivity.
  - exact A4.
Qed.

Lemma geocoding_last_finished_wins_witness :
  coords (run (run initial [SetPlaces ["Paris"]; SetPlaces ["Tokyo"]]%string)
              (map (Answered 2) [Some [Resolver.mkFeature "Tokyo, Japan" tokyo
                                          "place.2"]] ++
               map (Answered 1) [Some [paris_suggestion]])) =
  [paris].
Proof.
  refine (proj1 (proj2 (proj2 (proj2
    (geocoding_last_finished_wins initial ["Paris"%string] ["Tokyo"%string]
       [Some [paris_suggestion]]
       [Some [Resolver.mkFeature "Tokyo, Japan" tokyo "place.2"]]
       reachable_initial _ _ eq_refl eq_refl))))); discriminate.
Defined.

End GeocodingFacts.

Section ThemeFacts.
Import Theme.
Open Scope Z_scope.

Lemma default_theme_cases (h m : Z) :
  let mins := h * 60 + m in
  (301 <= mins <= 540 /\ getDefaultThemeIdx h m = 3) \/
  (541 <= mins <= 1020 /\ getDefaultThemeIdx h m = 1) \/
  (1021 <= mins <= 1140 /\ getDefaultThemeIdx h m = 0) \/
  ((mins < 301 \/ 1140 < mins) /\ getDefaultThemeIdx h m = 2).
Proof.
  cbv zeta. unfold getDefaultThemeIdx. cbv zeta.
  set (mins := h * 60 + m).
  destruct ((301 <=? mins) && (mins <=? 540)) eqn:E1;
    [|destruct ((541 <=? mins) && (mins <=? 1020)) eqn:E2;
      [|destruct ((1021 <=? mins) && (mins <=? 1140)) eqn:E3]].
  - apply andb_prop in E1 as [A B]. apply Z.leb_le in A, B.
    left. split; [lia | reflexivity].
  - apply andb_prop in E2 as [A B]. apply Z.leb_le in A, B.
    right; left. split; [lia | reflexivity].
  - apply andb_prop in E3 as [A B]. apply Z.leb_le in A, B.
    right; right; left. split; [lia | reflexivity].
  - right; right; right. split; [|reflexivity].
    apply andb_false_iff in E1, E2, E3. rewrite !Z.leb_gt in *. lia.
Qed.

(** X5.  [getDefaultThemeIdx] at h:m, any time of the day: it is the
    index of "Golden Sunrise" from 05:01 to 09:00, of "Citrus Sky" from
    09:01 to 17:00, of "Sunset Coast" from 17:01 to 19:00 and of
    "Vivid Night" otherwise.  It is never -1: it is one of the values of
    the theme selector, and the theme effect finds the theme and the two
    colours of the texture. *)
Theorem default_theme_by_time (h m : Z) :
  0 <= h <= 23 -> 0 <= m <= 59 ->
  let idx := getDefaultThemeIdx h m in
  let at_or_after h0 m0 := (h0 <? h) || ((h0 =? h) && (m0 <=? m)) in
  let expected :=
    if at_or_after 5 1 && negb (at_or_after 9 1) then "Golden Sunrise"%string
    else if at_or_after 9 1 && negb (at_or_after 17 1) then "Citrus Sky"%string
    else if at_or_after 17 1 && negb (at_or_after 19 1) then "Sunset Coast"%string
    else "Vivid Night"%string in
  option_map name (theme_at idx) = Some expected /\
  In idx theme_options /\
  exists entries bg accent,
    theme_effect idx = Some (entries, Some bg, Some accent).
Proof.
  intros H M. cbv zeta.
  destruct (default_theme_cases h m) as [[R ->]|[[R ->]|[[R ->]|[R ->]]]].
  all: split; [|split; [simpl; tauto | do 3 eexists; reflexivity]].
  all: cbn [theme_at Z.ltb Z.compare Z.to_nat Pos.to_nat Pos.iter_op
            nth_error themes option_map name].
  all: f_equal.
  all: repeat match goal with
       | |- context [(?a <? ?b)] => destruct (Z.ltb_spec a b)
       | |- context [(?a =? ?b)] => destruct (Z.eqb_spec a b)
       | |- context [(?a <=? ?b)] => destruct (Z.leb_spec a b)
       end; cbn [andb orb negb]; try reflexivity; try lia.
Qed.

Lemma default_theme_by_time_witness :
  option_map name (theme_at (getDefaultThemeIdx 8 30)) =
  Some "Golden Sunrise"%string.
Proof.
  refine (proj1 (default_theme_by_time 8 30 _ _)); lia.
Defined.

End ThemeFacts.

Section LoadAnimationFacts.
Import Floats LoadAnimation.
#[local] Set Warnings "-inexact-float".

Ltac run_steps :=
  cbv -[Nat.ltb length nth Nat.sub fst snd PrimFloat.sub PrimFloat.mul].

Lemma frames_add (j k : nat) (coords : list Point) (s : Loop) :
  frames (j + k) coords s = frames k coords (frames j coords s).
Proof.
  revert s. induction j as [|j IH]; intros s; [reflexivity|]. simpl. apply IH.
Qed.

(** Fifty calls of [step] from [t = 0] end a segment: the fiftieth sum
    of 0.02 is 1.0000000000000004. *)
Lemma segment_takes_50 (coords : list Point) (k : nat) (a b m : Point)
    (on : bool) :
  frames 50 coords (mkLoop k a b 0%float m on true) =
  if (S k <? length coords - 1)%nat
  then mkLoop (S k) a b 0%float b on true
  else mkLoop (S k) a b 1.0000000000000004%float b false false.
Proof. run_steps. reflexivity. Qed.

(** Fewer than fifty calls do not: after [r] of them, [t] is the [r]-th
    sum of 0.02 and the marker is at the point computed from it. *)
Lemma segment_under_way (coords : list Point) (k r : nat) (a b m : Point) :
  (1 <= r < 50)%nat ->
  frames r coords (mkLoop k a b 0%float m true true) =
  mkLoop k a b (ticks r) (along a b (ticks r)) true true.
Proof.
  intros L.
  destruct r as [|r]; [lia|].
  do 49 (destruct r as [|r]; [run_steps; reflexivity|]).
  lia.
Qed.

(** The sums of 0.02 that [step] uses as [t] lie between 0 and 1. *)
Lemma ticks_range (r : nat) :
  (1 <= r < 50)%nat ->
  (0 <? ticks r)%float = true /\ (ticks r <? 1)%float = true.
Proof.
  intros L.
  destruct r as [|r]; [lia|].
  do 49 (destruct r as [|r]; [vm_compute; split; reflexivity|]).
  lia.
Qed.

Lemma on_load_is_a_frame (coords : list Point) :
  (2 <= length coords)%nat ->
  on_load coords =
  frames 1 coords
    (mkLoop 0 (nth 0 coords nowhere) (nth 1 coords nowhere) 0%float
            (nth 0 coords nowhere) true true).
Proof.
  intros L. unfold on_load, animate. cbn [i frames frame scheduled].
  destruct (Nat.ltb_spec 0 (length coords - 1)) as [_|]; [|lia].
  reflexivity.
Qed.

(** After [q] whole segments the loop is at the start of segment [q],
    with [start] and [end] as [animate] captured them, and the marker on
    [end] once a segment has been played. *)
Lemma segments_done (coords : list Point) (a b m0 : Point) (q : nat) :
  (q < length coords - 1)%nat ->
  frames (50 * q) coords (mkLoop 0 a b 0%float m0 true true) =
  mkLoop q a b 0%float (if (q =? 0)%nat then m0 else b) true true.
Proof.
  induction q as [|q IH]; intros L.
  - reflexivity.
  - replace (50 * S q)%nat with (50 * q + 50)%nat by lia.
    rewrite frames_add, IH, segment_takes_50 by lia.
    destruct (Nat.ltb_spec (S q) (length coords - 1)); [|lia].
    reflexivity.
Qed.

Lemma all_segments_done (coords : list Point) (a b m0 : Point) :
  (2 <= length coords)%nat ->
  frames (50 * (length coords - 1)) coords (mkLoop 0 a b 0%float m0 true true) =
  mkLoop (length coords - 1) a b 1.0000000000000004%float b false false.
Proof.
  intros L. destruct (length coords - 1)%nat as [|q] eqn:E; [lia|].
  replace (50 * S q)%nat with (50 * q + 50)%nat by lia.
  rewrite frames_add, segments_done, segment_takes_50, E by lia.
  destruct (Nat.ltb_spec (S q) (S q)); [lia | reflexivity].
Qed.

(** X15.  The animation of the ['load'] handler, on any list of n >= 2
    coordinates, call by call ([after k] is the state when the handler
    and k frame callbacks have run, that is after k + 1 calls of
    [step]).  Every segment takes fifty calls: call 50 q + r, with
    0 < r < 50, leaves [i] at q and the marker at
    start + (end - start) * t, where t is the r-th sum of 0.02, a number
    between 0 and 1; call 50 q + 50 moves [i] on and puts the marker on
    [end].  [start] and [end] are the first two coordinates whatever q
    is, since [animate] is called once: the marker runs along the first
    leg once for every segment.  [animating] stays set until call
    50 (n - 1) clears it, with the marker on the second coordinate, and
    nothing changes after that. *)
Theorem load_animation_replays_first_leg (coords : list Point) :
  (2 <= length coords)%nat ->
  let n := length coords in
  let a := nth 0 coords nowhere in
  let b := nth 1 coords nowhere in
  let after k := frames k coords (on_load coords) in
  let last := (50 * (n - 1) - 1)%nat in
  (forall k, (k < last)%nat ->
     animating (after k) = true /\ scheduled (after k) = true /\
     i (after k) = (S k / 50)%nat /\
     marker (after k) =
       if (S k mod 50 =? 0)%nat then b else along a b (ticks (S k mod 50))) /\
  (forall r, (1 <= r < 50)%nat ->
     (0 <? ticks r)%float = true /\ (ticks r <? 1)%float = true) /\
  animating (after last) = false /\ scheduled (after last) = false /\
  i (after last) = (n - 1)%nat /\
  marker (after last) = b /\
  (forall k, after (last + k)%nat = after last).
Proof.
  intros L. cbv zeta.
  set (s0 := mkLoop 0 (nth 0 coords nowhere) (nth 1 coords nowhere) 0%float
                    (nth 0 coords nowhere) true true).
  assert (A : forall k, frames k coords (on_load coords) =
                        frames (S k) coords s0).
  { intros k. rewrite (on_load_is_a_frame coords L). fold s0.
    change (S k) with (1 + k)%nat. now rewrite frames_add. }
  assert (E : frames (50 * (length coords - 1) - 1) coords (on_load coords) =
              mkLoop (length coords - 1) (nth 0 coords nowhere)
                     (nth 1 coords nowhere) 1.0000000000000004%float
                     (nth 1 coords nowhere) false false).
  { rewrite A. replace (S (50 * (length coords - 1) - 1))
      with (50 * (length coords - 1))%nat by lia.
    now apply all_segments_done. }
  split; [|split; [|split; [|split; [|split; [|split]]]]].
  - intros k K. rewrite A.
    pose proof (Nat.div_mod_eq (S k) 50) as D.
    pose proof (Nat.mod_upper_bound (S k) 50 ltac:(lia)) as U.
    set (q := (S k / 50)%nat) in *. set (r := (S k mod 50)%nat) in *.
    rewrite D, frames_add. unfold s0.
    rewrite segments_done by nia.
    destruct (Nat.eqb_spec r 0) as [Z|Z].
    + rewrite Z. cbn [frames].
      destruct (Nat.eqb_spec q 0) as [Q|Q]; [lia|].
      repeat split; reflexivity.
    + rewrite segment_under_way by lia. repeat split; reflexivity.
  - exact ticks_range.
  - now rewrite E.
  - now rewrite E.
  - now rewrite E.
  - now rewrite E.
  - intros k. rewrite frames_add, E. clear.
    induction k as [|k IH]; [reflexivity | exact IH].
Qed.

Lemma load_animation_replays_first_leg_witness :
  marker (frames 74 three_stops (on_load three_stops)) =
  along (nth 0 three_stops nowhere) (nth 1 three_stops nowhere) (ticks 25).
Proof.
  refine (proj2 (proj2 (proj2 (proj1
    (load_animation_replays_first_leg three_stops _) 74%nat _)))).
  - simpl. lia.
  - simpl. lia.
Defined.

End LoadAnimationFacts.
